(** * Impact engine of climada: [climada/engine/impact.py]

    A shallow embedding of [Impact.calc], [Impact._one_exposure] and
    [Impact.calc_freq_curve], with the numpy operations they call, and the
    properties of the specification proved (or refuted) on it.

    Numbers: numpy's float64 arrays are modelled in exact arithmetic, as
    lists of rationals [Q]; equality of computed numbers is [Qeq] ([==]).
    The one place where IEEE arithmetic shows is the division [1/x] of
    [calc_freq_curve], whose result type [npfloat] has an infinity.
    Exceptions are modelled by the [result] type. *)

From Stdlib Require Import String.
From Stdlib Require Import List Bool Arith ZArith QArith Qminmax Lia Lqa.
From Stdlib Require Import Permutation Sorted.
Import ListNotations.

(* ------------------------------------------------------------------ *)
(** ** Exceptions *)

Inductive exn : Set := IndexError | KeyError | ValueError.

Inductive result (A : Type) : Type :=
| Ok (a : A)
| Raise (e : exn).

Arguments Ok {A} a.
Arguments Raise {A} e.

Definition bind {A B : Type} (r : result A) (k : A -> result B) : result B :=
  match r with
  | Ok a => k a
  | Raise e => Raise e
  end.

Declare Scope result_scope.
Delimit Scope result_scope with result.
Notation "x <- r ;; k" := (bind r (fun x => k))
  (at level 61, r at next level, right associativity) : result_scope.

Local Open Scope result_scope.
Local Open Scope Q_scope.

(** [for x in l: st = body(st, x)], stopping at the first exception. *)
Fixpoint for_each {A S : Type} (body : S -> A -> result S) (l : list A) (st : S)
  : result S :=
  match l with
  | [] => Ok st
  | x :: l' => st' <- body st x ;; for_each body l' st'
  end.

Fixpoint map_result {A B : Type} (f : A -> result B) (l : list A)
  : result (list B) :=
  match l with
  | [] => Ok []
  | x :: l' => y <- f x ;; ys <- map_result f l' ;; Ok (y :: ys)
  end.

(* ------------------------------------------------------------------ *)
(** ** Comparisons on [Q] as booleans *)

Definition Qlt_bool (x y : Q) : bool := negb (Qle_bool y x).
Definition Qnonzero (x : Q) : bool := negb (Qeq_bool x 0).

(* ------------------------------------------------------------------ *)
(** ** The numpy operations used by the engine *)

Module np.

(** [np.zeros(n)] *)
Definition zeros (n : nat) : list Q := repeat 0 n.

(** [a[i]] for a non-negative index: [IndexError] out of range. *)
Definition getitem {A : Type} (a : list A) (i : nat) : result A :=
  match nth_error a i with
  | Some x => Ok x
  | None => Raise IndexError
  end.

(** [a[idx]] for an array of indices. *)
Definition take {A : Type} (a : list A) (idx : list nat) : result (list A) :=
  map_result (getitem a) idx.

(** [a[i] = v] *)
Fixpoint setitem {A : Type} (a : list A) (i : nat) (v : A) : result (list A) :=
  match a, i with
  | [], _ => Raise IndexError
  | _ :: a', O => Ok (v :: a')
  | x :: a', S i' => a'' <- setitem a' i' v ;; Ok (x :: a'')
  end.

(** [a[idx] = vals], element by element: where an index is repeated the
    last assignment stays. *)
Fixpoint put {A : Type} (a : list A) (idx : list nat) (vals : list A)
  : result (list A) :=
  match idx, vals with
  | [], [] => Ok a
  | i :: idx', v :: vals' => a' <- setitem a i v ;; put a' idx' vals'
  | _, _ => Raise ValueError
  end.

(** Elementwise binary operation on two one-dimensional arrays, with
    numpy's broadcasting: equal lengths, or one side of length one. *)
Fixpoint zip_with {A B C : Type} (f : A -> B -> C) (a : list A) (b : list B)
  : list C :=
  match a, b with
  | x :: a', y :: b' => f x y :: zip_with f a' b'
  | _, _ => []
  end.

Definition broadcast2 {A B C : Type} (f : A -> B -> C) (a : list A) (b : list B)
  : result (list C) :=
  if Nat.eqb (length a) (length b) then Ok (zip_with f a b)
  else match a, b with
       | [x], _ => Ok (map (f x) b)
       | _, [y] => Ok (map (fun x => f x y) a)
       | _, _ => Raise ValueError
       end.

(** [a[idx] += v]: the right-hand side [a[idx] + v] is computed first,
    then assigned. *)
Definition iadd_at (a : list Q) (idx : list nat) (v : list Q)
  : result (list Q) :=
  old <- take a idx ;;
  new <- broadcast2 Qplus old v ;;
  put a idx new.

(** [a[i] += v] *)
Definition iadd_item (a : list Q) (i : nat) (v : Q) : result (list Q) :=
  old <- getitem a i ;; setitem a i (old + v).

(** [np.where(mask)[0]]: the indices at which the mask holds, increasing. *)
Fixpoint where_from (i : nat) (mask : list bool) : list nat :=
  match mask with
  | [] => []
  | b :: mask' =>
      if b then i :: where_from (S i) mask' else where_from (S i) mask'
  end.

Definition where_ (mask : list bool) : list nat := where_from 0 mask.

(** [a.nonzero()[0]] *)
Definition nonzero (a : list Q) : list nat := where_ (map Qnonzero a).

(** [np.count_nonzero(a)] *)
Definition count_nonzero (a : list Q) : nat := length (filter Qnonzero a).

(** [sum(a)]: Python's built-in, from 0, left to right. *)
Definition sum (a : list Q) : Q := fold_left Qplus a 0.

(** [np.cumsum(a)] *)
Fixpoint cumsum_from (acc : Q) (a : list Q) : list Q :=
  match a with
  | [] => []
  | x :: a' => (acc + x) :: cumsum_from (acc + x) a'
  end.

Definition cumsum (a : list Q) : list Q :=
  match a with
  | [] => []
  | x :: a' => x :: cumsum_from x a'
  end.

(** [np.maximum(a, s)] and [np.minimum(a, s)] against a scalar. *)
Definition maximum (a : list Q) (s : Q) : list Q := map (fun x => Qmax x s) a.
Definition minimum (a : list Q) (s : Q) : list Q := map (fun x => Qmin x s) a.

(** [np.interp(x, xp, fp)] at one point, for the breakpoints zipped into
    pairs: flat outside the range, and on the segment [xp[j] <= x < xp[j+1]]
    the value [slope * (x - xp[j]) + fp[j]].  numpy finds [j] by bisection,
    which for increasing [xp] (the documented requirement) is the segment
    this scan finds. *)
Fixpoint interp_seg (x x0 f0 : Q) (rest : list (Q * Q)) : Q :=
  match rest with
  | [] => f0
  | (x1, f1) :: rest' =>
      if Qlt_bool x x1
      then (f1 - f0) / (x1 - x0) * (x - x0) + f0
      else interp_seg x x1 f1 rest'
  end.

Definition interp1 (pts : list (Q * Q)) (x : Q) : Q :=
  match pts with
  | [] => 0
  | (x0, f0) :: rest => if Qlt_bool x x0 then f0 else interp_seg x x0 f0 rest
  end.

(** [np.interp(x, xp, fp)]: [ValueError] when [xp] is empty or [fp] has
    another length. *)
Definition interp (x xp fp : list Q) : result (list Q) :=
  match xp with
  | [] => Raise ValueError
  | _ :: _ =>
      if Nat.eqb (length fp) (length xp)
      then Ok (map (interp1 (combine xp fp)) x)
      else Raise ValueError
  end.

(** [np.argsort(a)]: the indices of [a] in increasing order of value.
    numpy's default kind does not fix the order of equal values; here
    equal values keep their order (insertion from the right). *)
Fixpoint insert_by (key : nat -> Q) (i : nat) (l : list nat) : list nat :=
  match l with
  | [] => [i]
  | j :: l' =>
      if Qle_bool (key i) (key j) then i :: l else j :: insert_by key i l'
  end.

Fixpoint sort_by (key : nat -> Q) (l : list nat) : list nat :=
  match l with
  | [] => []
  | i :: l' => insert_by key i (sort_by key l')
  end.

Definition argsort (a : list Q) : list nat :=
  sort_by (fun i => nth i a 0) (seq 0 (length a)).

(** A float64 that may be infinite: what [1/x] returns. *)
Inductive npfloat : Type :=
| finite (q : Q)
| inf.

(** [1/x] on a float array under numpy's default error state: division
    by zero gives [inf] (and a warning), not an exception. *)
Definition reciprocal (x : Q) : npfloat :=
  if Qeq_bool x 0 then inf else finite (1 / x).

End np.

(* ------------------------------------------------------------------ *)
(** ** Sparse matrices (scipy), by their dense view *)

(** A [shape = (length rows, ncols)] matrix; a cell that a row does not
    list is an implicit zero, as in the sparse formats. *)
Record matrix : Type := {
  ncols : nat;
  rows : list (list Q)
}.

Definition nrows (m : matrix) : nat := length (rows m).

Definition cell (m : matrix) (i j : nat) : Q := nth j (nth i (rows m) []) 0.

(** Column index as Python resolves it: negative indices count from the
    end, anything outside [-ncols, ncols) is an [IndexError]. *)
Definition col_index (m : matrix) (icen : Z) : result nat :=
  let n := Z.of_nat (ncols m) in
  if ((0 <=? icen) && (icen <? n))%Z then Ok (Z.to_nat icen)
  else if ((- n <=? icen) && (icen <? 0))%Z then Ok (Z.to_nat (icen + n))
  else Raise IndexError.

(** [m[:, icen]], as a one-dimensional array over the events. *)
Definition column (m : matrix) (icen : Z) : result (list Q) :=
  j <- col_index m icen ;; Ok (map (fun r => nth j r 0) (rows m)).

(* ------------------------------------------------------------------ *)
(** ** Data model *)

(** [Exposures]: parallel arrays over the exposures; [assigned] is the
    dictionary from hazard type to the array of assigned centroids
    (negative: not assigned).  A dictionary has one entry per key and is
    only looked up here, so a list of pairs read at its first match
    models it. *)
Record Exposures : Type := {
  value : list Q;
  deductible : list Q;
  cover : list Q;
  impact_id : list Z;
  assigned : list (string * list Z);
  value_unit : string
}.

(** [Hazard]: [tag.haz_type], the per-event arrays and the two
    event x centroid matrices. *)
Record Hazard : Type := {
  haz_type : string;
  event_id : list Z;
  frequency : list Q;
  intensity : matrix;
  fraction : matrix
}.

(** [ImpactFunc]: the breakpoints of one vulnerability curve. *)
Record ImpactFunc : Type := {
  id : Z;
  fun_intensity : list Q;
  mdr : list Q;
  paa : list Q
}.

(** Modelled from the spec: the class [ImpactFuncSet] belongs to another
    module of the package ([climada.entity]); [calc] only calls its method
    [get_func(haz_type)], which yields the ordered collection of the
    impact functions of that hazard type.  The set is represented by that
    method, so that whatever it does for an unknown hazard type can be
    expressed. *)
Record ImpactFuncSet : Type := {
  get_func : string -> result (list ImpactFunc)
}.

(** Modelled from the spec: [ImpactFunc.calc_mdr] belongs to another
    module of the package ([climada.entity]); it interpolates the mean
    damage ratio over the breakpoints, by the same scheme as the
    [np.interp] call for [paa] in [_one_exposure]. *)
Definition calc_mdr (imp_fun : ImpactFunc) (inten : list Q) : result (list Q) :=
  np.interp inten (fun_intensity imp_fun) (mdr imp_fun).

(** [Impact]: the result object (tags, names, dates and coordinates are
    passed through by [calc] and left out). *)
Record Impact : Type := {
  imp_event_id : list Z;
  eai_exp : list Q;
  at_event : list Q;
  imp_frequency : list Q;
  tot_value : Q;
  aai_agg : Q;
  unit : string
}.

(** [Impact.__init__] *)
Definition Impact_init : Impact := {|
  imp_event_id := [];
  eai_exp := [];
  at_event := [];
  imp_frequency := [];
  tot_value := 0;
  aai_agg := 0;
  unit := "NA"
|}.

(** [ImpactFreqCurve] (the label, built from file names, is left out). *)
Record ImpactFreqCurve : Type := {
  return_per : list np.npfloat;
  impact : list Q;
  ifc_unit : string
}.

(** [d[key]] on a dictionary. *)
Fixpoint dict_get {V : Type} (d : list (string * V)) (key : string) : result V :=
  match d with
  | [] => Raise KeyError
  | (k, v) :: d' => if String.eqb k key then Ok v else dict_get d' key
  end.

(** [key in d] *)
Definition dict_mem {V : Type} (d : list (string * V)) (key : string) : bool :=
  existsb (fun kv => String.eqb (fst kv) key) d.

(* ------------------------------------------------------------------ *)
(** ** [Impact._one_exposure] *)

(** Lines 228-238: the assigned centroid, the events with a nonzero
    intensity there, their intensities and fractions, and the impact
    before deductible and cover. Returns [(event_row, inten_val, impact)]. *)
Definition raw_impact (iexp : nat) (exposures : Exposures) (hazard : Hazard)
    (imp_fun : ImpactFunc) : result (list nat * list Q * list Q) :=
  cens <- dict_get (assigned exposures) (haz_type hazard) ;;
  icen <- np.getitem cens iexp ;;
  icol <- column (intensity hazard) icen ;;
  let event_row := np.nonzero icol in
  inten_val <- np.take icol event_row ;;
  fcol <- column (fraction hazard) icen ;;
  fract <- np.take fcol event_row ;;
  v <- np.getitem (value exposures) iexp ;;
  m <- calc_mdr imp_fun inten_val ;;
  impact <- np.broadcast2 Qmult (map (Qmult v) m) fract ;;
  Ok (event_row, inten_val, impact).

(** Lines 244-246: [np.minimum(np.maximum(impact - deductible * paa, 0), cover)] *)
Definition clip (impact paa : list Q) (ded cov : Q) : result (list Q) :=
  d <- np.broadcast2 Qminus impact (map (Qmult ded) paa) ;;
  Ok (np.minimum (np.maximum d 0) cov).

Definition _one_exposure (iexp : nat) (exposures : Exposures) (hazard : Hazard)
    (imp_fun : ImpactFunc) : result (list nat * list Q) :=
  r <- raw_impact iexp exposures hazard imp_fun ;;
  let '(event_row, inten_val, impact) := r in
  if (0 <? np.count_nonzero impact)%nat then
    paa <- np.interp inten_val (fun_intensity imp_fun) (paa imp_fun) ;;
    ded <- np.getitem (deductible exposures) iexp ;;
    if Qlt_bool 0 ded then
      cov <- np.getitem (cover exposures) iexp ;;
      impact' <- clip impact paa ded cov ;;
      Ok (event_row, impact')
    else
      cov <- np.getitem (cover exposures) iexp ;;
      v <- np.getitem (value exposures) iexp ;;
      if Qlt_bool cov v then
        impact' <- clip impact paa ded cov ;;
        Ok (event_row, impact')
      else Ok (event_row, impact)
  else Ok (event_row, impact).

(* ------------------------------------------------------------------ *)
(** ** [Impact.calc] *)

Section Calc.

(** [exposures.assign(hazard)]: the spatial assignment, an external
    collaborator that fills [assigned] for the hazard's type. *)
Variable assign : Exposures -> Hazard -> Exposures.

(** Step 1: assign centroids if not done. *)
Definition assign_if_needed (exposures : Exposures) (hazard : Hazard)
  : Exposures :=
  match assigned exposures with
  | [] => assign exposures hazard
  | _ :: _ =>
      if negb (dict_mem (assigned exposures) (haz_type hazard))
      then assign exposures hazard
      else exposures
  end.

(** Lines 158-159: the exposures with positive value and assigned centroid. *)
Definition select_exposures (exposures : Exposures) (hazard : Hazard)
  : result (list nat) :=
  cens <- dict_get (assigned exposures) (haz_type hazard) ;;
  mask <- np.broadcast2 andb (map (Qlt_bool 0) (value exposures))
                             (map (Z.leb 0) cens) ;;
  Ok (np.where_ mask).

(** Step 2, the fields set before the selection. *)
Definition calc_init (self : Impact) (exposures : Exposures) (hazard : Hazard)
  : Impact := {|
    imp_event_id := event_id hazard;
    eai_exp := np.zeros (length (value exposures));
    at_event := np.zeros (nrows (intensity hazard));
    imp_frequency := frequency hazard;
    tot_value := 0;
    aai_agg := aai_agg self;
    unit := value_unit exposures
  |}.

(** Lines 181-188: one exposure added to the running result. *)
Definition add_exposure (exposures : Exposures) (hazard : Hazard)
    (imp_fun : ImpactFunc) (self : Impact) (iexp : nat) : result Impact :=
  r <- _one_exposure iexp exposures hazard imp_fun ;;
  let '(event_row, impact) := r in
  at_event' <- np.iadd_at (at_event self) event_row impact ;;
  freq <- np.take (frequency hazard) event_row ;;
  prod <- np.broadcast2 Qmult impact freq ;;
  eai_exp' <- np.iadd_item (eai_exp self) iexp (np.sum prod) ;;
  v <- np.getitem (value exposures) iexp ;;
  Ok {| imp_event_id := imp_event_id self;
        eai_exp := eai_exp';
        at_event := at_event';
        imp_frequency := imp_frequency self;
        tot_value := tot_value self + v;
        aai_agg := aai_agg self;
        unit := unit self |}.

(** Lines 176-188: the exposures of one impact function. *)
Definition add_group (exposures : Exposures) (hazard : Hazard)
    (exp_idx : list nat) (self : Impact) (imp_fun : ImpactFunc)
  : result Impact :=
  ids <- np.take (impact_id exposures) exp_idx ;;
  let exp_iimp := np.where_ (map (fun i => Z.eqb i (id imp_fun)) ids) in
  sel <- np.take exp_idx exp_iimp ;;
  for_each (add_exposure exposures hazard imp_fun) sel self.

Definition calc (self : Impact) (exposures : Exposures)
    (impact_funcs : ImpactFuncSet) (hazard : Hazard) : result Impact :=
  let exposures := assign_if_needed exposures hazard in
  let self := calc_init self exposures hazard in
  exp_idx <- select_exposures exposures hazard ;;
  match exp_idx with
  | [] => Ok self
  | _ :: _ =>
      haz_imp <- get_func impact_funcs (haz_type hazard) ;;
      self <- for_each (add_group exposures hazard exp_idx) haz_imp self ;;
      prod <- np.broadcast2 Qmult (at_event self) (frequency hazard) ;;
      Ok {| imp_event_id := imp_event_id self;
            eai_exp := eai_exp self;
            at_event := at_event self;
            imp_frequency := imp_frequency self;
            tot_value := tot_value self;
            aai_agg := np.sum prod;
            unit := unit self |}
  end.

End Calc.

(* ------------------------------------------------------------------ *)
(** ** [Impact.calc_freq_curve] *)

(** The curve for a given order [sort_idxs] of the events (lines 104-108). *)
Definition freq_curve_of (self : Impact) (sort_idxs : list nat)
  : result ImpactFreqCurve :=
  freq <- np.take (imp_frequency self) sort_idxs ;;
  let exceed_freq := np.cumsum freq in
  impact <- np.take (at_event self) sort_idxs ;;
  Ok {| return_per := map np.reciprocal exceed_freq;
        impact := impact;
        ifc_unit := unit self |}.

Definition calc_freq_curve (self : Impact) : result ImpactFreqCurve :=
  let sort_idxs := rev (np.argsort (at_event self)) in
  freq_curve_of self sort_idxs.

(* ------------------------------------------------------------------ *)
(** ** Notions used by the statements *)

(** [sum(a * f)] for two arrays of one length. *)
Definition dot (a f : list Q) : Q := np.sum (np.zip_with Qmult a f).

(** Lists of numbers equal entry by entry. *)
Definition Qlist_eq (a b : list Q) : Prop := Forall2 Qeq a b.

(** Order and equality on floats with an infinity. *)
Definition npfloat_le (x y : np.npfloat) : Prop :=
  match x, y with
  | _, np.inf => True
  | np.inf, np.finite _ => False
  | np.finite a, np.finite b => a <= b
  end.

Definition npfloat_eq (x y : np.npfloat) : Prop :=
  match x, y with
  | np.inf, np.inf => True
  | np.finite a, np.finite b => a == b
  | _, _ => False
  end.

(** Non-increasing along the list. *)
Definition descending (l : list Q) : Prop :=
  StronglySorted (fun x y => y <= x) l.

Definition npfloat_descending (l : list np.npfloat) : Prop :=
  StronglySorted (fun x y => npfloat_le y x) l.

(** The ids of a collection of impact functions. *)
Definition fun_ids (haz_imp : list ImpactFunc) : list Z := map id haz_imp.

(** An exposure is matched when its [impact_id] is the id of one of the
    impact functions. *)
Definition matched (exposures : Exposures) (haz_imp : list ImpactFunc)
    (iexp : nat) : bool :=
  match nth_error (impact_id exposures) iexp with
  | Some i => existsb (Z.eqb i) (fun_ids haz_imp)
  | None => false
  end.

(** The mean damage ratio and the probability of affection of an impact
    function at one intensity: [np.interp] at a single point. *)
Definition mdr_at (imp_fun : ImpactFunc) (x : Q) : Q :=
  np.interp1 (combine (fun_intensity imp_fun) (mdr imp_fun)) x.

Definition paa_at (imp_fun : ImpactFunc) (x : Q) : Q :=
  np.interp1 (combine (fun_intensity imp_fun) (paa imp_fun)) x.

(** Deductible and cover applied to one impact value [x], for the
    probability of affection [p]. *)
Definition clip_at (ded cov x p : Q) : Q := Qmin (Qmax (x - ded * p) 0) cov.

(** The events with a nonzero intensity at column [j]. *)
Definition relevant_events (hazard : Hazard) (j : nat) : list nat :=
  filter (fun i => Qnonzero (cell (intensity hazard) i j))
         (seq 0 (nrows (intensity hazard))).

(** The exposures of [exp_idx] whose [impact_id] is the id of [imp_fun]:
    [exp_idx[exp_iimp]] of line 179. *)
Definition group_of (exposures : Exposures) (exp_idx : list nat)
    (imp_fun : ImpactFunc) : list nat :=
  filter (fun i => Z.eqb (nth i (impact_id exposures) 0%Z) (id imp_fun)) exp_idx.

(** The hazard with another fraction matrix. *)
Definition with_fraction (hazard : Hazard) (F : matrix) : Hazard := {|
  haz_type := haz_type hazard;
  event_id := event_id hazard;
  frequency := frequency hazard;
  intensity := intensity hazard;
  fraction := F
|}.

(** The arrays have the lengths that go together: one assigned centroid
    and one [impact_id] per exposure, one frequency per event. *)
Definition well_shaped (exposures : Exposures) (hazard : Hazard) : Prop :=
  exists cens,
    dict_get (assigned exposures) (haz_type hazard) = Ok cens /\
    length cens = length (value exposures) /\
    length (impact_id exposures) = length (value exposures) /\
    length (frequency hazard) = nrows (intensity hazard).

(** An impact function with breakpoints: at least one, and as many [mdr]
    and [paa] values as intensities. *)
Definition wf_imp_fun (imp_fun : ImpactFunc) : Prop :=
  fun_intensity imp_fun <> [] /\
  length (mdr imp_fun) = length (fun_intensity imp_fun) /\
  length (paa imp_fun) = length (fun_intensity imp_fun).

(** Valid input of [calc]: arrays of matching lengths, the two matrices
    of one shape, assigned centroids inside the hazard's centroids, and
    impact functions with breakpoints. *)
Definition valid_input (exposures : Exposures) (hazard : Hazard)
    (haz_imp : list ImpactFunc) : Prop :=
  well_shaped exposures hazard /\
  length (deductible exposures) = length (value exposures) /\
  length (cover exposures) = length (value exposures) /\
  (forall cens, dict_get (assigned exposures) (haz_type hazard) = Ok cens ->
                Forall (fun c => (c < Z.of_nat (ncols (intensity hazard)))%Z) cens) /\
  ncols (fraction hazard) = ncols (intensity hazard) /\
  nrows (fraction hazard) = nrows (intensity hazard) /\
  Forall wf_imp_fun haz_imp.

(** The state of the loop has one entry per event and per exposure. *)
Definition sized (e : Exposures) (h : Hazard) (s : Impact) : Prop :=
  length (at_event s) = nrows (intensity h) /\
  length (eai_exp s) = length (value e).

(** All cells of a matrix satisfy [P]. *)
Definition all_cells (P : Q -> Prop) (m : matrix) : Prop :=
  Forall (Forall P) (rows m).

(* ------------------------------------------------------------------ *)
(** ** Concrete inputs *)

(** An assignment that changes nothing: for exposures that are assigned
    already. *)
Definition no_assign (exposures : Exposures) (hazard : Hazard) : Exposures :=
  exposures.

(** The end-to-end example of the specification: one exposure, one
    impact function, two events at the exposure's centroid. *)
Definition ex_exposures : Exposures := {|
  value := [100];
  deductible := [0];
  cover := [100];
  impact_id := [1%Z];
  assigned := [("TC"%string, [0%Z])];
  value_unit := "USD"
|}.

Definition ex_imp_fun : ImpactFunc := {|
  id := 1;
  fun_intensity := [0; 10];
  mdr := [0; 1];
  paa := [0; 1]
|}.

Definition ex_impact_funcs : ImpactFuncSet := {|
  get_func := fun haz =>
    if String.eqb haz "TC" then Ok [ex_imp_fun] else Raise KeyError
|}.

Definition ex_hazard : Hazard := {|
  haz_type := "TC";
  event_id := [1%Z; 2%Z];
  frequency := [1 # 10; 1 # 100];
  intensity := {| ncols := 1; rows := [[5]; [10]] |};
  fraction := {| ncols := 1; rows := [[1]; [1]] |}
|}.

(** The same exposure, insured: deductible 10 and cover 40. *)
Definition ins_exposures : Exposures := {|
  value := [100];
  deductible := [10];
  cover := [40];
  impact_id := [1%Z];
  assigned := [("TC"%string, [0%Z])];
  value_unit := "USD"
|}.

(** An impact function whose mean damage ratio reaches 2. *)
Definition steep_imp_fun : ImpactFunc := {|
  id := 1;
  fun_intensity := [0; 10];
  mdr := [0; 2];
  paa := [0; 1]
|}.

(** Two exposures of value 0, both assigned. *)
Definition zero_exposures : Exposures := {|
  value := [0; 0];
  deductible := [0; 0];
  cover := [0; 0];
  impact_id := [1%Z; 1%Z];
  assigned := [("TC"%string, [0%Z; 0%Z])];
  value_unit := "USD"
|}.

(** A result whose most damaging event has frequency 0. *)
Definition zero_freq_impact : Impact := {|
  imp_event_id := [1%Z; 2%Z];
  eai_exp := [5];
  at_event := [50; 100];
  imp_frequency := [1 # 10; 0];
  tot_value := 100;
  aai_agg := 5;
  unit := "USD"
|}.

(** A fraction matrix with negative entries, and an exposure with a
    negative cover. *)
Definition neg_fraction : matrix := {| ncols := 1; rows := [[-(1)]; [-(1)]] |}.

Definition neg_cover_exposures : Exposures := {|
  value := [100];
  deductible := [0];
  cover := [-(10)];
  impact_id := [1%Z];
  assigned := [("TC"%string, [0%Z])];
  value_unit := "USD"
|}.

(** Two exposures on a hazard with two centroids; no event reaches the
    second centroid. *)
Definition two_exposures : Exposures := {|
  value := [100; 70];
  deductible := [0; 0];
  cover := [100; 70];
  impact_id := [1%Z; 1%Z];
  assigned := [("TC"%string, [0%Z; 1%Z])];
  value_unit := "USD"
|}.

Definition two_centroid_hazard : Hazard := {|
  haz_type := "TC";
  event_id := [1%Z; 2%Z];
  frequency := [1 # 10; 1 # 100];
  intensity := {| ncols := 2; rows := [[5; 0]; [10; 0]] |};
  fraction := {| ncols := 2; rows := [[1; 1]; [1; 1]] |}
|}.

(** The exposure of the example with an [impact_id] that no impact
    function has. *)
Definition unmatched_exposures : Exposures := {|
  value := [100];
  deductible := [0];
  cover := [100];
  impact_id := [2%Z];
  assigned := [("TC"%string, [0%Z])];
  value_unit := "USD"
|}.

(* ------------------------------------------------------------------ *)
(** ** [Impact.plot_eai_exposure] *)

(** [a[mask]] for a boolean array: the entries where the mask holds;
    [IndexError] when the mask has another length than the array. *)
Fixpoint compress {A : Type} (mask : list bool) (a : list A) : list A :=
  match mask, a with
  | b :: mask', x :: a' => if b then x :: compress mask' a' else compress mask' a'
  | _, _ => []
  end.

Definition mask_index {A : Type} (a : list A) (mask : list bool)
  : result (list A) :=
  if Nat.eqb (length mask) (length a) then Ok (compress mask a)
  else Raise IndexError.

Section Plot.

(** The values of keyword arguments, of which the function knows one:
    [np.sum]. *)
Variable kwarg : Type.
Variable np_sum : kwarg.

(** The call [plot.geo_bin_from_array(array_sub, geo_coord, var_name, title,
    **kwargs)] that ends the function; the plot module draws it. *)
Record geo_bin_call : Type := {
  array_sub : list Q;
  geo_coord : list (Q * Q);
  var_name : string;
  title : string;
  call_kwargs : list (string * kwarg)
}.

(** [if key not in kwargs: kwargs[key] = v]; a new key goes last. *)
Definition dict_setdefault (kwargs : list (string * kwarg)) (key : string)
    (v : kwarg) : list (string * kwarg) :=
  if dict_mem kwargs key then kwargs else kwargs ++ [(key, v)].

(** Lines 202-211.  [coord_exp] is the field [self.coord_exp], the
    coordinates of the exposures, one (lat, lon) row per exposure. *)
Definition plot_eai_exposure (self : Impact) (coord_exp : list (Q * Q))
    (ignore_null : bool) (kwargs : list (string * kwarg))
  : result geo_bin_call :=
  let title := "Expected annual impact"%string in
  let col_name := ("Impact " ++ unit self)%string in
  let pos_vals :=
    if ignore_null then map (Qlt_bool 0) (eai_exp self)
    else repeat true (length (eai_exp self)) in
  let kwargs := dict_setdefault kwargs "reduce_C_function" np_sum in
  vals <- mask_index (eai_exp self) pos_vals ;;
  coords <- mask_index coord_exp pos_vals ;;
  Ok {| array_sub := vals;
        geo_coord := coords;
        var_name := col_name;
        title := title;
        call_kwargs := kwargs |}.

End Plot.

(* ------------------------------------------------------------------ *)
(** ** More notions used by the statements *)

(** [sum(impact * hazard.frequency[event_row])] of line 186, for a result
    [(event_row, impact)] of [_one_exposure]. *)
Definition annual_impact (hazard : Hazard) (r : list nat * list Q) : Q :=
  np.sum (np.zip_with Qmult (snd r)
            (map (fun k => nth k (frequency hazard) 0) (fst r))).

(** The result object with another [aai_agg]. *)
Definition set_aai (s : Impact) (a : Q) : Impact := {|
  imp_event_id := imp_event_id s;
  eai_exp := eai_exp s;
  at_event := at_event s;
  imp_frequency := imp_frequency s;
  tot_value := tot_value s;
  aai_agg := a;
  unit := unit s
|}.

(** Strictly increasing. *)
Definition increasing (l : list nat) : Prop := StronglySorted lt l.

(* ------------------------------------------------------------------ *)
(** ** More concrete inputs *)

(** The exposure of the example, assigned for another hazard type only. *)
Definition flood_exposures : Exposures := {|
  value := [100];
  deductible := [0];
  cover := [100];
  impact_id := [1%Z];
  assigned := [("FL"%string, [0%Z])];
  value_unit := "USD"
|}.

(** The exposure of the example, assigned to a centroid that the hazard
    does not have. *)
Definition far_exposures : Exposures := {|
  value := [100];
  deductible := [0];
  cover := [100];
  impact_id := [1%Z];
  assigned := [("TC"%string, [5%Z])];
  value_unit := "USD"
|}.

(** A result with two events and one frequency. *)
Definition short_freq_impact : Impact := {|
  imp_event_id := [1%Z; 2%Z];
  eai_exp := [5];
  at_event := [50; 100];
  imp_frequency := [1 # 10];
  tot_value := 100;
  aai_agg := 5;
  unit := "USD"
|}.

(** A result with three exposures, one without impact. *)
Definition three_exp_impact : Impact := {|
  imp_event_id := [1%Z; 2%Z];
  eai_exp := [6; 0; 3];
  at_event := [50; 100];
  imp_frequency := [1 # 10; 1 # 100];
  tot_value := 300;
  aai_agg := 9;
  unit := "USD"
|}.

Definition three_coords : list (Q * Q) := [(1, 2); (3, 4); (5, 6)].

(** The hazard of the example with a third event that reaches no
    centroid. *)
Definition calm_event_hazard : Hazard := {|
  haz_type := "TC";
  event_id := [1%Z; 2%Z; 3%Z];
  frequency := [1 # 10; 1 # 100; 1 # 2];
  intensity := {| ncols := 1; rows := [[5]; [10]; [0]] |};
  fraction := {| ncols := 1; rows := [[1]; [1]; [1]] |}
|}.

(** An assignment that puts every exposure on centroid 0. *)
Definition assign_centroid_0 (exposures : Exposures) (hazard : Hazard)
  : Exposures := {|
  value := value exposures;
  deductible := deductible exposures;
  cover := cover exposures;
  impact_id := impact_id exposures;
  assigned := (haz_type hazard, map (fun _ => 0%Z) (value exposures))
              :: assigned exposures;
  value_unit := value_unit exposures
|}.

(** The fraction matrix of [calm_event_hazard] with another entry for the
    event without intensity. *)
Definition other_fraction : matrix := {| ncols := 1; rows := [[1]; [1]; [1 # 2]] |}.

(** A hazard with one centroid and no event. *)
Definition no_event_hazard : Hazard := {|
  haz_type := "TC";
  event_id := [];
  frequency := [];
  intensity := {| ncols := 1; rows := [] |};
  fraction := {| ncols := 1; rows := [] |}
|}.

(** An impact function with one [paa] value for two breakpoints. *)
Definition short_paa_imp_fun : ImpactFunc := {|
  id := 1;
  fun_intensity := [0; 10];
  mdr := [0; 1];
  paa := [1]
|}.

(** Two assigned exposures, the second of value 0. *)
Definition mixed_exposures : Exposures := {|
  value := [100; 0];
  deductible := [0; 0];
  cover := [100; 0];
  impact_id := [1%Z; 1%Z];
  assigned := [("TC"%string, [0%Z; 0%Z])];
  value_unit := "USD"
|}.

(* ------------------------------------------------------------------ *)
(** ** Exceptions: inversion *)

Lemma bind_Ok [A B : Type] [r : result A] [k : A -> result B] [b : B] :
  bind r k = Ok b -> exists a, r = Ok a /\ k a = Ok b.
Proof.
  destruct r as [a|e]; simpl; intros H.
  - exists a; split; [reflexivity | exact H].
  - discriminate H.
Qed.

Ltac monad_inv :=
  repeat match goal with
  | H : bind ?r _ = Ok _ |- _ =>
      let x := fresh "x" in
      let E := fresh "E" in
      destruct (bind_Ok H) as (x & E & ?); clear H
  | H : Ok _ = Ok _ |- _ => inversion H; subst; clear H
  | H : Raise _ = Ok _ |- _ => discriminate H
  end.

(* ------------------------------------------------------------------ *)
(** ** Booleans on [Q] *)

Lemma Qlt_bool_iff (x y : Q) : Qlt_bool x y = true <-> x < y.
Proof.
  unfold Qlt_bool. rewrite negb_true_iff.
  destruct (Qle_bool y x) eqn:E.
  - apply Qle_bool_iff in E. split; [discriminate | intros H; exfalso; lra].
  - split; [intros _ | reflexivity].
    destruct (Qlt_le_dec x y) as [H|H]; [exact H|].
    apply Qle_bool_iff in H. congruence.
Qed.

Lemma Qlt_bool_false (x y : Q) : Qlt_bool x y = false <-> y <= x.
Proof.
  unfold Qlt_bool. rewrite negb_false_iff. apply Qle_bool_iff.
Qed.

Lemma Qnonzero_iff (x : Q) : Qnonzero x = true <-> ~ x == 0.
Proof.
  unfold Qnonzero. rewrite negb_true_iff.
  destruct (Qeq_bool x 0) eqn:E.
  - apply Qeq_bool_iff in E. split; [discriminate | intros H; contradiction].
  - split; [intros _ H | reflexivity].
    apply Qeq_bool_iff in H. congruence.
Qed.

Lemma Qnonzero_false (x : Q) : Qnonzero x = false <-> x == 0.
Proof.
  unfold Qnonzero. rewrite negb_false_iff. apply Qeq_bool_iff.
Qed.

(* ------------------------------------------------------------------ *)
(** ** Indexing *)

Lemma getitem_Ok [A : Type] (a : list A) (i : nat) [x : A] (d : A) :
  np.getitem a i = Ok x -> (i < length a)%nat /\ nth i a d = x.
Proof.
  unfold np.getitem. destruct (nth_error a i) as [y|] eqn:E; intros H; monad_inv.
  split.
  - apply nth_error_Some. congruence.
  - apply nth_error_nth with (d := d) in E. exact E.
Qed.

Lemma getitem_nth_error [A : Type] (a : list A) (i : nat) (x : A) :
  np.getitem a i = Ok x <-> nth_error a i = Some x.
Proof.
  unfold np.getitem. destruct (nth_error a i); split; intros H;
    try discriminate; congruence.
Qed.

Lemma getitem_lt [A : Type] [a : list A] [i : nat] (d : A) :
  (i < length a)%nat -> np.getitem a i = Ok (nth i a d).
Proof.
  intros H. apply getitem_nth_error. apply nth_error_nth'. exact H.
Qed.

Lemma take_Ok [A : Type] (a : list A) (d : A) (idx : list nat) [l : list A] :
  np.take a idx = Ok l ->
  l = map (fun i => nth i a d) idx /\ Forall (fun i => (i < length a)%nat) idx.
Proof.
  unfold np.take. revert l.
  induction idx as [|i idx IH]; simpl; intros l H; monad_inv.
  - split; [reflexivity | constructor].
  - destruct (IH _ E0) as [-> Hall].
    destruct (getitem_Ok _ _ d E) as [Hi <-].
    split; [reflexivity | constructor; assumption].
Qed.

Lemma take_lt [A : Type] (a : list A) (d : A) (idx : list nat) :
  Forall (fun i => (i < length a)%nat) idx ->
  np.take a idx = Ok (map (fun i => nth i a d) idx).
Proof.
  unfold np.take. induction 1 as [|i idx Hi _ IH]; simpl.
  - reflexivity.
  - rewrite (getitem_lt d Hi). simpl. rewrite IH. reflexivity.
Qed.

Lemma take_length [A : Type] (a : list A) (idx : list nat) (l : list A) :
  np.take a idx = Ok l -> length l = length idx.
Proof.
  unfold np.take. revert l.
  induction idx as [|i idx IH]; simpl; intros l H; monad_inv.
  - reflexivity.
  - simpl. f_equal. apply IH. assumption.
Qed.

Lemma setitem_Ok [A : Type] (a : list A) (i : nat) (v : A) (a' : list A) :
  np.setitem a i v = Ok a' ->
  (i < length a)%nat /\ length a' = length a /\
  forall j d, nth j a' d = if Nat.eqb j i then v else nth j a d.
Proof.
  revert i a'. induction a as [|x a IH]; intros [|i] a' H; simpl in H; monad_inv.
  - simpl. repeat split; [lia|]. intros [|j] d; reflexivity.
  - destruct (IH _ _ E) as (Hi & Hlen & Hnth).
    simpl. repeat split; [lia | lia |].
    intros [|j] d; simpl; [reflexivity | apply Hnth].
Qed.

Lemma setitem_lt [A : Type] (a : list A) (i : nat) (v : A) :
  (i < length a)%nat -> exists a', np.setitem a i v = Ok a'.
Proof.
  revert i. induction a as [|x a IH]; intros [|i] H; simpl in *; try lia.
  - eexists; reflexivity.
  - destruct (IH i) as [a' E]; [lia|]. rewrite E. simpl. eexists; reflexivity.
Qed.

Lemma zip_with_length [A B C : Type] (f : A -> B -> C) (a : list A) (b : list B) :
  length a = length b -> length (np.zip_with f a b) = length a.
Proof.
  revert b. induction a as [|x a IH]; intros [|y b] H; simpl in *;
    try reflexivity; try discriminate.
  f_equal. apply IH. lia.
Qed.

Lemma broadcast2_same [A B C : Type] (f : A -> B -> C) (a : list A) (b : list B) :
  length a = length b -> np.broadcast2 f a b = Ok (np.zip_with f a b).
Proof.
  intros H. unfold np.broadcast2. rewrite H, Nat.eqb_refl. reflexivity.
Qed.

(* ------------------------------------------------------------------ *)
(** ** Sums *)

Lemma fold_left_Qplus_acc (a : list Q) (acc : Q) :
  fold_left Qplus a acc == acc + fold_left Qplus a 0.
Proof.
  revert acc. induction a as [|x a IH]; intros acc; simpl.
  - lra.
  - rewrite (IH (acc + x)), (IH (0 + x)). lra.
Qed.

Lemma sum_nil : np.sum [] == 0.
Proof. reflexivity. Qed.

Lemma sum_cons (x : Q) (a : list Q) : np.sum (x :: a) == x + np.sum a.
Proof.
  unfold np.sum. simpl. rewrite fold_left_Qplus_acc. lra.
Qed.

Lemma sum_nonneg (a : list Q) : Forall (fun x => 0 <= x) a -> 0 <= np.sum a.
Proof.
  induction 1 as [|x a Hx _ IH].
  - rewrite sum_nil. lra.
  - rewrite sum_cons. lra.
Qed.

Lemma sum_zeros (n : nat) : np.sum (np.zeros n) == 0.
Proof.
  induction n as [|n IH].
  - reflexivity.
  - change (np.sum (0 :: np.zeros n) == 0). rewrite sum_cons, IH. lra.
Qed.

Lemma sum_Qlist_eq [a b : list Q] : Qlist_eq a b -> np.sum a == np.sum b.
Proof.
  induction 1 as [|x y a b Hxy _ IH].
  - reflexivity.
  - rewrite !sum_cons, Hxy, IH. reflexivity.
Qed.

Lemma dot_cons (x y : Q) (a f : list Q) :
  dot (x :: a) (y :: f) == x * y + dot a f.
Proof. unfold dot. simpl. apply sum_cons. Qed.

Lemma dot_zeros (n : nat) (f : list Q) : dot (np.zeros n) f == 0.
Proof.
  revert f. induction n as [|n IH]; intros [|y f]; try reflexivity.
  change (dot (0 :: np.zeros n) (y :: f) == 0).
  rewrite dot_cons, IH. lra.
Qed.

(* ------------------------------------------------------------------ *)
(** ** [np.where] *)

Lemma where_from_In (k : nat) (mask : list bool) (i : nat) :
  In i (np.where_from k mask) <->
  (k <= i)%nat /\ nth_error mask (i - k) = Some true.
Proof.
  revert k. induction mask as [|b mask IH]; intros k; simpl.
  - split; [contradiction|]. intros [_ H]. destruct (i - k)%nat; discriminate.
  - assert (Hstep : In i (np.where_from (S k) mask) <->
                    (k < i)%nat /\ nth_error (b :: mask) (i - k) = Some true).
    { rewrite IH. split; intros [H1 H2]; (split; [lia|]).
      - replace (i - k)%nat with (S (i - S k)) by lia. exact H2.
      - replace (i - k)%nat with (S (i - S k)) in H2 by lia. exact H2. }
    destruct b; simpl; rewrite Hstep.
    + split.
      * intros [<- | [H1 H2]]; [|split; [lia | exact H2]].
        split; [lia|]. rewrite Nat.sub_diag. reflexivity.
      * intros [H1 H2]. destruct (Nat.eq_dec k i) as [->|Hne]; [left; reflexivity|].
        right. split; [lia | exact H2].
    + split.
      * intros [H1 H2]. split; [lia | exact H2].
      * intros [H1 H2]. split; [|exact H2].
        destruct (Nat.eq_dec k i) as [->|Hne]; [|lia].
        rewrite Nat.sub_diag in H2. discriminate.
Qed.

Lemma where_from_sorted (k : nat) (mask : list bool) :
  StronglySorted lt (np.where_from k mask).
Proof.
  revert k. induction mask as [|b mask IH]; intros k; simpl.
  - constructor.
  - destruct b; [|apply IH].
    constructor; [apply IH|].
    apply Forall_forall. intros i Hi. apply where_from_In in Hi. lia.
Qed.

Lemma StronglySorted_lt_NoDup (l : list nat) : StronglySorted lt l -> NoDup l.
Proof.
  induction 1 as [|i l _ IH Hall]; constructor; [|exact IH].
  intros Hin. rewrite Forall_forall in Hall. specialize (Hall _ Hin). lia.
Qed.

Lemma where_In [A : Type] (P : A -> bool) (l : list A) (d : A) (i : nat) :
  In i (np.where_ (map P l)) <-> (i < length l)%nat /\ P (nth i l d) = true.
Proof.
  unfold np.where_. rewrite where_from_In, Nat.sub_0_r, nth_error_map.
  split.
  - intros [_ H]. destruct (nth_error l i) as [x|] eqn:E; [|discriminate].
    simpl in H. split.
    + apply nth_error_Some. congruence.
    + apply nth_error_nth with (d := d) in E. rewrite E. congruence.
  - intros [Hi HP]. split; [lia|].
    rewrite (nth_error_nth' l d Hi). simpl. congruence.
Qed.

Lemma where_lt (mask : list bool) :
  Forall (fun i => (i < length mask)%nat) (np.where_ mask).
Proof.
  apply Forall_forall. intros i Hi. apply where_from_In in Hi.
  destruct Hi as [_ Hi]. rewrite Nat.sub_0_r in Hi.
  apply nth_error_Some. congruence.
Qed.

Lemma where_NoDup (mask : list bool) : NoDup (np.where_ mask).
Proof. apply StronglySorted_lt_NoDup, where_from_sorted. Qed.

Lemma where_filter_seq (mask : list bool) (k : nat) :
  np.where_from k mask =
  filter (fun i => nth (i - k) mask false) (seq k (length mask)).
Proof.
  revert k. induction mask as [|b mask IH]; intros k; simpl.
  - reflexivity.
  - rewrite Nat.sub_diag. rewrite IH.
    assert (E : filter (fun i => nth (i - S k) mask false) (seq (S k) (length mask)) =
                filter (fun i => match (i - k)%nat with
                                 | O => b
                                 | S m => nth m mask false
                                 end) (seq (S k) (length mask))).
    { apply filter_ext_in. intros i Hi. apply in_seq in Hi.
      replace (i - k)%nat with (S (i - S k)) by lia. reflexivity. }
    rewrite E. destruct b; reflexivity.
Qed.

(* ------------------------------------------------------------------ *)
(** ** Interpolation *)

Lemma interp_segment_bounds (lo hi x x0 x1 f0 f1 : Q) :
  x0 <= x -> x < x1 -> lo <= f0 <= hi -> lo <= f1 <= hi ->
  lo <= (f1 - f0) / (x1 - x0) * (x - x0) + f0 <= hi.
Proof.
  intros H0 H1 Hf0 Hf1.
  set (s := (f1 - f0) / (x1 - x0)).
  assert (Hs : s * (x1 - x0) == f1 - f0).
  { unfold s. field. lra. }
  destruct (Qlt_le_dec s 0) as [Hneg|Hpos]; split; nra.
Qed.

Lemma interp_seg_bounds (lo hi x : Q) (rest : list (Q * Q)) :
  forall x0 f0,
    x0 <= x -> lo <= f0 <= hi ->
    Forall (fun p => lo <= snd p <= hi) rest ->
    lo <= np.interp_seg x x0 f0 rest <= hi.
Proof.
  induction rest as [|[x1 f1] rest IH]; intros x0 f0 H0 Hf0 Hall; simpl.
  - exact Hf0.
  - inversion Hall as [|p l Hf1 Hrest]; subst. simpl in Hf1.
    destruct (Qlt_bool x x1) eqn:E.
    + apply Qlt_bool_iff in E. apply interp_segment_bounds; assumption.
    + apply Qlt_bool_false in E. apply IH; assumption.
Qed.

Lemma interp1_bounds (lo hi x : Q) (pts : list (Q * Q)) :
  lo <= 0 <= hi ->
  Forall (fun p => lo <= snd p <= hi) pts ->
  lo <= np.interp1 pts x <= hi.
Proof.
  intros H0 Hall. destruct pts as [|[x0 f0] rest]; simpl.
  - exact H0.
  - inversion Hall as [|p l Hf0 Hrest]; subst. simpl in Hf0.
    destruct (Qlt_bool x x0) eqn:E; [exact Hf0|].
    apply Qlt_bool_false in E. apply interp_seg_bounds; assumption.
Qed.

Lemma Forall_snd_combine [A B : Type] (P : B -> Prop) (a : list A) (b : list B) :
  Forall P b -> Forall (fun p => P (snd p)) (combine a b).
Proof.
  intros H. revert a. induction H as [|y b Hy _ IH]; intros [|x a]; simpl;
    constructor; [exact Hy | apply IH].
Qed.

Lemma interp_Ok (x xp fp l : list Q) :
  np.interp x xp fp = Ok l -> l = map (np.interp1 (combine xp fp)) x.
Proof.
  unfold np.interp. destruct xp; [discriminate|].
  destruct (Nat.eqb _ _); intros H; monad_inv. reflexivity.
Qed.

Lemma interp_wf (x xp fp : list Q) :
  xp <> [] -> length fp = length xp ->
  np.interp x xp fp = Ok (map (np.interp1 (combine xp fp)) x).
Proof.
  intros Hne Hlen. unfold np.interp. destruct xp; [congruence|].
  rewrite Hlen, Nat.eqb_refl. reflexivity.
Qed.

(* ------------------------------------------------------------------ *)
(** ** Columns of a matrix *)

Lemma column_Ok (m : matrix) (icen : Z) [c : list Q] :
  column m icen = Ok c ->
  exists j, col_index m icen = Ok j /\ length c = nrows m /\
            forall i, nth i c 0 = cell m i j.
Proof.
  unfold column. intros H. monad_inv. exists x. split; [assumption|].
  split; [apply length_map|].
  intros i. unfold cell.
  destruct (Nat.lt_ge_cases i (length (rows m))) as [Hi|Hi].
  - rewrite nth_indep with (d' := (fun r => nth x r 0) []).
    + exact (map_nth (fun r => nth x r 0) (rows m) [] i).
    + rewrite length_map. exact Hi.
  - rewrite (nth_overflow (map (fun r => nth x r 0) (rows m)))
      by (rewrite length_map; exact Hi).
    rewrite (nth_overflow (rows m)) by exact Hi.
    destruct x; reflexivity.
Qed.

Lemma col_index_nonneg (m : matrix) (icen : Z) (j : nat) :
  (0 <= icen)%Z -> col_index m icen = Ok j -> j = Z.to_nat icen.
Proof.
  intros Hpos. unfold col_index.
  destruct ((0 <=? icen)%Z && (icen <? Z.of_nat (ncols m))%Z) eqn:E1.
  - intros H; monad_inv. reflexivity.
  - destruct ((- Z.of_nat (ncols m) <=? icen)%Z && (icen <? 0)%Z) eqn:E2;
      [|discriminate].
    apply andb_true_iff in E2. destruct E2 as [_ E2].
    apply Z.ltb_lt in E2. lia.
Qed.

Lemma zip_with_map [A B C D : Type] (f : B -> C -> D) (g : A -> B) (h : A -> C)
    (l : list A) :
  np.zip_with f (map g l) (map h l) = map (fun x => f (g x) (h x)) l.
Proof.
  induction l as [|x l IH]; simpl; [reflexivity | f_equal; exact IH].
Qed.

(* ------------------------------------------------------------------ *)
(** ** [_one_exposure]: what it computes *)

Lemma nonzero_column (m : matrix) (icen : Z) (j : nat) (c : list Q) :
  column m icen = Ok c -> col_index m icen = Ok j ->
  np.nonzero c = filter (fun i => Qnonzero (cell m i j)) (seq 0 (nrows m)).
Proof.
  intros Hc Hj. destruct (column_Ok _ _ Hc) as (j' & Hj' & Hlen & Hcell).
  assert (j' = j) by congruence. subst j'.
  unfold np.nonzero, np.where_. rewrite where_filter_seq, length_map, Hlen.
  apply filter_ext_in. intros i Hi. rewrite Nat.sub_0_r, <- Hcell.
  exact (map_nth Qnonzero c 0 i).
Qed.

Lemma raw_impact_inv (iexp : nat) (e : Exposures) (h : Hazard) (f : ImpactFunc)
    [er : list nat] [iv raw : list Q] :
  raw_impact iexp e h f = Ok (er, iv, raw) ->
  exists cens icen j j' v,
    dict_get (assigned e) (haz_type h) = Ok cens /\
    nth_error cens iexp = Some icen /\
    col_index (intensity h) icen = Ok j /\
    col_index (fraction h) icen = Ok j' /\
    nth_error (value e) iexp = Some v /\
    er = relevant_events h j /\
    iv = map (fun i => cell (intensity h) i j) er /\
    raw = map (fun i => v * mdr_at f (cell (intensity h) i j)
                        * cell (fraction h) i j') er.
Proof.
  unfold raw_impact. intros H. monad_inv.
  rename x into cens, x0 into icen, x1 into icol, x3 into fcol,
    x4 into fract, x5 into v, x6 into m.
  destruct (column_Ok _ _ E1) as (j & Hj & Hlen & Hcell).
  destruct (column_Ok _ _ E3) as (j' & Hj' & Hlen' & Hcell').
  exists cens, icen, j, j', v.
  apply getitem_nth_error in E0, E5.
  destruct (take_Ok _ 0 _ E2) as [Hiv _].
  destruct (take_Ok _ 0 _ E4) as [Hfr _].
  assert (Her : np.nonzero icol = relevant_events h j)
    by (apply nonzero_column with (icen := icen); assumption).
  assert (Hiv' : iv = map (fun i => cell (intensity h) i j) (np.nonzero icol)).
  { rewrite Hiv. apply map_ext. exact Hcell. }
  repeat (split; [first [assumption | reflexivity]|]).
  rewrite broadcast2_same in E7.
  - injection E7 as <-. unfold calc_mdr in E6. apply interp_Ok in E6.
    rewrite E6, Hiv', Hfr, !map_map, zip_with_map.
    apply map_ext. intros i. rewrite Hcell'. reflexivity.
  - unfold calc_mdr in E6. apply interp_Ok in E6.
    rewrite E6, Hiv, Hfr, !length_map. reflexivity.
Qed.

Lemma clip_Ok (raw paa : list Q) (ded cov : Q) (imp : list Q) :
  length paa = length raw ->
  clip raw paa ded cov = Ok imp ->
  imp = np.zip_with (clip_at ded cov) raw paa.
Proof.
  intros Hlen. unfold clip.
  rewrite broadcast2_same by (rewrite length_map; congruence).
  simpl. intros H. injection H as <-. clear Hlen.
  revert paa. induction raw as [|x raw IH]; intros [|p paa]; simpl;
    try reflexivity.
  f_equal. apply IH.
Qed.

(** The three ways through lines 239-247. *)
Lemma one_exposure_inv (iexp : nat) (e : Exposures) (h : Hazard) (f : ImpactFunc)
    [er : list nat] [imp : list Q] :
  _one_exposure iexp e h f = Ok (er, imp) ->
  exists iv raw,
    raw_impact iexp e h f = Ok (er, iv, raw) /\
    ((np.count_nonzero raw = O /\ imp = raw) \/
     (exists ded cov v,
         nth_error (deductible e) iexp = Some ded /\
         nth_error (cover e) iexp = Some cov /\
         nth_error (value e) iexp = Some v /\
         ded <= 0 /\ v <= cov /\ imp = raw) \/
     (exists ded cov,
         nth_error (deductible e) iexp = Some ded /\
         nth_error (cover e) iexp = Some cov /\
         imp = np.zip_with (clip_at ded cov) raw (map (paa_at f) iv))).
Proof.
  unfold _one_exposure. intros H.
  destruct (bind_Ok H) as ([[er' iv] raw] & Hraw & Hrest). clear H.
  exists iv, raw.
  destruct (0 <? np.count_nonzero raw)%nat eqn:Hcount.
  - destruct (bind_Ok Hrest) as (pa & Hpaa & H1). clear Hrest.
    destruct (bind_Ok H1) as (ded & Hded & H2). clear H1.
    apply interp_Ok in Hpaa. apply getitem_nth_error in Hded.
    assert (Hlen : length pa = length raw).
    { destruct (raw_impact_inv _ _ _ _ Hraw)
        as (cens & icen & j & j' & v & _ & _ & _ & _ & _ & _ & Hiv & Hr).
      rewrite Hpaa, Hr, Hiv, !length_map. reflexivity. }
    destruct (Qlt_bool 0 ded) eqn:Hd.
    + destruct (bind_Ok H2) as (cov & Hcov & H3). clear H2.
      destruct (bind_Ok H3) as (imp' & Hclip & H4). clear H3.
      injection H4 as <- <-. apply getitem_nth_error in Hcov.
      split; [exact Hraw|]. right; right. exists ded, cov.
      rewrite (clip_Ok _ _ _ _ _ Hlen Hclip), Hpaa. auto.
    + destruct (bind_Ok H2) as (cov & Hcov & H3). clear H2.
      destruct (bind_Ok H3) as (v & Hv & H4). clear H3.
      apply getitem_nth_error in Hcov, Hv. apply Qlt_bool_false in Hd.
      destruct (Qlt_bool cov v) eqn:Hc.
      * destruct (bind_Ok H4) as (imp' & Hclip & H5). clear H4.
        injection H5 as <- <-.
        split; [exact Hraw|]. right; right. exists ded, cov.
        rewrite (clip_Ok _ _ _ _ _ Hlen Hclip), Hpaa. auto.
      * injection H4 as <- <-. apply Qlt_bool_false in Hc.
        split; [exact Hraw|]. right; left. exists ded, cov, v. auto 10.
  - injection Hrest as <- <-. apply Nat.ltb_ge in Hcount.
    split; [exact Hraw|]. left. split; [lia | reflexivity].
Qed.

Lemma relevant_events_lt (h : Hazard) (j : nat) :
  Forall (fun i => (i < nrows (intensity h))%nat) (relevant_events h j).
Proof.
  apply Forall_forall. intros i Hi. unfold relevant_events in Hi.
  apply filter_In in Hi. destruct Hi as [Hi _]. apply in_seq in Hi. lia.
Qed.

Lemma relevant_events_NoDup (h : Hazard) (j : nat) :
  NoDup (relevant_events h j).
Proof. apply NoDup_filter, seq_NoDup. Qed.

(** The shape of what [_one_exposure] returns. *)
Lemma one_exposure_shape (iexp : nat) (e : Exposures) (h : Hazard)
    (f : ImpactFunc) [er : list nat] [imp : list Q] :
  _one_exposure iexp e h f = Ok (er, imp) ->
  NoDup er /\ Forall (fun i => (i < nrows (intensity h))%nat) er /\
  length imp = length er.
Proof.
  intros H. destruct (one_exposure_inv _ _ _ _ H) as (iv & raw & Hraw & Hcase).
  destruct (raw_impact_inv _ _ _ _ Hraw)
    as (cens & icen & j & j' & v & _ & _ & _ & _ & _ & Her & Hiv & Hr).
  split; [rewrite Her; apply relevant_events_NoDup|].
  split; [rewrite Her; apply relevant_events_lt|].
  assert (Hlen : length raw = length er) by (rewrite Hr; apply length_map).
  destruct Hcase as [[_ ->] | [(ded & cov & v' & _ & _ & _ & _ & _ & ->) |
                               (ded & cov & _ & _ & ->)]]; try exact Hlen.
  rewrite zip_with_length; [exact Hlen|].
  rewrite Hlen, Hiv, !length_map. reflexivity.
Qed.

(* ------------------------------------------------------------------ *)
(** ** In-place updates *)

Lemma setitem_sum (a : list Q) (i : nat) (v : Q) (a' : list Q) :
  np.setitem a i v = Ok a' -> np.sum a' == np.sum a + (v - nth i a 0).
Proof.
  revert i a'. induction a as [|x a IH]; intros [|i] a' H; simpl in H; monad_inv.
  - rewrite !sum_cons. simpl. lra.
  - rewrite !sum_cons, (IH _ _ E). simpl. lra.
Qed.

Lemma setitem_dot (a f : list Q) (i : nat) (v : Q) (a' : list Q) :
  np.setitem a i v = Ok a' ->
  dot a' f == dot a f + (v - nth i a 0) * nth i f 0.
Proof.
  revert i a' f. induction a as [|x a IH]; intros [|i] a' f H; simpl in H;
    monad_inv.
  - destruct f as [|y f]; simpl.
    + unfold dot. simpl. lra.
    + rewrite !dot_cons. lra.
  - destruct f as [|y f]; simpl.
    + unfold dot. simpl. lra.
    + rewrite !dot_cons, (IH _ _ _ E). lra.
Qed.

Lemma setitem_Forall (P : Q -> Prop) (a : list Q) (i : nat) (v : Q) (a' : list Q) :
  np.setitem a i v = Ok a' -> Forall P a -> P v -> Forall P a'.
Proof.
  revert i a'. induction a as [|x a IH]; intros [|i] a' H Ha Hv; simpl in H;
    monad_inv; inversion Ha; subst; constructor; eauto.
Qed.

Lemma iadd_item_Ok (a : list Q) (i : nat) (v : Q) (a' : list Q) :
  np.iadd_item a i v = Ok a' ->
  length a' = length a /\ np.sum a' == np.sum a + v /\
  (forall j, nth j a' 0 = if Nat.eqb j i then nth i a 0 + v else nth j a 0).
Proof.
  unfold np.iadd_item. intros H. monad_inv.
  destruct (getitem_Ok _ _ 0 E) as [Hi <-].
  destruct (setitem_Ok _ _ _ _ H0) as (_ & Hlen & Hnth).
  split; [exact Hlen|]. split.
  - rewrite (setitem_sum _ _ _ _ H0). lra.
  - intros j. apply Hnth.
Qed.

Lemma put_length (a : list Q) (idx : list nat) (new a' : list Q) :
  np.put a idx new = Ok a' -> length a' = length a.
Proof.
  revert a new. induction idx as [|i idx IH]; intros a [|n new] H; simpl in H;
    monad_inv; try reflexivity.
  rewrite (IH _ _ H0). apply (setitem_Ok _ _ _ _ E).
Qed.

Lemma put_Forall (P : Q -> Prop) (a : list Q) (idx : list nat) (new a' : list Q) :
  np.put a idx new = Ok a' -> Forall P a -> Forall P new -> Forall P a'.
Proof.
  revert a new. induction idx as [|i idx IH]; intros a [|n new] H Ha Hnew;
    simpl in H; monad_inv; try assumption.
  inversion Hnew; subst.
  apply (IH _ _ H0); [|assumption].
  apply (setitem_Forall _ _ _ _ _ E); assumption.
Qed.

(** Assigning at distinct indices changes [dot a f] by the changes of the
    assigned entries. *)
Lemma put_dot (f : list Q) (idx : list nat) :
  forall (a new a' : list Q),
    np.put a idx new = Ok a' -> NoDup idx ->
    dot a' f ==
    dot a f + np.sum (np.zip_with (fun i n => (n - nth i a 0) * nth i f 0) idx new).
Proof.
  induction idx as [|i idx IH]; intros a [|n new] a' H Hnd; simpl in H;
    monad_inv.
  - simpl. rewrite sum_nil. lra.
  - inversion Hnd as [|? ? Hnotin Hnd']; subst.
    rewrite (IH _ _ _ H0 Hnd'), (setitem_dot _ f _ _ _ E).
    simpl. rewrite sum_cons.
    destruct (setitem_Ok _ _ _ _ E) as (_ & _ & Hnth).
    assert (Heq : Qlist_eq
              (np.zip_with (fun i0 n0 => (n0 - nth i0 x 0) * nth i0 f 0) idx new)
              (np.zip_with (fun i0 n0 => (n0 - nth i0 a 0) * nth i0 f 0) idx new)).
    { clear - Hnotin Hnth. revert new.
      induction idx as [|k idx IHk]; intros [|m new]; simpl; try constructor.
      - rewrite Hnth. destruct (Nat.eqb_spec k i) as [->|Hne].
        + exfalso. apply Hnotin. left. reflexivity.
        + reflexivity.
      - apply IHk. intros Hin. apply Hnotin. right. exact Hin. }
    rewrite (sum_Qlist_eq Heq). lra.
Qed.

Lemma iadd_at_length (a : list Q) (idx : list nat) (v a' : list Q) :
  np.iadd_at a idx v = Ok a' -> length a' = length a.
Proof.
  unfold np.iadd_at. intros H. monad_inv.
  match goal with Hp : np.put _ _ _ = Ok _ |- _ => apply (put_length _ _ _ _ Hp) end.
Qed.

Lemma zip_with_Forall (P : Q -> Prop) (f : Q -> Q -> Q) (a b : list Q) :
  (forall x y, P x -> P y -> P (f x y)) ->
  Forall P a -> Forall P b -> Forall P (np.zip_with f a b).
Proof.
  intros Hf Ha. revert b. induction Ha as [|x a Hx _ IH]; intros b Hb; simpl.
  - constructor.
  - destruct Hb as [|y b Hy Hb]; constructor; [apply Hf; assumption | apply IH, Hb].
Qed.

Lemma broadcast2_Forall (P : Q -> Prop) (f : Q -> Q -> Q) (a b c : list Q) :
  (forall x y, P x -> P y -> P (f x y)) ->
  np.broadcast2 f a b = Ok c -> Forall P a -> Forall P b -> Forall P c.
Proof.
  intros Hf H Ha Hb. unfold np.broadcast2 in H.
  assert (Hl : forall x, P x -> Forall P (map (f x) b)).
  { intros x Hx. apply Forall_map. revert Hb. apply Forall_impl. auto. }
  assert (Hr : forall y, P y -> Forall P (map (fun x => f x y) a)).
  { intros y Hy. apply Forall_map. revert Ha. apply Forall_impl. auto. }
  destruct (Nat.eqb (length a) (length b)).
  - injection H as <-. apply zip_with_Forall; assumption.
  - destruct a as [|x [|x' a]].
    + destruct b as [|y [|y' b]]; try discriminate H.
      injection H as <-. constructor.
    + injection H as <-. apply Hl. inversion Ha; assumption.
    + destruct b as [|y [|y' b]]; try discriminate H.
      injection H as <-. apply Hr. inversion Hb; assumption.
Qed.

Lemma take_Forall (P : Q -> Prop) (a : list Q) (idx : list nat) (l : list Q) :
  np.take a idx = Ok l -> Forall P a -> Forall P l.
Proof.
  intros H Ha. destruct (take_Ok a 0 idx H) as [-> Hidx].
  rewrite Forall_forall in *. intros x Hx.
  apply in_map_iff in Hx. destruct Hx as (i & <- & Hi).
  apply Ha, nth_In, Hidx, Hi.
Qed.

Lemma iadd_at_nonneg (a : list Q) (idx : list nat) (v a' : list Q) :
  np.iadd_at a idx v = Ok a' ->
  Forall (fun x => 0 <= x) a -> Forall (fun x => 0 <= x) v ->
  Forall (fun x => 0 <= x) a'.
Proof.
  unfold np.iadd_at. intros H Ha Hv.
  destruct (bind_Ok H) as (old & Hold & H1). clear H.
  destruct (bind_Ok H1) as (new & Hnew & Hput). clear H1.
  apply (put_Forall _ _ _ _ _ Hput Ha).
  apply (broadcast2_Forall (fun x => 0 <= x) Qplus old v); try assumption.
  - intros; lra.
  - apply (take_Forall _ _ _ _ Hold Ha).
Qed.

(** [a[idx] += v] at distinct indices adds [v[k] * f[idx[k]]] to [dot a f]. *)
Lemma iadd_at_dot (f a : list Q) (idx : list nat) (v a' : list Q) :
  np.iadd_at a idx v = Ok a' -> NoDup idx -> length v = length idx ->
  dot a' f == dot a f + np.sum (np.zip_with Qmult v (map (fun i => nth i f 0) idx)).
Proof.
  unfold np.iadd_at. intros H Hnd Hlen.
  destruct (bind_Ok H) as (old & Hold & H1). clear H.
  destruct (bind_Ok H1) as (new & Hnew & Hput). clear H1.
  destruct (take_Ok a 0 idx Hold) as [-> _].
  rewrite broadcast2_same in Hnew by (rewrite length_map; congruence).
  injection Hnew as <-. rewrite (put_dot f _ _ _ _ Hput Hnd).
  apply Qplus_inj_l. apply sum_Qlist_eq. clear - Hlen.
  revert v Hlen. induction idx as [|i idx IH]; intros [|y v] Hlen; simpl in *;
    try discriminate; constructor.
  - ring.
  - apply IH. lia.
Qed.

(* ------------------------------------------------------------------ *)
(** ** The loops of [calc] *)

Lemma for_each_ind [A S : Type] (body : S -> A -> result S) (P : S -> Prop)
    (l : list A) :
  (forall s x s', In x l -> P s -> body s x = Ok s' -> P s') ->
  forall st st', P st -> for_each body l st = Ok st' -> P st'.
Proof.
  induction l as [|x l IH]; intros Hstep st st' Hst H; simpl in H.
  - injection H as <-. exact Hst.
  - destruct (bind_Ok H) as (s1 & Hs1 & Hrest).
    apply (IH (fun s y s' Hy => Hstep s y s' (or_intror Hy)) s1 st');
      [|exact Hrest].
    apply (Hstep st x s1); [left; reflexivity | exact Hst | exact Hs1].
Qed.

Lemma take_where_from [A : Type] (P : A -> bool) (l pre : list A) :
  np.take (pre ++ l) (np.where_from (length pre) (map P l)) = Ok (filter P l).
Proof.
  revert pre. induction l as [|x l IH]; intros pre; simpl.
  - reflexivity.
  - specialize (IH (pre ++ [x])).
    rewrite <- app_assoc, length_app, Nat.add_1_r in IH. simpl in IH.
    destruct (P x); [|exact IH].
    unfold np.take in *. simpl. unfold np.getitem at 1.
    rewrite nth_error_app2, Nat.sub_diag by lia. simpl.
    rewrite IH. reflexivity.
Qed.

Lemma take_where [A : Type] (P : A -> bool) (l : list A) :
  np.take l (np.where_ (map P l)) = Ok (filter P l).
Proof. exact (take_where_from P l []). Qed.

Lemma add_group_inv (e : Exposures) (h : Hazard) (exp_idx : list nat)
    (st : Impact) (f : ImpactFunc) (st' : Impact) :
  add_group e h exp_idx st f = Ok st' ->
  Forall (fun i => (i < length (impact_id e))%nat) exp_idx /\
  for_each (add_exposure e h f) (group_of e exp_idx f) st = Ok st'.
Proof.
  unfold add_group. intros H.
  destruct (bind_Ok H) as (ids & Hids & H1). clear H.
  destruct (bind_Ok H1) as (sel & Hsel & Hloop). clear H1.
  destruct (take_Ok _ 0%Z _ Hids) as [-> Hlt]. split; [exact Hlt|].
  rewrite map_map in Hsel.
  pose proof (take_where
    (fun i => Z.eqb (nth i (impact_id e) 0%Z) (id f)) exp_idx) as Hw.
  rewrite Hw in Hsel. injection Hsel as <-. exact Hloop.
Qed.

Lemma group_of_In (e : Exposures) (exp_idx : list nat) (f : ImpactFunc) (i : nat) :
  Forall (fun i => (i < length (impact_id e))%nat) exp_idx ->
  In i (group_of e exp_idx f) ->
  In i exp_idx /\ nth_error (impact_id e) i = Some (id f).
Proof.
  intros Hlt Hi. apply filter_In in Hi. destruct Hi as [Hi Heq].
  split; [exact Hi|]. apply Z.eqb_eq in Heq. rewrite <- Heq.
  apply nth_error_nth'. rewrite Forall_forall in Hlt. apply Hlt, Hi.
Qed.

(** Induction over all the calls of lines 181-188. *)
Lemma calc_loop_ind (P : Impact -> Prop) (e : Exposures) (h : Hazard)
    (exp_idx : list nat) (haz_imp : list ImpactFunc) (st st' : Impact) :
  for_each (add_group e h exp_idx) haz_imp st = Ok st' ->
  P st ->
  (forall f iexp s s',
      In f haz_imp -> In iexp exp_idx ->
      nth_error (impact_id e) iexp = Some (id f) ->
      P s -> add_exposure e h f s iexp = Ok s' -> P s') ->
  P st'.
Proof.
  intros Hloop Hst Hstep.
  apply (for_each_ind (add_group e h exp_idx) P haz_imp) with (st := st);
    [|exact Hst | exact Hloop].
  intros s f s' Hf Hs Hgroup.
  destruct (add_group_inv _ _ _ _ _ _ Hgroup) as [Hlt Hinner].
  apply (for_each_ind (add_exposure e h f) P (group_of e exp_idx f))
    with (st := s); [|exact Hs | exact Hinner].
  intros s0 iexp s0' Hin Hs0 Hadd.
  destruct (group_of_In _ _ _ _ Hlt Hin) as [Hin' Hid].
  apply (Hstep f iexp s0 s0'); assumption.
Qed.

Lemma add_exposure_inv (e : Exposures) (h : Hazard) (f : ImpactFunc)
    (st : Impact) (iexp : nat) (st' : Impact) :
  add_exposure e h f st iexp = Ok st' ->
  exists er imp v,
    _one_exposure iexp e h f = Ok (er, imp) /\
    np.iadd_at (at_event st) er imp = Ok (at_event st') /\
    np.iadd_item (eai_exp st) iexp
      (np.sum (np.zip_with Qmult imp (map (fun i => nth i (frequency h) 0) er)))
      = Ok (eai_exp st') /\
    nth_error (value e) iexp = Some v /\
    tot_value st' = tot_value st + v /\
    aai_agg st' = aai_agg st /\
    imp_frequency st' = imp_frequency st /\
    imp_event_id st' = imp_event_id st /\
    unit st' = unit st.
Proof.
  unfold add_exposure. intros H.
  destruct (bind_Ok H) as ([er imp] & Hone & H1). clear H.
  destruct (bind_Ok H1) as (at' & Hat & H2). clear H1.
  destruct (bind_Ok H2) as (fr & Hfr & H3). clear H2.
  destruct (bind_Ok H3) as (prod & Hprod & H4). clear H3.
  destruct (bind_Ok H4) as (eai' & Heai & H5). clear H4.
  destruct (bind_Ok H5) as (v & Hv & H6). clear H5.
  injection H6 as <-. simpl.
  exists er, imp, v.
  destruct (one_exposure_shape _ _ _ _ Hone) as (_ & _ & Hlen).
  destruct (take_Ok _ 0 _ Hfr) as [-> _].
  rewrite broadcast2_same in Hprod by (rewrite length_map; exact Hlen).
  injection Hprod as <-. apply getitem_nth_error in Hv.
  repeat (split; [first [assumption | reflexivity]|]). reflexivity.
Qed.

Lemma calc_inv (assign : Exposures -> Hazard -> Exposures) (self : Impact)
    (e : Exposures) (fs : ImpactFuncSet) (h : Hazard) (imp : Impact) :
  calc assign self e fs h = Ok imp ->
  let e' := assign_if_needed assign e h in
  exists exp_idx,
    select_exposures e' h = Ok exp_idx /\
    ((exp_idx = [] /\ imp = calc_init self e' h) \/
     (exp_idx <> [] /\
      exists haz_imp st prod,
        get_func fs (haz_type h) = Ok haz_imp /\
        for_each (add_group e' h exp_idx) haz_imp (calc_init self e' h) = Ok st /\
        np.broadcast2 Qmult (at_event st) (frequency h) = Ok prod /\
        eai_exp imp = eai_exp st /\ at_event imp = at_event st /\
        tot_value imp = tot_value st /\ aai_agg imp = np.sum prod)).
Proof.
  intros H e'. unfold calc in H. fold e' in H.
  destruct (bind_Ok H) as (exp_idx & Hsel & H1). clear H.
  exists exp_idx. split; [exact Hsel|].
  destruct exp_idx as [|i0 exp_idx].
  - left. injection H1 as <-. split; reflexivity.
  - right. split; [discriminate|].
    destruct (bind_Ok H1) as (haz_imp & Hget & H2). clear H1.
    destruct (bind_Ok H2) as (st & Hloop & H3). clear H2.
    destruct (bind_Ok H3) as (prod & Hprod & H4). clear H3.
    injection H4 as <-. exists haz_imp, st, prod. simpl. auto 10.
Qed.

(* ------------------------------------------------------------------ *)
(** ** Conservation *)

Lemma add_exposure_conserves (e : Exposures) (h : Hazard) (f : ImpactFunc)
    (s : Impact) (iexp : nat) (s' : Impact) :
  add_exposure e h f s iexp = Ok s' ->
  length (at_event s') = length (at_event s) /\
  length (eai_exp s') = length (eai_exp s) /\
  (np.sum (eai_exp s) == dot (at_event s) (frequency h) ->
   np.sum (eai_exp s') == dot (at_event s') (frequency h)).
Proof.
  intros H.
  destruct (add_exposure_inv _ _ _ _ _ _ H)
    as (er & imp & v & Hone & Hat & Heai & _).
  destruct (one_exposure_shape _ _ _ _ Hone) as (Hnd & _ & Hlen).
  destruct (iadd_item_Ok _ _ _ _ Heai) as (Hlen' & Hsum & _).
  split; [apply (iadd_at_length _ _ _ _ Hat)|]. split; [exact Hlen'|].
  intros Hinv.
  rewrite Hsum, Hinv, (iadd_at_dot (frequency h) _ _ _ _ Hat Hnd Hlen).
  reflexivity.
Qed.

(* ------------------------------------------------------------------ *)
(** ** The end-to-end example *)

(** C2. End-to-end example: for one exposure (value 100, deductible 0,
    cover 100), the impact function with breakpoints intensity [0,10],
    mdr [0,1], paa [0,1], and two events of frequencies [0.1, 0.01] with
    intensities [5, 10] and fraction 1 at the exposure's centroid, [calc]
    gives at_event = [50, 100], eai_exp[0] = 6, aai_agg = 6 and
    tot_value = 100, and [calc_freq_curve] on that result gives
    impact = [100, 50] and return_per = [100, 100/11]. *)
Theorem end_to_end_example (assign : Exposures -> Hazard -> Exposures) :
  exists imp ifc,
    calc assign Impact_init ex_exposures ex_impact_funcs ex_hazard = Ok imp /\
    Qlist_eq (at_event imp) [50; 100] /\
    Qlist_eq (eai_exp imp) [6] /\
    aai_agg imp == 6 /\
    tot_value imp == 100 /\
    calc_freq_curve imp = Ok ifc /\
    Qlist_eq (impact ifc) [100; 50] /\
    Forall2 npfloat_eq (return_per ifc) [np.finite 100; np.finite (100 # 11)].
Proof.
  eexists. eexists.
  split; [vm_compute; reflexivity|].
  split; [repeat constructor|].
  split; [repeat constructor|].
  split; [reflexivity|].
  split; [reflexivity|].
  split; [vm_compute; reflexivity|].
  split; repeat constructor.
Qed.

(* ------------------------------------------------------------------ *)
(** ** Clipping *)

Lemma count_nonzero_0 (a : list Q) :
  np.count_nonzero a = O -> Forall (fun x => x == 0) a.
Proof.
  unfold np.count_nonzero. induction a as [|x a IH]; simpl; intros H.
  - constructor.
  - destruct (Qnonzero x) eqn:E; [discriminate H|].
    constructor; [apply Qnonzero_false, E | apply IH, H].
Qed.

Lemma cell_all (P : Q -> Prop) (m : matrix) (i j : nat) :
  P 0 -> all_cells P m -> P (cell m i j).
Proof.
  intros H0 Hall. unfold cell, all_cells in *.
  destruct (nth_in_or_default i (rows m) []) as [Hin | ->].
  - rewrite Forall_forall in Hall. specialize (Hall _ Hin).
    destruct (nth_in_or_default j (nth i (rows m) []) 0) as [Hin' | ->].
    + rewrite Forall_forall in Hall. apply Hall, Hin'.
    + exact H0.
  - destruct j; exact H0.
Qed.

Lemma mdr_at_bounds (lo hi : Q) (f : ImpactFunc) (x : Q) :
  lo <= 0 <= hi -> Forall (fun m => lo <= m <= hi) (mdr f) ->
  lo <= mdr_at f x <= hi.
Proof.
  intros H0 Hall. apply interp1_bounds; [exact H0|].
  apply (Forall_snd_combine (fun m => lo <= m <= hi)), Hall.
Qed.

Lemma clip_at_bounds (ded cov x p : Q) :
  0 <= cov -> 0 <= clip_at ded cov x p <= cov.
Proof.
  intros Hc. unfold clip_at. split.
  - apply Q.min_glb; [apply Q.le_max_r | exact Hc].
  - apply Q.le_min_r.
Qed.

Lemma clip_at_le_cover (ded cov x p : Q) : clip_at ded cov x p <= cov.
Proof. unfold clip_at. apply Q.le_min_r. Qed.

Lemma zip_with_Forall_all [A B C : Type] (P : C -> Prop) (f : A -> B -> C)
    (a : list A) (b : list B) :
  (forall x y, P (f x y)) -> Forall P (np.zip_with f a b).
Proof.
  intros Hf. revert b. induction a as [|x a IH]; intros [|y b]; simpl;
    constructor; [apply Hf | apply IH].
Qed.

(** C3 (as stated, refuted). With cover = value = 100, no deductible and a
    mean damage ratio of 2 at the event's intensity, value, mdr, paa and
    fraction are in the stated ranges and [_one_exposure] returns the
    impact 200, above the cover. *)
Lemma clipping_law_counterexample :
  exists er imp,
    _one_exposure 0 ex_exposures ex_hazard steep_imp_fun = Ok (er, imp) /\
    nth_error (cover ex_exposures) 0 = Some 100 /\
    Forall (fun v => 0 <= v) (value ex_exposures) /\
    Forall (fun m => 0 <= m) (mdr steep_imp_fun) /\
    Forall (fun p => 0 <= p <= 1) (paa steep_imp_fun) /\
    all_cells (fun x => 0 <= x <= 1) (fraction ex_hazard) /\
    ~ Forall (fun x => x <= 100) imp.
Proof.
  eexists. eexists.
  split; [vm_compute; reflexivity|].
  split; [reflexivity|].
  split; [repeat constructor; discriminate|].
  split; [repeat constructor; discriminate|].
  split; [repeat constructor; discriminate|].
  split; [repeat constructor; discriminate|].
  intros H. inversion H as [|? ? _ H']; subst.
  inversion H' as [|? ? Hle _]; subst.
  revert Hle. vm_compute. intros Hle. apply Hle. reflexivity.
Qed.

(** C3 (amended). Clipping law: for an exposure with cover [c >= 0] and
    value >= 0, an impact function with mdr in [0,1] and fractions in
    [0,1], no impact value returned by [_one_exposure] exceeds [c]. *)
Theorem clipping_law (iexp : nat) (e : Exposures) (h : Hazard) (f : ImpactFunc)
    (er : list nat) (imp : list Q) (c : Q) :
  _one_exposure iexp e h f = Ok (er, imp) ->
  nth_error (cover e) iexp = Some c -> 0 <= c ->
  Forall (fun v => 0 <= v) (value e) ->
  Forall (fun m => 0 <= m <= 1) (mdr f) ->
  all_cells (fun x => 0 <= x <= 1) (fraction h) ->
  Forall (fun x => x <= c) imp.
Proof.
  intros Hone Hc Hc0 Hval Hmdr Hfrac.
  destruct (one_exposure_inv _ _ _ _ Hone) as (iv & raw & Hraw & Hcase).
  destruct Hcase as [[Hzero ->] | [(ded & cov & v & _ & Hcov & Hv & _ & Hle & ->) |
                                   (ded & cov & _ & Hcov & ->)]].
  - apply count_nonzero_0 in Hzero. revert Hzero. apply Forall_impl.
    intros x Hx. rewrite Hx. exact Hc0.
  - assert (cov = c) by congruence. subst cov.
    destruct (raw_impact_inv _ _ _ _ Hraw)
      as (cens & icen & j & j' & v' & _ & _ & _ & _ & Hv' & _ & _ & ->).
    assert (v' = v) by congruence. subst v'.
    assert (Hv0 : 0 <= v).
    { rewrite Forall_forall in Hval. apply Hval.
      apply (nth_error_In _ _ Hv). }
    apply Forall_map, Forall_forall. intros i _.
    assert (H01 : 0 <= 0 <= 1) by (split; discriminate).
    pose proof (mdr_at_bounds 0 1 f (cell (intensity h) i j) H01 Hmdr) as Hm.
    pose proof (cell_all (fun x => 0 <= x <= 1) (fraction h) i j' H01 Hfrac)
      as Hf. simpl in Hf.
    set (m := mdr_at f (cell (intensity h) i j)) in *.
    set (fr := cell (fraction h) i j') in *.
    assert (Hvm : 0 <= v * m <= v) by (split; nra).
    assert (Hvmf : v * m * fr <= v * m) by nra.
    lra.
  - assert (cov = c) by congruence. subst cov.
    apply zip_with_Forall_all. intros x p. apply clip_at_le_cover.
Qed.

Lemma clipping_law_witness :
  exists er imp,
    _one_exposure 0 ins_exposures ex_hazard ex_imp_fun = Ok (er, imp) /\
    Forall (fun x => x <= 40) imp.
Proof.
  eexists. eexists. split.
  - vm_compute. reflexivity.
  - apply (clipping_law 0 ins_exposures ex_hazard ex_imp_fun [0; 1]%nat).
    + vm_compute. reflexivity.
    + reflexivity.
    + discriminate.
    + repeat constructor; discriminate.
    + repeat constructor; discriminate.
    + repeat constructor; discriminate.
Defined.

(* ------------------------------------------------------------------ *)
(** ** Relevant events and the impact before clipping *)

Lemma take_ext [A : Type] (d : A) (a b : list A) (idx : list nat) :
  length a = length b ->
  (forall i, In i idx -> nth i a d = nth i b d) ->
  np.take a idx = np.take b idx.
Proof.
  intros Hlen. unfold np.take.
  induction idx as [|i idx IH]; intros Heq; simpl; [reflexivity|].
  rewrite IH by (intros k Hk; apply Heq; right; exact Hk).
  assert (Hi : np.getitem a i = np.getitem b i).
  { unfold np.getitem.
    destruct (Nat.lt_ge_cases i (length a)) as [Hlt|Hge].
    - rewrite (nth_error_nth' a d Hlt), (nth_error_nth' b d) by lia.
      rewrite Heq by (left; reflexivity). reflexivity.
    - assert (Ha : nth_error a i = None) by (apply nth_error_None; lia).
      assert (Hb : nth_error b i = None) by (apply nth_error_None; lia).
      rewrite Ha, Hb. reflexivity. }
  rewrite Hi. reflexivity.
Qed.

Lemma relevant_events_In (h : Hazard) (j i : nat) :
  In i (relevant_events h j) <->
  (i < nrows (intensity h))%nat /\ ~ cell (intensity h) i j == 0.
Proof.
  unfold relevant_events. rewrite filter_In, in_seq, Qnonzero_iff.
  split; intros [H1 H2]; (split; [lia | exact H2]).
Qed.

(** The fraction matrix is read only where the intensity is not zero. *)
Lemma raw_impact_fraction (iexp : nat) (e : Exposures) (h : Hazard)
    (f : ImpactFunc) (F' : matrix) (cens : list Z) (icen : Z) :
  dict_get (assigned e) (haz_type h) = Ok cens ->
  nth_error cens iexp = Some icen -> (0 <= icen)%Z ->
  nrows F' = nrows (fraction h) -> ncols F' = ncols (fraction h) ->
  (forall i, ~ cell (intensity h) i (Z.to_nat icen) == 0 ->
             cell F' i (Z.to_nat icen) = cell (fraction h) i (Z.to_nat icen)) ->
  raw_impact iexp e (with_fraction h F') f = raw_impact iexp e h f.
Proof.
  intros Hcens Hicen Hpos Hrows Hcols Hagree.
  unfold raw_impact. simpl. rewrite Hcens. simpl.
  apply getitem_nth_error in Hicen. rewrite Hicen. simpl.
  destruct (column (intensity h) icen) as [icol|] eqn:Hicol; [simpl|reflexivity].
  destruct (np.take icol (np.nonzero icol)) as [iv|]; [simpl|reflexivity].
  assert (Hidx : col_index F' icen = col_index (fraction h) icen)
    by (unfold col_index; rewrite Hcols; reflexivity).
  destruct (column (fraction h) icen) as [fcol|e0] eqn:Hfcol.
  - destruct (column_Ok _ _ Hfcol) as (j' & Hj' & Hlen & Hcell).
    destruct (column_Ok _ _ Hicol) as (j & Hj & _ & _).
    assert (j' = Z.to_nat icen) by (apply (col_index_nonneg _ _ _ Hpos Hj')).
    assert (j = Z.to_nat icen) by (apply (col_index_nonneg _ _ _ Hpos Hj)).
    subst j j'.
    destruct (column F' icen) as [fcol'|] eqn:Hfcol'.
    + destruct (column_Ok _ _ Hfcol') as (j'' & Hj'' & Hlen' & Hcell').
      assert (j'' = Z.to_nat icen) by congruence. subst j''.
      simpl.
      rewrite (take_ext 0 fcol' fcol (np.nonzero icol)); [reflexivity|lia|].
      intros i Hi. rewrite Hcell, Hcell'. apply Hagree.
      rewrite (nonzero_column _ _ _ _ Hicol Hj) in Hi.
      apply (relevant_events_In h) in Hi. apply Hi.
    + unfold column in Hfcol'. rewrite Hidx, Hj' in Hfcol'. discriminate.
  - assert (Hfcol' : column F' icen = Raise e0).
    { unfold column in *. rewrite Hidx.
      destruct (col_index (fraction h) icen); [discriminate | exact Hfcol]. }
    rewrite Hfcol'. reflexivity.
Qed.

(* ------------------------------------------------------------------ *)
(** ** Selection of the exposures *)

Lemma zip_with_andb_map [A B : Type] (P : A -> bool) (R : B -> bool)
    (a : list A) (b : list B) :
  np.zip_with andb (map P a) (map R b) =
  map (fun p => P (fst p) && R (snd p)) (combine a b).
Proof.
  revert b. induction a as [|x a IH]; intros [|y b]; simpl; try reflexivity.
  f_equal. apply IH.
Qed.

Lemma select_exposures_Ok (e : Exposures) (h : Hazard) (cens : list Z) :
  dict_get (assigned e) (haz_type h) = Ok cens ->
  length cens = length (value e) ->
  exists exp_idx,
    select_exposures e h = Ok exp_idx /\
    NoDup exp_idx /\
    forall i, In i exp_idx <->
              (i < length (value e))%nat /\ 0 < nth i (value e) 0 /\
              (0 <= nth i cens (-1))%Z.
Proof.
  intros Hcens Hlen. unfold select_exposures. rewrite Hcens. simpl.
  rewrite broadcast2_same by (rewrite !length_map; congruence). simpl.
  eexists. split; [reflexivity|]. split; [apply where_NoDup|].
  intros i. rewrite zip_with_andb_map.
  rewrite (where_In _ _ (0, (-1)%Z)), length_combine, Hlen, Nat.min_id.
  rewrite combine_nth by congruence. simpl.
  rewrite andb_true_iff, Qlt_bool_iff, Z.leb_le. reflexivity.
Qed.

(** C5. Empty-eligible-set boundary: when the assigned centroids of the
    hazard's type are there, one per exposure, [calc] selects exactly the
    exposures with value > 0 and centroid >= 0; if there is none (as when
    every value is 0), [calc] on a fresh [Impact] returns normally, with
    at_event all zero of the size of the hazard's event count, eai_exp all
    zero of the size of the exposure count, tot_value = 0 and aai_agg = 0. *)
Theorem calc_no_eligible_exposures (assign : Exposures -> Hazard -> Exposures)
    (e : Exposures) (fs : ImpactFuncSet) (h : Hazard) (cens : list Z) :
  let e' := assign_if_needed assign e h in
  dict_get (assigned e') (haz_type h) = Ok cens ->
  length cens = length (value e') ->
  exists exp_idx,
    select_exposures e' h = Ok exp_idx /\
    (forall i, In i exp_idx <->
               (i < length (value e'))%nat /\ 0 < nth i (value e') 0 /\
               (0 <= nth i cens (-1))%Z) /\
    (Forall (fun v => v == 0) (value e') -> exp_idx = []) /\
    (exp_idx = [] ->
     calc assign Impact_init e fs h =
       Ok {| imp_event_id := event_id h;
             eai_exp := np.zeros (length (value e'));
             at_event := np.zeros (nrows (intensity h));
             imp_frequency := frequency h;
             tot_value := 0;
             aai_agg := 0;
             unit := value_unit e' |}).
Proof.
  intros e' Hcens Hlen.
  destruct (select_exposures_Ok e' h cens Hcens Hlen) as (exp_idx & Hsel & _ & Hin).
  exists exp_idx. split; [exact Hsel|]. split; [exact Hin|]. split.
  - intros Hzero. destruct exp_idx as [|i l]; [reflexivity|]. exfalso.
    destruct (proj1 (Hin i) (or_introl eq_refl)) as (Hi & Hpos & _).
    rewrite Forall_forall in Hzero.
    specialize (Hzero _ (nth_In (value e') 0 Hi)). lra.
  - intros ->. unfold calc. fold e'. rewrite Hsel. reflexivity.
Qed.

Lemma calc_no_eligible_exposures_witness :
  exists imp,
    calc no_assign Impact_init zero_exposures ex_impact_funcs ex_hazard = Ok imp /\
    at_event imp = [0; 0] /\ eai_exp imp = [0; 0] /\
    tot_value imp = 0 /\ aai_agg imp = 0.
Proof.
  destruct (calc_no_eligible_exposures no_assign zero_exposures ex_impact_funcs
              ex_hazard [0%Z; 0%Z] eq_refl eq_refl)
    as (exp_idx & _ & _ & Hzero & Hcalc).
  eexists. split.
  - apply Hcalc, Hzero. repeat constructor.
  - repeat split.
Defined.

(* ------------------------------------------------------------------ *)
(** ** Sorting *)

Lemma insert_by_perm (key : nat -> Q) (i : nat) (l : list nat) :
  Permutation (np.insert_by key i l) (i :: l).
Proof.
  induction l as [|j l IH]; simpl.
  - apply Permutation_refl.
  - destruct (Qle_bool (key i) (key j)).
    + apply Permutation_refl.
    + apply perm_trans with (j :: i :: l); [|apply perm_swap].
      apply perm_skip, IH.
Qed.

Lemma sort_by_perm (key : nat -> Q) (l : list nat) :
  Permutation (np.sort_by key l) l.
Proof.
  induction l as [|i l IH]; simpl.
  - apply Permutation_refl.
  - apply perm_trans with (i :: np.sort_by key l).
    + apply insert_by_perm.
    + apply perm_skip, IH.
Qed.

Lemma insert_by_sorted (key : nat -> Q) (i : nat) (l : list nat) :
  StronglySorted (fun a b => key a <= key b) l ->
  StronglySorted (fun a b => key a <= key b) (np.insert_by key i l).
Proof.
  induction 1 as [|j l Hl IH Hj]; simpl.
  - constructor; constructor.
  - destruct (Qle_bool (key i) (key j)) eqn:E.
    + apply Qle_bool_iff in E.
      constructor; [constructor; assumption|].
      constructor; [exact E|].
      revert Hj. apply Forall_impl. intros k Hk. lra.
    + assert (Hji : key j <= key i).
      { destruct (Qlt_le_dec (key j) (key i)) as [Hlt|Hle]; [lra|].
        apply Qle_bool_iff in Hle. congruence. }
      constructor; [exact IH|].
      apply (Permutation_Forall (Permutation_sym (insert_by_perm key i l))).
      constructor; assumption.
Qed.

Lemma sort_by_sorted (key : nat -> Q) (l : list nat) :
  StronglySorted (fun a b => key a <= key b) (np.sort_by key l).
Proof.
  induction l as [|i l IH]; simpl.
  - constructor.
  - apply insert_by_sorted, IH.
Qed.

Lemma StronglySorted_snoc [A : Type] (R : A -> A -> Prop) (l : list A) (x : A) :
  StronglySorted R l -> Forall (fun y => R y x) l -> StronglySorted R (l ++ [x]).
Proof.
  induction 1 as [|y l Hl IH Hy]; intros Hall; simpl.
  - constructor; constructor.
  - inversion Hall; subst. constructor; [apply IH; assumption|].
    apply Forall_app. split; [exact Hy|]. constructor; [assumption|constructor].
Qed.

Lemma StronglySorted_rev [A : Type] (R : A -> A -> Prop) (l : list A) :
  StronglySorted R l -> StronglySorted (fun x y => R y x) (rev l).
Proof.
  induction 1 as [|x l Hl IH Hx]; simpl.
  - constructor.
  - apply StronglySorted_snoc; [exact IH|].
    apply Forall_rev. exact Hx.
Qed.

Lemma StronglySorted_map [A B : Type] (R : B -> B -> Prop) (g : A -> B)
    (l : list A) :
  StronglySorted (fun x y => R (g x) (g y)) l -> StronglySorted R (map g l).
Proof.
  induction 1 as [|x l Hl IH Hx]; simpl; constructor; [exact IH|].
  apply Forall_map. exact Hx.
Qed.

Lemma StronglySorted_impl [A : Type] (R R' : A -> A -> Prop) (l : list A) :
  (forall x y, R x y -> R' x y) -> StronglySorted R l -> StronglySorted R' l.
Proof.
  intros HR. induction 1 as [|x l Hl IH Hx]; constructor; [exact IH|].
  revert Hx. apply Forall_impl. intros y. apply HR.
Qed.

Lemma map_nth_seq (a : list Q) :
  map (fun i => nth i a 0) (seq 0 (length a)) = a.
Proof.
  apply (nth_ext _ _ 0 0).
  - rewrite length_map, length_seq. reflexivity.
  - intros n Hn. rewrite length_map, length_seq in Hn.
    rewrite (nth_indep _ 0 ((fun i => nth i a 0) O))
      by (rewrite length_map, length_seq; exact Hn).
    rewrite (map_nth (fun i => nth i a 0) (seq 0 (length a)) O n).
    rewrite seq_nth by exact Hn. reflexivity.
Qed.

Lemma argsort_perm (a : list Q) :
  Permutation (rev (np.argsort a)) (seq 0 (length a)).
Proof.
  apply perm_trans with (np.argsort a).
  - apply Permutation_sym, Permutation_rev.
  - apply sort_by_perm.
Qed.

Lemma argsort_lt (a : list Q) :
  Forall (fun i => (i < length a)%nat) (rev (np.argsort a)).
Proof.
  apply (Permutation_Forall (Permutation_sym (argsort_perm a))).
  apply Forall_forall. intros i Hi. apply in_seq in Hi. lia.
Qed.

Lemma argsort_descending (a : list Q) :
  descending (map (fun i => nth i a 0) (rev (np.argsort a))).
Proof.
  unfold descending. apply StronglySorted_map.
  apply (StronglySorted_rev (fun i j => nth i a 0 <= nth j a 0)).
  apply sort_by_sorted.
Qed.

(* ------------------------------------------------------------------ *)
(** ** The frequency curve *)

Lemma cumsum_from_sorted (acc : Q) (l : list Q) :
  0 <= acc -> Forall (fun x => 0 <= x) l ->
  Forall (fun y => acc <= y) (np.cumsum_from acc l) /\
  StronglySorted (fun x y => 0 <= x <= y) (np.cumsum_from acc l).
Proof.
  intros Hacc Hl. revert acc Hacc.
  induction Hl as [|x l Hx _ IH]; intros acc Hacc; simpl.
  - split; constructor.
  - destruct (IH (acc + x)) as [Hge Hs]; [lra|].
    split.
    + constructor; [lra|]. revert Hge. apply Forall_impl. intros y Hy. lra.
    + constructor; [exact Hs|]. revert Hge. apply Forall_impl. intros y Hy. lra.
Qed.

Lemma cumsum_sorted (l : list Q) :
  Forall (fun x => 0 <= x) l ->
  StronglySorted (fun x y => 0 <= x <= y) (np.cumsum l).
Proof.
  intros Hl. destruct Hl as [|x l Hx Hl]; simpl; [constructor|].
  destruct (cumsum_from_sorted x l Hx Hl) as [Hge Hs].
  constructor; [exact Hs|]. revert Hge. apply Forall_impl. intros y Hy. lra.
Qed.

Lemma cumsum_length (l : list Q) : length (np.cumsum l) = length l.
Proof.
  destruct l as [|x l]; simpl; [reflexivity|]. f_equal.
  generalize x. induction l as [|y l IH]; intros acc; simpl;
    [reflexivity | f_equal; apply IH].
Qed.

Lemma reciprocal_antitone (x y : Q) :
  0 <= x <= y -> npfloat_le (np.reciprocal y) (np.reciprocal x).
Proof.
  intros [Hx Hxy]. unfold np.reciprocal.
  destruct (Qeq_bool x 0) eqn:Ex.
  - destruct (Qeq_bool y 0); exact I.
  - assert (Hx0 : ~ x == 0) by (intros H; apply Qeq_bool_iff in H; congruence).
    destruct (Qeq_bool y 0) eqn:Ey.
    + apply Qeq_bool_iff in Ey. exfalso. apply Hx0. lra.
    + simpl. assert (Hxpos : 0 < x) by lra. assert (Hypos : 0 < y) by lra.
      apply Qle_shift_div_l; [exact Hxpos|].
      assert (E : 1 / y * x == x / y) by (field; lra). rewrite E.
      apply Qle_shift_div_r; [exact Hypos | lra].
Qed.

Lemma reciprocal_zero (x : Q) : x == 0 -> np.reciprocal x = np.inf.
Proof.
  intros H. unfold np.reciprocal. apply Qeq_bool_iff in H. rewrite H. reflexivity.
Qed.

Lemma freq_curve_of_inv (self : Impact) (idxs : list nat) (ifc : ImpactFreqCurve) :
  freq_curve_of self idxs = Ok ifc ->
  exists freq,
    np.take (imp_frequency self) idxs = Ok freq /\
    return_per ifc = map np.reciprocal (np.cumsum freq) /\
    impact ifc = map (fun i => nth i (at_event self) 0) idxs /\
    ifc_unit ifc = unit self.
Proof.
  unfold freq_curve_of. intros H.
  destruct (bind_Ok H) as (freq & Hfreq & H1). clear H.
  destruct (bind_Ok H1) as (im & Him & H2). clear H1.
  injection H2 as <-. exists freq. simpl.
  destruct (take_Ok _ 0 _ Him) as [-> _]. auto.
Qed.

Lemma freq_curve_of_total (self : Impact) (idxs : list nat) :
  Forall (fun i => (i < length (at_event self))%nat) idxs ->
  (length (at_event self) <= length (imp_frequency self))%nat ->
  exists ifc, freq_curve_of self idxs = Ok ifc.
Proof.
  intros Hidx Hlen. unfold freq_curve_of.
  rewrite (take_lt (imp_frequency self) 0 idxs)
    by (revert Hidx; apply Forall_impl; intros i Hi; lia).
  simpl. rewrite (take_lt (at_event self) 0 idxs Hidx). simpl.
  eexists. reflexivity.
Qed.

(** The curve of any order of the events that sorts [at_event]
    non-increasingly: whatever the order of equal values, the impacts are
    a sorted permutation and the return periods do not increase. *)
Lemma freq_curve_of_monotone (self : Impact) (idxs : list nat)
    (ifc : ImpactFreqCurve) :
  Permutation idxs (seq 0 (length (at_event self))) ->
  descending (map (fun i => nth i (at_event self) 0) idxs) ->
  Forall (fun x => 0 <= x) (imp_frequency self) ->
  freq_curve_of self idxs = Ok ifc ->
  descending (impact ifc) /\
  Permutation (impact ifc) (at_event self) /\
  npfloat_descending (return_per ifc).
Proof.
  intros Hperm Hsorted Hfreq Hcurve.
  destruct (freq_curve_of_inv _ _ _ Hcurve) as (freq & Htake & Hret & Himp & _).
  split; [rewrite Himp; exact Hsorted|].
  split.
  - rewrite Himp.
    apply perm_trans
      with (map (fun i => nth i (at_event self) 0)
                (seq 0 (length (at_event self)))).
    + apply Permutation_map, Hperm.
    + rewrite map_nth_seq. apply Permutation_refl.
  - rewrite Hret. unfold npfloat_descending. apply StronglySorted_map.
    apply (StronglySorted_impl (fun x y => 0 <= x <= y)).
    + intros x y. apply reciprocal_antitone.
    + apply cumsum_sorted. apply (take_Forall _ _ _ _ Htake Hfreq).
Qed.

(** C7. Monotone frequency curve: [calc_freq_curve] returns a curve as
    soon as there is a frequency for every event; when all frequencies
    are >= 0, the impact values of the curve are a permutation of
    [at_event] in non-increasing order, and [return_per] is
    non-increasing along the ranks. *)
Theorem freq_curve_monotone (self : Impact) :
  ((length (at_event self) <= length (imp_frequency self))%nat ->
   exists ifc, calc_freq_curve self = Ok ifc) /\
  forall ifc,
    Forall (fun x => 0 <= x) (imp_frequency self) ->
    calc_freq_curve self = Ok ifc ->
    descending (impact ifc) /\
    Permutation (impact ifc) (at_event self) /\
    npfloat_descending (return_per ifc).
Proof.
  split.
  - intros Hlen. apply freq_curve_of_total; [apply argsort_lt | exact Hlen].
  - intros ifc Hfreq Hcurve.
    apply (freq_curve_of_monotone self (rev (np.argsort (at_event self))));
      [apply argsort_perm | apply argsort_descending | exact Hfreq | exact Hcurve].
Qed.

Lemma freq_curve_monotone_witness :
  exists ifc,
    calc_freq_curve zero_freq_impact = Ok ifc /\
    descending (impact ifc) /\
    Permutation (impact ifc) (at_event zero_freq_impact) /\
    npfloat_descending (return_per ifc).
Proof.
  eexists. split.
  - vm_compute. reflexivity.
  - apply (proj2 (freq_curve_monotone zero_freq_impact)).
    + repeat constructor; discriminate.
    + vm_compute. reflexivity.
Defined.

(** C9. Zero-frequency return period: [calc_freq_curve] has no error for
    a zero exceedance frequency (it returns a curve as soon as there is a
    frequency for every event); at every rank where the cumulative
    frequency is 0 the return period is the infinite float, in particular
    at rank 0 when the most damaging event has frequency 0. *)
Theorem freq_curve_zero_frequency (self : Impact) :
  ((length (at_event self) <= length (imp_frequency self))%nat ->
   exists ifc, calc_freq_curve self = Ok ifc) /\
  forall ifc freq,
    calc_freq_curve self = Ok ifc ->
    np.take (imp_frequency self) (rev (np.argsort (at_event self))) = Ok freq ->
    length (return_per ifc) = length (at_event self) /\
    (forall k, (k < length (at_event self))%nat ->
               nth k (np.cumsum freq) 0 == 0 ->
               nth k (return_per ifc) (np.finite 0) = np.inf) /\
    ((0 < length (at_event self))%nat -> nth 0 freq 0 == 0 ->
     nth 0 (return_per ifc) (np.finite 0) = np.inf).
Proof.
  split.
  - intros Hlen. apply freq_curve_of_total; [apply argsort_lt | exact Hlen].
  - intros ifc freq Hcurve Htake. unfold calc_freq_curve in Hcurve.
    destruct (freq_curve_of_inv _ _ _ Hcurve) as (freq' & Htake' & Hret & _).
    assert (freq' = freq) by congruence. subst freq'.
    assert (Hlen : length freq = length (at_event self)).
    { rewrite (take_length _ _ _ Htake), length_rev.
      rewrite <- (length_rev (np.argsort (at_event self))).
      rewrite (Permutation_length (argsort_perm (at_event self))).
      apply length_seq. }
    assert (Hk : forall k, (k < length (at_event self))%nat ->
                           nth k (np.cumsum freq) 0 == 0 ->
                           nth k (return_per ifc) (np.finite 0) = np.inf).
    { intros k Hlt Hzero. rewrite Hret.
      rewrite (nth_indep _ (np.finite 0) (np.reciprocal 0))
        by (rewrite length_map, cumsum_length; lia).
      rewrite (map_nth np.reciprocal (np.cumsum freq) 0 k).
      apply reciprocal_zero, Hzero. }
    split; [rewrite Hret, length_map, cumsum_length; exact Hlen|].
    split; [exact Hk|].
    intros Hpos Hzero. apply Hk; [exact Hpos|].
    destruct freq as [|x freq]; [reflexivity | exact Hzero].
Qed.

Lemma freq_curve_zero_frequency_witness :
  exists ifc,
    calc_freq_curve zero_freq_impact = Ok ifc /\
    nth 0 (return_per ifc) (np.finite 0) = np.inf.
Proof.
  eexists. split.
  - vm_compute. reflexivity.
  - refine (proj2 (proj2 (proj2 (freq_curve_zero_frequency zero_freq_impact)
                            _ [0; 1 # 10] _ _)) _ _).
    + vm_compute. reflexivity.
    + vm_compute. reflexivity.
    + simpl. lia.
    + reflexivity.
Defined.

(* ------------------------------------------------------------------ *)
(** ** Non-negativity *)

Lemma Forall_upper_bound (l : list Q) :
  exists hi, 0 <= hi /\ Forall (fun x => x <= hi) l.
Proof.
  induction l as [|x l (hi & Hhi & Hall)].
  - exists 0. split; [lra | constructor].
  - exists (Qmax x hi). split.
    + apply Qle_trans with hi; [exact Hhi | apply Q.le_max_r].
    + constructor; [apply Q.le_max_l|].
      revert Hall. apply Forall_impl. intros y Hy.
      apply Qle_trans with hi; [exact Hy | apply Q.le_max_r].
Qed.

Lemma mdr_at_nonneg (f : ImpactFunc) (x : Q) :
  Forall (fun m => 0 <= m) (mdr f) -> 0 <= mdr_at f x.
Proof.
  intros Hall. destruct (Forall_upper_bound (mdr f)) as (hi & Hhi & Hup).
  apply (mdr_at_bounds 0 hi f x).
  - split; [lra | exact Hhi].
  - rewrite Forall_forall in *. intros m Hm. split; auto.
Qed.

Lemma one_exposure_nonneg (iexp : nat) (e : Exposures) (h : Hazard)
    (f : ImpactFunc) (er : list nat) (imp : list Q) :
  _one_exposure iexp e h f = Ok (er, imp) ->
  Forall (fun v => 0 <= v) (value e) ->
  Forall (fun c => 0 <= c) (cover e) ->
  Forall (fun m => 0 <= m) (mdr f) ->
  all_cells (fun x => 0 <= x) (fraction h) ->
  Forall (fun x => 0 <= x) imp.
Proof.
  intros Hone Hval Hcov Hmdr Hfrac.
  destruct (one_exposure_inv _ _ _ _ Hone) as (iv & raw & Hraw & Hcase).
  destruct (raw_impact_inv _ _ _ _ Hraw)
    as (cens & icen & j & j' & v & _ & _ & _ & _ & Hv & _ & _ & Hr).
  assert (Hraw0 : Forall (fun x => 0 <= x) raw).
  { rewrite Hr. apply Forall_map, Forall_forall. intros i _.
    assert (Hv0 : 0 <= v).
    { rewrite Forall_forall in Hval. apply Hval, (nth_error_In _ _ Hv). }
    pose proof (mdr_at_nonneg f (cell (intensity h) i j) Hmdr) as Hm.
    pose proof (cell_all (fun x => 0 <= x) (fraction h) i j'
                  (Qle_refl 0) Hfrac) as Hf. simpl in Hf.
    apply Qmult_le_0_compat; [apply Qmult_le_0_compat|]; assumption. }
  destruct Hcase as [[_ ->] | [(ded & cov & v' & _ & _ & _ & _ & _ & ->) |
                               (ded & cov & _ & Hc & ->)]]; try exact Hraw0.
  apply zip_with_Forall_all. intros x p.
  apply clip_at_bounds.
  rewrite Forall_forall in Hcov. apply Hcov, (nth_error_In _ _ Hc).
Qed.

Lemma iadd_item_nonneg (a : list Q) (i : nat) (v : Q) (a' : list Q) :
  np.iadd_item a i v = Ok a' ->
  Forall (fun x => 0 <= x) a -> 0 <= v -> Forall (fun x => 0 <= x) a'.
Proof.
  unfold np.iadd_item. intros H Ha Hv.
  destruct (bind_Ok H) as (old & Hold & Hset). clear H.
  apply (setitem_Forall _ _ _ _ _ Hset Ha).
  destruct (getitem_Ok _ _ 0 Hold) as [Hi <-].
  rewrite Forall_forall in Ha. specialize (Ha _ (nth_In a 0 Hi)). lra.
Qed.

Lemma add_exposure_nonneg (e : Exposures) (h : Hazard) (f : ImpactFunc)
    (s : Impact) (iexp : nat) (s' : Impact) :
  add_exposure e h f s iexp = Ok s' ->
  Forall (fun v => 0 <= v) (value e) ->
  Forall (fun c => 0 <= c) (cover e) ->
  Forall (fun m => 0 <= m) (mdr f) ->
  Forall (fun x => 0 <= x) (frequency h) ->
  all_cells (fun x => 0 <= x) (fraction h) ->
  Forall (fun x => 0 <= x) (at_event s) /\
  Forall (fun x => 0 <= x) (eai_exp s) /\ 0 <= tot_value s ->
  Forall (fun x => 0 <= x) (at_event s') /\
  Forall (fun x => 0 <= x) (eai_exp s') /\ 0 <= tot_value s'.
Proof.
  intros H Hval Hcov Hmdr Hfreq Hfrac (Hat & Heai & Htot).
  destruct (add_exposure_inv _ _ _ _ _ _ H)
    as (er & imp & v & Hone & Hat' & Heai' & Hv & Htot' & _).
  pose proof (one_exposure_nonneg _ _ _ _ _ _ Hone Hval Hcov Hmdr Hfrac) as Himp.
  split; [apply (iadd_at_nonneg _ _ _ _ Hat' Hat Himp)|]. split.
  - apply (iadd_item_nonneg _ _ _ _ Heai' Heai).
    apply sum_nonneg, zip_with_Forall; [|exact Himp|].
    + intros x y Hx Hy. apply Qmult_le_0_compat; assumption.
    + apply Forall_map, Forall_forall. intros i _.
      destruct (nth_in_or_default i (frequency h) 0) as [Hin | ->]; [|lra].
      rewrite Forall_forall in Hfreq. apply Hfreq, Hin.
  - rewrite Htot'. rewrite Forall_forall in Hval.
    specialize (Hval _ (nth_error_In _ _ Hv)). lra.
Qed.

(** C8 (as stated, refuted). With mdr, paa, value and frequency all >= 0,
    a negative fraction, or a negative cover, gives negative entries of
    [at_event]. *)
Lemma calc_non_negative_counterexample :
  Forall (fun m => 0 <= m) (mdr ex_imp_fun) /\
  Forall (fun p => 0 <= p) (paa ex_imp_fun) /\
  Forall (fun v => 0 <= v) (value ex_exposures) /\
  Forall (fun v => 0 <= v) (value neg_cover_exposures) /\
  Forall (fun x => 0 <= x) (frequency ex_hazard) /\
  (exists imp,
      calc no_assign Impact_init ex_exposures ex_impact_funcs
           (with_fraction ex_hazard neg_fraction) = Ok imp /\
      Qlist_eq (at_event imp) [-(50); -(100)] /\
      ~ Forall (fun x => 0 <= x) (at_event imp)) /\
  (exists imp,
      calc no_assign Impact_init neg_cover_exposures ex_impact_funcs ex_hazard
        = Ok imp /\
      Qlist_eq (at_event imp) [-(10); -(10)] /\
      ~ Forall (fun x => 0 <= x) (at_event imp)).
Proof.
  split; [repeat constructor; discriminate|].
  split; [repeat constructor; discriminate|].
  split; [repeat constructor; discriminate|].
  split; [repeat constructor; discriminate|].
  split; [repeat constructor; discriminate|].
  split; eexists; (split; [vm_compute; reflexivity|]);
    (split; [repeat constructor|]);
    intros H; inversion H as [|? ? Hle _]; subst;
    revert Hle; vm_compute; intros Hle; apply Hle; reflexivity.
Qed.

(** C8 (amended). Non-negativity: whenever all mdr, value, frequency,
    fraction and cover inputs are >= 0, every entry of [at_event] and
    [eai_exp], and [tot_value] and [aai_agg], of the result of [calc] on a
    fresh [Impact] are >= 0. *)
Theorem calc_non_negative (assign : Exposures -> Hazard -> Exposures)
    (e : Exposures) (fs : ImpactFuncSet) (h : Hazard) (imp : Impact) :
  let e' := assign_if_needed assign e h in
  calc assign Impact_init e fs h = Ok imp ->
  (forall haz_imp, get_func fs (haz_type h) = Ok haz_imp ->
                   Forall (fun f => Forall (fun m => 0 <= m) (mdr f)) haz_imp) ->
  Forall (fun v => 0 <= v) (value e') ->
  Forall (fun c => 0 <= c) (cover e') ->
  Forall (fun x => 0 <= x) (frequency h) ->
  all_cells (fun x => 0 <= x) (fraction h) ->
  Forall (fun x => 0 <= x) (at_event imp) /\
  Forall (fun x => 0 <= x) (eai_exp imp) /\
  0 <= tot_value imp /\ 0 <= aai_agg imp.
Proof.
  intros e' Hcalc Hmdr Hval Hcov Hfreq Hfrac.
  assert (Hzeros : forall n, Forall (fun x => 0 <= x) (np.zeros n)).
  { intros n. apply Forall_forall. intros x Hx.
    apply repeat_spec in Hx. subst x. lra. }
  destruct (calc_inv _ _ _ _ _ _ Hcalc) as (exp_idx & _ & Hcase).
  fold e' in Hcase.
  destruct Hcase as [[_ ->] | (_ & haz_imp & st & prod & Hget & Hloop & Hprod &
                               Heai & Hat & Htot & Haai)].
  - simpl. repeat split; try apply Hzeros; lra.
  - assert (Hinv : Forall (fun x => 0 <= x) (at_event st) /\
                   Forall (fun x => 0 <= x) (eai_exp st) /\ 0 <= tot_value st).
    { apply (calc_loop_ind
               (fun s => Forall (fun x => 0 <= x) (at_event s) /\
                         Forall (fun x => 0 <= x) (eai_exp s) /\
                         0 <= tot_value s)
               _ _ _ _ _ _ Hloop).
      - simpl. repeat split; try apply Hzeros; lra.
      - intros f iexp s s' Hf _ _ Hs Hadd.
        apply (add_exposure_nonneg _ _ _ _ _ _ Hadd); try assumption.
        specialize (Hmdr _ Hget). rewrite Forall_forall in Hmdr.
        apply Hmdr, Hf. }
    destruct Hinv as (Hat0 & Heai0 & Htot0).
    rewrite Heai, Hat, Htot, Haai. repeat split; try assumption.
    apply sum_nonneg.
    apply (broadcast2_Forall (fun x => 0 <= x) Qmult _ _ _
             (fun x y Hx Hy => Qmult_le_0_compat x y Hx Hy) Hprod Hat0 Hfreq).
Qed.

Lemma calc_non_negative_witness :
  exists imp,
    calc no_assign Impact_init ins_exposures ex_impact_funcs ex_hazard = Ok imp /\
    Forall (fun x => 0 <= x) (at_event imp) /\
    Forall (fun x => 0 <= x) (eai_exp imp) /\
    0 <= tot_value imp /\ 0 <= aai_agg imp.
Proof.
  eexists. split.
  - vm_compute. reflexivity.
  - apply (calc_non_negative no_assign ins_exposures ex_impact_funcs ex_hazard).
    + vm_compute. reflexivity.
    + intros haz_imp H. vm_compute in H. injection H as <-.
      repeat constructor; discriminate.
    + repeat constructor; discriminate.
    + repeat constructor; discriminate.
    + repeat constructor; discriminate.
    + repeat constructor; discriminate.
Defined.

(* ------------------------------------------------------------------ *)
(** ** The total value *)

Lemma exposures_tot_value (e : Exposures) (h : Hazard) (f : ImpactFunc)
    (l : list nat) :
  forall st st',
    for_each (add_exposure e h f) l st = Ok st' ->
    tot_value st' == tot_value st + np.sum (map (fun i => nth i (value e) 0) l).
Proof.
  induction l as [|i l IH]; intros st st' H; simpl in H.
  - injection H as <-. simpl. rewrite sum_nil. lra.
  - destruct (bind_Ok H) as (s1 & Hs1 & Hrest). clear H.
    destruct (add_exposure_inv _ _ _ _ _ _ Hs1)
      as (er & imp & v & _ & _ & _ & Hv & Htot & _).
    rewrite (IH _ _ Hrest), Htot. simpl. rewrite sum_cons.
    apply (nth_error_nth _ _ 0) in Hv. rewrite Hv. lra.
Qed.

Lemma sum_filter_orb [A : Type] (g : A -> Q) (P R : A -> bool) (l : list A) :
  (forall x, In x l -> P x = true -> R x = false) ->
  np.sum (map g (filter (fun x => P x || R x) l)) ==
  np.sum (map g (filter P l)) + np.sum (map g (filter R l)).
Proof.
  induction l as [|x l IH]; intros Hex; simpl.
  - rewrite sum_nil. lra.
  - assert (IH' := IH (fun y Hy => Hex y (or_intror Hy))).
    destruct (P x) eqn:EP; simpl.
    + rewrite (Hex x (or_introl eq_refl) EP). rewrite !sum_cons, IH'. lra.
    + destruct (R x); simpl; rewrite ?sum_cons, IH'; lra.
Qed.

Lemma matched_cons (e : Exposures) (f : ImpactFunc) (rest : list ImpactFunc)
    (i : nat) :
  (i < length (impact_id e))%nat ->
  matched e (f :: rest) i =
  Z.eqb (nth i (impact_id e) 0%Z) (id f) || matched e rest i.
Proof.
  intros Hi. unfold matched. rewrite (nth_error_nth' _ 0%Z Hi). reflexivity.
Qed.

Lemma matched_nil (e : Exposures) (i : nat) : matched e [] i = false.
Proof. unfold matched. destruct (nth_error (impact_id e) i); reflexivity. Qed.

Lemma matched_notin (e : Exposures) (haz_imp : list ImpactFunc) (i : nat) (z : Z) :
  nth_error (impact_id e) i = Some z -> ~ In z (fun_ids haz_imp) ->
  matched e haz_imp i = false.
Proof.
  intros Hz Hnotin. unfold matched. rewrite Hz.
  destruct (existsb (Z.eqb z) (fun_ids haz_imp)) eqn:E; [|reflexivity].
  apply existsb_exists in E. destruct E as (y & Hy & Heq).
  apply Z.eqb_eq in Heq. subst y. contradiction.
Qed.

(** After the loop over the impact functions, [tot_value] has grown by the
    values of the matched exposures. *)
Lemma groups_tot_value (e : Exposures) (h : Hazard) (exp_idx : list nat)
    (haz_imp : list ImpactFunc) :
  NoDup (fun_ids haz_imp) ->
  forall st st',
    for_each (add_group e h exp_idx) haz_imp st = Ok st' ->
    tot_value st' ==
    tot_value st +
    np.sum (map (fun i => nth i (value e) 0) (filter (matched e haz_imp) exp_idx)).
Proof.
  induction haz_imp as [|f rest IH]; intros Hnd st st' H; simpl in H.
  - injection H as <-.
    rewrite (filter_ext (matched e []) (fun _ => false) (matched_nil e)).
    assert (E : filter (fun _ : nat => false) exp_idx = [])
      by (induction exp_idx; simpl; auto).
    rewrite E. simpl. rewrite sum_nil. lra.
  - destruct (bind_Ok H) as (s1 & Hs1 & Hrest). clear H.
    inversion Hnd as [|? ? Hnotin Hnd']; subst.
    destruct (add_group_inv _ _ _ _ _ _ Hs1) as [Hlt Hinner].
    rewrite (IH Hnd' _ _ Hrest), (exposures_tot_value _ _ _ _ _ _ Hinner).
    assert (E : filter (matched e (f :: rest)) exp_idx =
                filter (fun i => Z.eqb (nth i (impact_id e) 0%Z) (id f)
                                 || matched e rest i) exp_idx).
    { apply filter_ext_in. intros i Hi. apply matched_cons.
      rewrite Forall_forall in Hlt. apply Hlt, Hi. }
    rewrite E, sum_filter_orb.
    + unfold group_of. lra.
    + intros i Hi Heq. apply Z.eqb_eq in Heq.
      apply (matched_notin e rest i (id f)); [|exact Hnotin].
      rewrite <- Heq. apply nth_error_nth'.
      rewrite Forall_forall in Hlt. apply Hlt, Hi.
Qed.

(** A step changes [eai_exp] at its own exposure only. *)
Lemma add_exposure_eai_other (e : Exposures) (h : Hazard) (f : ImpactFunc)
    (s : Impact) (iexp : nat) (s' : Impact) (i : nat) :
  add_exposure e h f s iexp = Ok s' -> i <> iexp ->
  nth i (eai_exp s') 0 = nth i (eai_exp s) 0.
Proof.
  intros H Hne.
  destruct (add_exposure_inv _ _ _ _ _ _ H)
    as (er & imp & v & _ & _ & Heai & _).
  destruct (iadd_item_Ok _ _ _ _ Heai) as (_ & _ & Hnth).
  rewrite Hnth. destruct (Nat.eqb_spec i iexp) as [Heq|_]; [contradiction|].
  reflexivity.
Qed.

Lemma relevant_events_nil (h : Hazard) (j : nat) :
  (forall ev, cell (intensity h) ev j == 0) -> relevant_events h j = [].
Proof.
  intros Hzero. unfold relevant_events.
  induction (seq 0 (nrows (intensity h))) as [|ev l IH]; simpl; [reflexivity|].
  rewrite (proj2 (Qnonzero_false _) (Hzero ev)). exact IH.
Qed.

(** An exposure whose centroid no event reaches gets no event and no
    impact from [_one_exposure]. *)
Lemma one_exposure_quiet (iexp : nat) (e : Exposures) (h : Hazard)
    (f : ImpactFunc) (cens : list Z) (icen : Z) (er : list nat) (imp : list Q) :
  dict_get (assigned e) (haz_type h) = Ok cens ->
  nth_error cens iexp = Some icen -> (0 <= icen)%Z ->
  (forall ev, cell (intensity h) ev (Z.to_nat icen) == 0) ->
  _one_exposure iexp e h f = Ok (er, imp) ->
  er = [] /\ imp = [].
Proof.
  intros Hcens Hicen Hpos Hzero Hone.
  destruct (one_exposure_shape _ _ _ _ Hone) as (_ & _ & Hlen).
  destruct (one_exposure_inv _ _ _ _ Hone) as (iv & raw & Hraw & _).
  destruct (raw_impact_inv _ _ _ _ Hraw)
    as (cens' & icen' & j & j' & v & Hc' & Hi' & Hj & _ & _ & Her & _).
  assert (cens' = cens) by congruence. subst cens'.
  assert (icen' = icen) by congruence. subst icen'.
  assert (j = Z.to_nat icen) by (apply (col_index_nonneg _ _ _ Hpos Hj)).
  subst j. rewrite (relevant_events_nil h _ Hzero) in Her. subst er.
  split; [reflexivity|]. destruct imp; [reflexivity | discriminate Hlen].
Qed.

Lemma add_exposure_eai_quiet (e : Exposures) (h : Hazard) (f : ImpactFunc)
    (s : Impact) (iexp : nat) (s' : Impact) :
  add_exposure e h f s iexp = Ok s' ->
  (forall er imp, _one_exposure iexp e h f = Ok (er, imp) -> er = [] /\ imp = []) ->
  nth iexp (eai_exp s') 0 == nth iexp (eai_exp s) 0.
Proof.
  intros H Hquiet.
  destruct (add_exposure_inv _ _ _ _ _ _ H)
    as (er & imp & v & Hone & _ & Heai & _).
  destruct (Hquiet _ _ Hone) as [-> ->].
  destruct (iadd_item_Ok _ _ _ _ Heai) as (_ & _ & Hnth).
  rewrite Hnth, Nat.eqb_refl. simpl. rewrite sum_nil. lra.
Qed.

Lemma nth_zeros (i n : nat) : nth i (np.zeros n) 0 = 0.
Proof.
  unfold np.zeros. revert i. induction n as [|n IH]; intros [|i]; simpl;
    try reflexivity. apply IH.
Qed.

(** C10. Total value: on a fresh [Impact], for impact functions with
    distinct ids, [tot_value] is the sum of the values of the selected
    exposures whose [impact_id] is the id of one of the hazard type's
    impact functions; such an exposure is in that sum also when the
    intensity at its centroid is zero for every event, in which case
    [_one_exposure] returns no event and no impact for it and its
    [eai_exp] entry is 0. *)
Theorem calc_tot_value (assign : Exposures -> Hazard -> Exposures)
    (e : Exposures) (fs : ImpactFuncSet) (h : Hazard) (imp : Impact)
    (exp_idx : list nat) (haz_imp : list ImpactFunc) :
  let e' := assign_if_needed assign e h in
  calc assign Impact_init e fs h = Ok imp ->
  select_exposures e' h = Ok exp_idx ->
  get_func fs (haz_type h) = Ok haz_imp ->
  NoDup (fun_ids haz_imp) ->
  tot_value imp ==
    np.sum (map (fun i => nth i (value e') 0)
                (filter (matched e' haz_imp) exp_idx)) /\
  forall i cens icen,
    In i exp_idx -> matched e' haz_imp i = true ->
    dict_get (assigned e') (haz_type h) = Ok cens ->
    nth_error cens i = Some icen -> (0 <= icen)%Z ->
    (forall ev, cell (intensity h) ev (Z.to_nat icen) == 0) ->
    In i (filter (matched e' haz_imp) exp_idx) /\
    (forall f er im, _one_exposure i e' h f = Ok (er, im) -> er = [] /\ im = []) /\
    nth i (eai_exp imp) 0 == 0.
Proof.
  intros e' Hcalc Hsel Hget Hnd.
  destruct (calc_inv _ _ _ _ _ _ Hcalc) as (exp_idx' & Hsel' & Hcase).
  fold e' in Hsel', Hcase.
  assert (exp_idx' = exp_idx) by congruence. subst exp_idx'.
  destruct Hcase as [[-> ->] | (_ & haz_imp' & st & prod & Hget' & Hloop & _ &
                               Heai & _ & Htot & _)].
  - split; [simpl; rewrite sum_nil; lra|].
    intros i cens icen Hin. destruct Hin.
  - assert (haz_imp' = haz_imp) by congruence. subst haz_imp'.
    split.
    + rewrite Htot, (groups_tot_value _ _ _ _ Hnd _ _ Hloop). simpl. lra.
    + intros i cens icen Hin Hm Hcens Hicen Hpos Hzero.
      split; [apply filter_In; split; assumption|].
      assert (Hquiet : forall f er im,
                 _one_exposure i e' h f = Ok (er, im) -> er = [] /\ im = []).
      { intros f er im. apply (one_exposure_quiet i e' h f cens icen); assumption. }
      split; [exact Hquiet|].
      rewrite Heai.
      apply (calc_loop_ind (fun s => nth i (eai_exp s) 0 == 0)
               _ _ _ _ _ _ Hloop).
      * simpl. rewrite nth_zeros. reflexivity.
      * intros f iexp s s' _ _ _ Hs Hadd.
        destruct (Nat.eq_dec i iexp) as [<-|Hne].
        -- rewrite (add_exposure_eai_quiet _ _ _ _ _ _ Hadd (Hquiet f)). exact Hs.
        -- rewrite (add_exposure_eai_other _ _ _ _ _ _ _ Hadd Hne). exact Hs.
Qed.

Lemma calc_tot_value_witness :
  exists imp,
    calc no_assign Impact_init two_exposures ex_impact_funcs two_centroid_hazard
      = Ok imp /\
    tot_value imp == 170 /\ nth 1 (eai_exp imp) 0 == 0.
Proof.
  eexists. split; [vm_compute; reflexivity|].
  destruct (calc_tot_value no_assign two_exposures ex_impact_funcs
              two_centroid_hazard
              _ [0; 1]%nat [ex_imp_fun] ltac:(vm_compute; reflexivity)
              eq_refl eq_refl)
    as [Htot Hquiet].
  - repeat constructor; simpl; tauto.
  - split.
    + rewrite Htot. reflexivity.
    + apply (Hquiet 1%nat [0%Z; 1%Z] 1%Z).
      * right; left; reflexivity.
      * reflexivity.
      * reflexivity.
      * reflexivity.
      * discriminate.
      * intros [|[|[|ev]]]; reflexivity.
Defined.

(* ------------------------------------------------------------------ *)
(** ** Exposures without an impact function *)

Lemma matched_true (e : Exposures) (haz_imp : list ImpactFunc) (f : ImpactFunc)
    (i : nat) :
  nth_error (impact_id e) i = Some (id f) -> In f haz_imp ->
  matched e haz_imp i = true.
Proof.
  intros Hid Hf. unfold matched. rewrite Hid.
  apply existsb_exists. exists (id f). split.
  - unfold fun_ids. apply in_map, Hf.
  - apply Z.eqb_refl.
Qed.

Lemma add_group_unmatched (e : Exposures) (h : Hazard) (exp_idx : list nat)
    (st : Impact) (f : ImpactFunc) :
  Forall (fun i => (i < length (impact_id e))%nat) exp_idx ->
  (forall i, In i exp_idx -> nth_error (impact_id e) i <> Some (id f)) ->
  add_group e h exp_idx st f = Ok st.
Proof.
  intros Hlt Hne. unfold add_group.
  rewrite (take_lt (impact_id e) 0%Z exp_idx Hlt). simpl.
  rewrite map_map.
  rewrite (take_where (fun i => Z.eqb (nth i (impact_id e) 0%Z) (id f)) exp_idx).
  simpl.
  assert (E : filter (fun i => Z.eqb (nth i (impact_id e) 0%Z) (id f)) exp_idx = []).
  { clear - Hlt Hne. induction exp_idx as [|i l IH]; simpl; [reflexivity|].
    inversion Hlt as [|? ? Hi Hl]; subst.
    destruct (Z.eqb_spec (nth i (impact_id e) 0%Z) (id f)) as [Heq|_].
    - exfalso. apply (Hne i (or_introl eq_refl)).
      rewrite <- Heq. apply nth_error_nth'. exact Hi.
    - apply IH; [exact Hl|]. intros k Hk. apply Hne. right. exact Hk. }
  rewrite E. reflexivity.
Qed.

Lemma groups_unmatched (e : Exposures) (h : Hazard) (exp_idx : list nat)
    (haz_imp : list ImpactFunc) (st : Impact) :
  Forall (fun i => (i < length (impact_id e))%nat) exp_idx ->
  (forall i, In i exp_idx -> matched e haz_imp i = false) ->
  for_each (add_group e h exp_idx) haz_imp st = Ok st.
Proof.
  intros Hlt Hun.
  assert (Hall : forall f, In f haz_imp ->
                           add_group e h exp_idx st f = Ok st).
  { intros f Hf. apply add_group_unmatched; [exact Hlt|].
    intros i Hi Hid. specialize (Hun i Hi).
    rewrite (matched_true e haz_imp f i Hid Hf) in Hun. discriminate Hun. }
  clear Hun. induction haz_imp as [|f rest IH]; simpl; [reflexivity|].
  rewrite (Hall f (or_introl eq_refl)). simpl.
  apply IH. intros g Hg. apply Hall. right. exact Hg.
Qed.

(** C4 (as stated, refuted). The exposure is selected, its [impact_id] 2
    is the id of no impact function of the hazard's type, and [calc]
    returns normally, with nothing counted. *)
Lemma missing_impact_function_counterexample :
  select_exposures unmatched_exposures ex_hazard = Ok [0%nat] /\
  get_func ex_impact_funcs (haz_type ex_hazard) = Ok [ex_imp_fun] /\
  matched unmatched_exposures [ex_imp_fun] 0 = false /\
  exists imp,
    calc no_assign Impact_init unmatched_exposures ex_impact_funcs ex_hazard
      = Ok imp /\
    at_event imp = [0; 0] /\ eai_exp imp = [0] /\
    tot_value imp = 0 /\ aai_agg imp == 0.
Proof.
  split; [reflexivity|]. split; [reflexivity|]. split; [reflexivity|].
  eexists. split; [vm_compute; reflexivity|]. repeat split.
Qed.

(** C4 (amended). A missing impact function is no error: the selected
    exposures whose [impact_id] is the id of no impact function of the
    hazard's type are skipped.  When no selected exposure has an impact
    function, [calc] (on a fresh [Impact], with arrays of matching
    lengths) returns normally with [at_event] and [eai_exp] all zero and
    [tot_value = aai_agg = 0]; and whenever [calc] returns, the [eai_exp]
    entry of an exposure without impact function is 0. *)
Theorem calc_skips_unmatched (assign : Exposures -> Hazard -> Exposures)
    (e : Exposures) (fs : ImpactFuncSet) (h : Hazard)
    (haz_imp : list ImpactFunc) :
  let e' := assign_if_needed assign e h in
  get_func fs (haz_type h) = Ok haz_imp ->
  (well_shaped e' h ->
   (forall exp_idx i, select_exposures e' h = Ok exp_idx -> In i exp_idx ->
                      matched e' haz_imp i = false) ->
   exists imp,
     calc assign Impact_init e fs h = Ok imp /\
     at_event imp = np.zeros (nrows (intensity h)) /\
     eai_exp imp = np.zeros (length (value e')) /\
     tot_value imp = 0 /\ aai_agg imp == 0) /\
  (forall imp i,
     calc assign Impact_init e fs h = Ok imp ->
     matched e' haz_imp i = false ->
     nth i (eai_exp imp) 0 == 0).
Proof.
  intros e' Hget. split.
  - intros (cens & Hcens & Hlen & Hids & Hfreq) Hun.
    destruct (select_exposures_Ok e' h cens Hcens Hlen)
      as (exp_idx & Hsel & _ & Hin).
    unfold calc. fold e'. rewrite Hsel. simpl.
    destruct exp_idx as [|i0 l] eqn:Eidx.
    + eexists. split; [reflexivity|]. simpl. repeat split.
    + rewrite <- Eidx in *. rewrite Hget. simpl.
      rewrite groups_unmatched.
      * simpl. rewrite broadcast2_same
          by (unfold np.zeros; rewrite repeat_length; congruence).
        simpl. eexists. split; [reflexivity|]. simpl. repeat split.
        apply dot_zeros.
      * apply Forall_forall. intros i Hi. apply Hin in Hi. lia.
      * intros i Hi. apply (Hun exp_idx i Hsel Hi).
  - intros imp i Hcalc Hun.
    destruct (calc_inv _ _ _ _ _ _ Hcalc) as (exp_idx & _ & Hcase).
    fold e' in Hcase.
    destruct Hcase as [[_ ->] | (_ & haz_imp' & st & prod & Hget' & Hloop & _ &
                                 Heai & _)].
    + simpl. rewrite nth_zeros. reflexivity.
    + assert (haz_imp' = haz_imp) by congruence. subst haz_imp'.
      rewrite Heai.
      apply (calc_loop_ind (fun s => nth i (eai_exp s) 0 == 0)
               _ _ _ _ _ _ Hloop).
      * simpl. rewrite nth_zeros. reflexivity.
      * intros f iexp s s' Hf _ Hid Hs Hadd.
        assert (Hne : i <> iexp).
        { intros ->. rewrite (matched_true e' haz_imp f iexp Hid Hf) in Hun.
          discriminate Hun. }
        rewrite (add_exposure_eai_other _ _ _ _ _ _ _ Hadd Hne). exact Hs.
Qed.

Lemma calc_skips_unmatched_witness :
  exists imp,
    calc no_assign Impact_init unmatched_exposures ex_impact_funcs ex_hazard
      = Ok imp /\
    tot_value imp = 0 /\ nth 0 (eai_exp imp) 0 == 0.
Proof.
  destruct (calc_skips_unmatched no_assign unmatched_exposures ex_impact_funcs
              ex_hazard [ex_imp_fun] eq_refl) as [Htotal Hskip].
  destruct Htotal as (imp & Hcalc & _ & _ & Htot & _).
  - exists [0%Z]. repeat split.
  - intros exp_idx i Hsel Hi. vm_compute in Hsel. injection Hsel as <-.
    destruct Hi as [<- | []]. reflexivity.
  - exists imp. split; [exact Hcalc|]. split; [exact Htot|].
    apply (Hskip imp 0%nat Hcalc). reflexivity.
Defined.

(* ------------------------------------------------------------------ *)
(** ** [calc] returns on valid input *)

Lemma column_in_range (m : matrix) (icen : Z) :
  (0 <= icen < Z.of_nat (ncols m))%Z ->
  column m icen = Ok (map (fun r => nth (Z.to_nat icen) r 0) (rows m)).
Proof.
  intros [H0 H1]. unfold column, col_index.
  rewrite (proj2 (Z.leb_le 0 icen) H0), (proj2 (Z.ltb_lt _ _) H1).
  reflexivity.
Qed.

Lemma put_total (a : list Q) (idx : list nat) (new : list Q) :
  Forall (fun i => (i < length a)%nat) idx -> length new = length idx ->
  exists a', np.put a idx new = Ok a'.
Proof.
  intros Hidx. revert a new Hidx.
  induction idx as [|i idx IH]; intros a [|n new] Hidx Hlen; simpl in *;
    try discriminate.
  - eexists; reflexivity.
  - inversion Hidx as [|? ? Hi Hrest]; subst.
    destruct (setitem_lt a i n Hi) as [a1 Ha1]. rewrite Ha1. simpl.
    apply IH; [|lia].
    destruct (setitem_Ok _ _ _ _ Ha1) as (_ & Hl & _). rewrite Hl. exact Hrest.
Qed.

Lemma iadd_at_total (a : list Q) (idx : list nat) (v : list Q) :
  Forall (fun i => (i < length a)%nat) idx -> length v = length idx ->
  exists a', np.iadd_at a idx v = Ok a'.
Proof.
  intros Hidx Hlen. unfold np.iadd_at.
  rewrite (take_lt a 0 idx Hidx). simpl.
  rewrite broadcast2_same by (rewrite length_map; congruence). simpl.
  apply put_total; [exact Hidx|].
  rewrite zip_with_length; rewrite length_map; congruence.
Qed.

Lemma iadd_item_total (a : list Q) (i : nat) (v : Q) :
  (i < length a)%nat -> exists a', np.iadd_item a i v = Ok a'.
Proof.
  intros Hi. unfold np.iadd_item. rewrite (getitem_lt 0 Hi). simpl.
  apply setitem_lt, Hi.
Qed.

Lemma one_exposure_total (iexp : nat) (e : Exposures) (h : Hazard)
    (f : ImpactFunc) (cens : list Z) (icen : Z) :
  dict_get (assigned e) (haz_type h) = Ok cens ->
  nth_error cens iexp = Some icen ->
  (0 <= icen < Z.of_nat (ncols (intensity h)))%Z ->
  ncols (fraction h) = ncols (intensity h) ->
  nrows (fraction h) = nrows (intensity h) ->
  (iexp < length (value e))%nat ->
  length (deductible e) = length (value e) ->
  length (cover e) = length (value e) ->
  wf_imp_fun f ->
  exists er imp, _one_exposure iexp e h f = Ok (er, imp).
Proof.
  intros Hcens Hicen Hrange Hcols Hrows Hi Hded Hcov (Hne & Hmdr & Hpaa).
  unfold _one_exposure, raw_impact.
  rewrite Hcens. cbn [bind].
  rewrite (proj2 (getitem_nth_error cens iexp icen) Hicen). cbn [bind].
  rewrite (column_in_range (intensity h) icen Hrange). cbn [bind].
  set (icol := map (fun r => nth (Z.to_nat icen) r 0) (rows (intensity h))).
  assert (Her : Forall (fun i => (i < length icol)%nat) (np.nonzero icol)).
  { unfold np.nonzero. rewrite <- (length_map Qnonzero icol). apply where_lt. }
  rewrite (take_lt icol 0 _ Her). cbn [bind].
  rewrite (column_in_range (fraction h) icen) by (rewrite Hcols; exact Hrange).
  cbn [bind].
  set (fcol := map (fun r => nth (Z.to_nat icen) r 0) (rows (fraction h))).
  assert (Hlen : length fcol = length icol).
  { unfold fcol, icol. rewrite !length_map. exact Hrows. }
  rewrite (take_lt fcol 0 (np.nonzero icol)) by (rewrite Hlen; exact Her).
  cbn [bind].
  rewrite (getitem_lt 0 Hi). cbn [bind].
  unfold calc_mdr. rewrite (interp_wf _ _ _ Hne Hmdr). cbn [bind].
  rewrite broadcast2_same by (rewrite !length_map; reflexivity). cbn [bind].
  match goal with
  | |- context [np.count_nonzero ?r] => set (raw := r)
  end.
  assert (Hraw : length raw = length (np.nonzero icol)).
  { unfold raw. rewrite zip_with_length; rewrite !length_map; reflexivity. }
  destruct (0 <? np.count_nonzero raw)%nat; [|eexists; eexists; reflexivity].
  rewrite (interp_wf _ _ _ Hne Hpaa). cbn [bind].
  rewrite (getitem_lt 0 (eq_ind_r (fun n => (iexp < n)%nat) Hi Hded)). cbn [bind].
  assert (Hclip : forall ded cov, exists imp',
             clip raw
               (map (np.interp1 (combine (fun_intensity f) (paa f)))
                    (map (fun i => nth i icol 0) (np.nonzero icol))) ded cov
             = Ok imp').
  { intros ded cov. unfold clip.
    rewrite broadcast2_same by (rewrite Hraw, !length_map; reflexivity).
    eexists. reflexivity. }
  rewrite (getitem_lt 0 (eq_ind_r (fun n => (iexp < n)%nat) Hi Hcov)).
  destruct (Qlt_bool 0 (nth iexp (deductible e) 0)); cbn [bind].
  - destruct (Hclip (nth iexp (deductible e) 0) (nth iexp (cover e) 0))
      as [imp' ->]. cbn [bind]. eexists; eexists; reflexivity.
  - destruct (Qlt_bool (nth iexp (cover e) 0) (nth iexp (value e) 0)).
    + destruct (Hclip (nth iexp (deductible e) 0) (nth iexp (cover e) 0))
        as [imp' ->]. cbn [bind]. eexists; eexists; reflexivity.
    + eexists; eexists; reflexivity.
Qed.

Lemma for_each_total [A S : Type] (body : S -> A -> result S) (I : S -> Prop)
    (l : list A) :
  (forall s x, In x l -> I s -> exists s', body s x = Ok s' /\ I s') ->
  forall st, I st -> exists st', for_each body l st = Ok st' /\ I st'.
Proof.
  induction l as [|x l IH]; intros Hstep st Hst; simpl.
  - exists st. split; [reflexivity | exact Hst].
  - destruct (Hstep st x (or_introl eq_refl) Hst) as (s1 & Hs1 & HI1).
    rewrite Hs1. simpl.
    apply IH; [|exact HI1].
    intros s y Hy. apply Hstep. right. exact Hy.
Qed.

Lemma add_exposure_total (e : Exposures) (h : Hazard) (f : ImpactFunc)
    (s : Impact) (iexp : nat) (cens : list Z) (icen : Z) :
  dict_get (assigned e) (haz_type h) = Ok cens ->
  nth_error cens iexp = Some icen ->
  (0 <= icen < Z.of_nat (ncols (intensity h)))%Z ->
  (iexp < length (value e))%nat ->
  valid_input e h [f] ->
  sized e h s ->
  exists s', add_exposure e h f s iexp = Ok s' /\ sized e h s'.
Proof.
  intros Hcens Hicen Hrange Hi (Hshape & Hded & Hcov & _ & Hcols & Hrows & Hwf)
         [Hat Heai].
  destruct Hshape as (cens' & _ & _ & _ & Hfreq).
  inversion Hwf as [|? ? Hf _]; subst.
  destruct (one_exposure_total iexp e h f cens icen Hcens Hicen Hrange Hcols
              Hrows Hi Hded Hcov Hf) as (er & imp & Hone).
  destruct (one_exposure_shape _ _ _ _ Hone) as (_ & Her & Hlen).
  assert (Hstep : exists s', add_exposure e h f s iexp = Ok s').
  { unfold add_exposure. rewrite Hone. cbn [bind].
    destruct (iadd_at_total (at_event s) er imp) as [at' ->];
      [rewrite Hat; exact Her | exact Hlen |]. cbn [bind].
    rewrite (take_lt (frequency h) 0 er) by (rewrite Hfreq; exact Her).
    cbn [bind].
    rewrite broadcast2_same by (rewrite length_map; exact Hlen). cbn [bind].
    match goal with
    | |- context [np.iadd_item ?a ?i ?v] =>
        destruct (iadd_item_total a i v) as [eai' ->]; [rewrite Heai; exact Hi|]
    end. cbn [bind].
    rewrite (getitem_lt 0 Hi). cbn [bind]. eexists. reflexivity. }
  destruct Hstep as [s' Hs']. exists s'. split; [exact Hs'|].
  destruct (add_exposure_conserves _ _ _ _ _ _ Hs') as (Hl1 & Hl2 & _).
  split; congruence.
Qed.

Lemma add_group_total (e : Exposures) (h : Hazard) (exp_idx : list nat)
    (s : Impact) (f : ImpactFunc) (cens : list Z) :
  dict_get (assigned e) (haz_type h) = Ok cens ->
  (forall i, In i exp_idx ->
             (i < length (value e))%nat /\ (0 <= nth i cens (-1))%Z) ->
  valid_input e h [f] ->
  sized e h s ->
  exists s', add_group e h exp_idx s f = Ok s' /\ sized e h s'.
Proof.
  intros Hcens Hin Hvalid Hs.
  pose proof Hvalid as (Hshape & _ & _ & Hcen & _).
  destruct Hshape as (cens' & Hcens' & Hlen & Hids & _).
  assert (cens' = cens) by congruence. subst cens'.
  unfold add_group.
  rewrite (take_lt (impact_id e) 0%Z exp_idx)
    by (apply Forall_forall; intros i Hi; apply Hin in Hi; lia).
  cbn [bind]. rewrite map_map.
  rewrite (take_where (fun i => Z.eqb (nth i (impact_id e) 0%Z) (id f)) exp_idx).
  cbn [bind].
  apply (for_each_total (add_exposure e h f) (sized e h)); [|exact Hs].
  intros s0 i Hi Hs0. apply filter_In in Hi. destruct Hi as [Hi _].
  destruct (Hin i Hi) as [Hlt Hpos].
  apply (add_exposure_total e h f s0 i cens (nth i cens (-1)%Z));
    try assumption.
  - apply nth_error_nth'. lia.
  - split; [exact Hpos|].
    specialize (Hcen cens Hcens). rewrite Forall_forall in Hcen.
    apply Hcen, nth_In. lia.
Qed.

(** On valid input [calc] returns a result. *)
Lemma calc_returns (assign : Exposures -> Hazard -> Exposures) (self : Impact)
    (e : Exposures) (fs : ImpactFuncSet) (h : Hazard)
    (haz_imp : list ImpactFunc) :
  get_func fs (haz_type h) = Ok haz_imp ->
  valid_input (assign_if_needed assign e h) h haz_imp ->
  exists imp, calc assign self e fs h = Ok imp.
Proof.
  intros Hget Hvalid. set (e' := assign_if_needed assign e h) in *.
  pose proof Hvalid as (Hshape & Hded & Hcov & Hcen & Hcols & Hrows & Hwf).
  destruct Hshape as (cens & Hcens & Hlen & Hids & Hfreq).
  destruct (select_exposures_Ok e' h cens Hcens Hlen)
    as (exp_idx & Hsel & _ & Hin).
  unfold calc. fold e'. rewrite Hsel. cbn [bind].
  destruct exp_idx as [|i0 l] eqn:Eidx; [eexists; reflexivity|].
  rewrite <- Eidx in *. rewrite Hget. cbn [bind].
  destruct (for_each_total (add_group e' h exp_idx) (sized e' h) haz_imp)
    with (st := calc_init self e' h) as (st & Hloop & Hat & _).
  - intros s f Hf Hs.
    apply (add_group_total e' h exp_idx s f cens Hcens); [| |exact Hs].
    + intros i Hi. apply Hin in Hi. tauto.
    + repeat split; try assumption.
      * exists cens. auto.
      * constructor; [|constructor].
        rewrite Forall_forall in Hwf. apply Hwf, Hf.
  - split; simpl; apply repeat_length.
  - rewrite Hloop. cbn [bind].
    rewrite broadcast2_same by congruence. cbn [bind].
    eexists. reflexivity.
Qed.

(* ------------------------------------------------------------------ *)
(** ** Conservation, on valid input *)

(** C1. Conservation: on valid input [calc] (on a fresh [Impact])
    returns a result, and for a hazard with one frequency per event every
    result of [calc] satisfies [sum(eai_exp) = aai_agg], in exact
    arithmetic. *)
Theorem calc_conservation (assign : Exposures -> Hazard -> Exposures)
    (e : Exposures) (fs : ImpactFuncSet) (h : Hazard) :
  (forall haz_imp,
      get_func fs (haz_type h) = Ok haz_imp ->
      valid_input (assign_if_needed assign e h) h haz_imp ->
      exists imp, calc assign Impact_init e fs h = Ok imp) /\
  (forall imp,
      length (frequency h) = nrows (intensity h) ->
      calc assign Impact_init e fs h = Ok imp ->
      np.sum (eai_exp imp) == aai_agg imp).
Proof.
  split; [intros haz_imp; apply calc_returns|].
  intros imp Hfreq Hcalc.
  destruct (calc_inv _ _ _ _ _ _ Hcalc) as (exp_idx & _ & Hcase).
  set (e' := assign_if_needed assign e h) in *.
  destruct Hcase as [[_ ->] | (_ & haz_imp & st & prod & _ & Hloop & Hprod &
                               Heai & Hat & _ & Haai)].
  - simpl. apply sum_zeros.
  - assert (Hinv : length (at_event st) = nrows (intensity h) /\
                   np.sum (eai_exp st) == dot (at_event st) (frequency h)).
    { apply (calc_loop_ind
               (fun s => length (at_event s) = nrows (intensity h) /\
                         np.sum (eai_exp s) == dot (at_event s) (frequency h))
               _ _ _ _ _ _ Hloop).
      - simpl. split; [apply repeat_length|].
        rewrite sum_zeros, dot_zeros. reflexivity.
      - intros f iexp s s' _ _ _ [Hl Hs] Hadd.
        destruct (add_exposure_conserves _ _ _ _ _ _ Hadd) as (Hl' & _ & Hs').
        split; [congruence | apply Hs', Hs]. }
    destruct Hinv as [Hl Hs].
    rewrite broadcast2_same in Hprod by congruence.
    injection Hprod as <-. rewrite Heai, Haai. exact Hs.
Qed.

Lemma calc_conservation_witness :
  valid_input ex_exposures ex_hazard [ex_imp_fun] /\
  exists imp,
    calc no_assign Impact_init ex_exposures ex_impact_funcs ex_hazard = Ok imp /\
    np.sum (eai_exp imp) == aai_agg imp.
Proof.
  assert (Hvalid : valid_input ex_exposures ex_hazard [ex_imp_fun]).
  { split; [exists [0%Z]; repeat split|].
    repeat split; try reflexivity.
    - intros cens H. injection H as <-. repeat constructor.
    - repeat constructor; discriminate. }
  split; [exact Hvalid|].
  destruct (calc_conservation no_assign ex_exposures ex_impact_funcs ex_hazard)
    as [Hreturns Hsum].
  destruct (Hreturns [ex_imp_fun] eq_refl Hvalid) as [imp Hcalc].
  exists imp. split; [exact Hcalc|].
  apply Hsum; [reflexivity | exact Hcalc].
Defined.

(* ------------------------------------------------------------------ *)
(** ** Relevant events, on valid input *)

(** C6. Relevant events and raw impact: for an exposure with assigned
    centroid [icen >= 0], [_one_exposure] returns a result when the
    centroid is one of the hazard's, the arrays have matching lengths and
    the impact function has breakpoints; the event indices it returns are
    exactly the events whose intensity at column [icen] is not zero, in
    increasing order; the impact before clipping is, for each of them,
    value x interpolated mdr at that intensity x fraction at the same
    cell; and replacing the fraction matrix by one of the same shape that
    agrees with it where the intensity at that centroid is not zero
    leaves the result of [_one_exposure] unchanged. *)
Theorem one_exposure_relevant_events (iexp : nat) (e : Exposures) (h : Hazard)
    (f : ImpactFunc) (cens : list Z) (icen : Z) :
  dict_get (assigned e) (haz_type h) = Ok cens ->
  nth_error cens iexp = Some icen -> (0 <= icen)%Z ->
  let j := Z.to_nat icen in
  ((icen < Z.of_nat (ncols (intensity h)))%Z ->
   ncols (fraction h) = ncols (intensity h) ->
   nrows (fraction h) = nrows (intensity h) ->
   (iexp < length (value e))%nat ->
   length (deductible e) = length (value e) ->
   length (cover e) = length (value e) ->
   wf_imp_fun f ->
   exists er imp, _one_exposure iexp e h f = Ok (er, imp)) /\
  forall er imp,
    _one_exposure iexp e h f = Ok (er, imp) ->
    er = relevant_events h j /\
    (forall i, In i er <->
               (i < nrows (intensity h))%nat /\ ~ cell (intensity h) i j == 0) /\
    (exists v iv,
        nth_error (value e) iexp = Some v /\
        raw_impact iexp e h f =
          Ok (er, iv,
              map (fun i => v * mdr_at f (cell (intensity h) i j)
                            * cell (fraction h) i j) er)) /\
    (forall F',
        nrows F' = nrows (fraction h) -> ncols F' = ncols (fraction h) ->
        (forall i, ~ cell (intensity h) i j == 0 ->
                   cell F' i j = cell (fraction h) i j) ->
        _one_exposure iexp e (with_fraction h F') f = Ok (er, imp)).
Proof.
  intros Hcens Hicen Hpos j. split.
  - intros Hlt Hcols Hrows Hi Hded Hcov Hwf.
    apply (one_exposure_total iexp e h f cens icen); auto.
  - intros er imp Hone.
    destruct (one_exposure_inv _ _ _ _ Hone) as (iv & raw & Hraw & _).
    destruct (raw_impact_inv _ _ _ _ Hraw)
      as (cens' & icen' & j1 & j2 & v & Hc' & Hi' & Hj1 & Hj2 & Hv & Her & _ & Hr).
    assert (cens' = cens) by congruence. subst cens'.
    assert (icen' = icen) by congruence. subst icen'.
    assert (j1 = j) by (apply (col_index_nonneg _ _ _ Hpos Hj1)).
    assert (j2 = j) by (apply (col_index_nonneg _ _ _ Hpos Hj2)).
    subst j1 j2.
    split; [exact Her|].
    split; [intros i; rewrite Her; apply relevant_events_In|].
    split.
    + exists v, iv. split; [exact Hv|]. rewrite Hraw, Hr. reflexivity.
    + intros F' Hrows Hcols Hagree. rewrite <- Hone. unfold _one_exposure.
      rewrite (raw_impact_fraction iexp e h f F' cens icen); auto.
Qed.

Lemma one_exposure_relevant_events_witness :
  exists er imp,
    _one_exposure 0 ins_exposures ex_hazard ex_imp_fun = Ok (er, imp) /\
    er = relevant_events ex_hazard 0.
Proof.
  destruct (one_exposure_relevant_events 0 ins_exposures ex_hazard ex_imp_fun
              [0%Z] 0%Z eq_refl eq_refl ltac:(discriminate))
    as [Hreturns Hevents].
  destruct Hreturns as (er & imp & Hone);
    try reflexivity; try (simpl; lia).
  - repeat split; discriminate.
  - exists er, imp. split; [exact Hone|].
    apply (Hevents er imp Hone).
Defined.

(* ------------------------------------------------------------------ *)
(** ** The shape of the result of [calc] *)

(** The fields of a result of [calc], through the loop. *)
Lemma calc_result_fields (assign : Exposures -> Hazard -> Exposures)
    (self : Impact) (e : Exposures) (fs : ImpactFuncSet) (h : Hazard)
    (imp : Impact) :
  let e' := assign_if_needed assign e h in
  calc assign self e fs h = Ok imp ->
  length (at_event imp) = nrows (intensity h) /\
  length (eai_exp imp) = length (value e') /\
  imp_frequency imp = frequency h /\
  imp_event_id imp = event_id h /\
  unit imp = value_unit e'.
Proof.
  intros e' Hcalc. unfold calc in Hcalc. fold e' in Hcalc.
  destruct (bind_Ok Hcalc) as (exp_idx & _ & H1). clear Hcalc.
  assert (Hinit : sized e' h (calc_init self e' h) /\
                  imp_frequency (calc_init self e' h) = frequency h /\
                  imp_event_id (calc_init self e' h) = event_id h /\
                  unit (calc_init self e' h) = value_unit e').
  { repeat split; simpl; apply repeat_length. }
  destruct exp_idx as [|i0 l].
  - injection H1 as <-. destruct Hinit as ([Ha Hb] & Hc & Hd & He). auto.
  - destruct (bind_Ok H1) as (haz_imp & _ & H2). clear H1.
    destruct (bind_Ok H2) as (st & Hloop & H3). clear H2.
    destruct (bind_Ok H3) as (prod & _ & H4). clear H3.
    injection H4 as <-. simpl.
    assert (Hst : sized e' h st /\ imp_frequency st = frequency h /\
                  imp_event_id st = event_id h /\ unit st = value_unit e').
    { apply (calc_loop_ind
               (fun s => sized e' h s /\ imp_frequency s = frequency h /\
                         imp_event_id s = event_id h /\
                         unit s = value_unit e')
               _ _ _ _ _ _ Hloop Hinit).
      intros f iexp s s' _ _ _ ([Ha Hb] & Hc & Hd & He) Hadd.
      destruct (add_exposure_conserves _ _ _ _ _ _ Hadd) as (Hl1 & Hl2 & _).
      destruct (add_exposure_inv _ _ _ _ _ _ Hadd)
        as (er & im & v & _ & _ & _ & _ & _ & _ & Hf & Hid & Hu).
      repeat split; congruence. }
    destruct Hst as ([Ha Hb] & Hc & Hd & He). auto.
Qed.

(** X1. Whatever the input, a result of [calc] has one [at_event] entry
    per event of the hazard and one [eai_exp] entry per exposure, and
    carries the hazard's frequencies and event ids and the exposures'
    value unit. *)
Theorem calc_result_shape (assign : Exposures -> Hazard -> Exposures)
    (self : Impact) (e : Exposures) (fs : ImpactFuncSet) (h : Hazard)
    (imp : Impact) :
  let e' := assign_if_needed assign e h in
  calc assign self e fs h = Ok imp ->
  length (at_event imp) = nrows (intensity h) /\
  length (eai_exp imp) = length (value e') /\
  imp_frequency imp = frequency h /\
  imp_event_id imp = event_id h /\
  unit imp = value_unit e'.
Proof.
  intros e' Hcalc. apply (calc_result_fields assign self e fs h imp Hcalc).
Qed.

Lemma calc_result_shape_witness :
  exists imp,
    calc no_assign Impact_init two_exposures ex_impact_funcs two_centroid_hazard
      = Ok imp /\
    length (at_event imp) = 2%nat /\ length (eai_exp imp) = 2%nat.
Proof.
  eexists. split; [vm_compute; reflexivity|].
  destruct (calc_result_shape no_assign Impact_init two_exposures
              ex_impact_funcs two_centroid_hazard _
              ltac:(vm_compute; reflexivity)) as (Ha & Hb & _).
  split; [exact Ha | exact Hb].
Defined.

(* ------------------------------------------------------------------ *)
(** ** Exposures that are not selected *)

(** X2. An exposure with value <= 0, or without assigned centroid
    (negative), keeps an [eai_exp] of exactly 0 in every result of
    [calc] on arrays with one centroid per exposure. *)
Theorem calc_unselected_eai_zero (assign : Exposures -> Hazard -> Exposures)
    (self : Impact) (e : Exposures) (fs : ImpactFuncSet) (h : Hazard)
    (imp : Impact) (cens : list Z) (i : nat) :
  let e' := assign_if_needed assign e h in
  calc assign self e fs h = Ok imp ->
  dict_get (assigned e') (haz_type h) = Ok cens ->
  length cens = length (value e') ->
  nth i (value e') 0 <= 0 \/ (nth i cens (-1) < 0)%Z ->
  nth i (eai_exp imp) 0 = 0.
Proof.
  intros e' Hcalc Hcens Hlen Hout.
  destruct (select_exposures_Ok e' h cens Hcens Hlen)
    as (exp_idx & Hsel & _ & Hin).
  assert (Hnotin : ~ In i exp_idx).
  { intros Hi. apply Hin in Hi. destruct Hi as (_ & Hv & Hc).
    destruct Hout as [Hout | Hout]; [lra | lia]. }
  destruct (calc_inv _ _ _ _ _ _ Hcalc) as (exp_idx' & Hsel' & Hcase).
  fold e' in Hsel', Hcase.
  assert (exp_idx' = exp_idx) by congruence. subst exp_idx'.
  destruct Hcase as [[_ ->] | (_ & haz_imp & st & prod & _ & Hloop & _ &
                               Heai & _)].
  - simpl. apply nth_zeros.
  - rewrite Heai.
    apply (calc_loop_ind (fun s => nth i (eai_exp s) 0 = 0)
             _ _ _ _ _ _ Hloop).
    + simpl. apply nth_zeros.
    + intros f iexp s s' _ Hiexp _ Hs Hadd.
      assert (Hne : i <> iexp) by (intros ->; contradiction).
      rewrite (add_exposure_eai_other _ _ _ _ _ _ _ Hadd Hne). exact Hs.
Qed.

Lemma calc_unselected_eai_zero_witness :
  exists imp,
    calc no_assign Impact_init mixed_exposures ex_impact_funcs ex_hazard = Ok imp /\
    nth 1 (eai_exp imp) 0 = 0.
Proof.
  eexists. split; [vm_compute; reflexivity|].
  apply (calc_unselected_eai_zero no_assign Impact_init mixed_exposures
           ex_impact_funcs ex_hazard _ [0%Z; 0%Z] 1).
  - vm_compute. reflexivity.
  - reflexivity.
  - reflexivity.
  - left. simpl. discriminate.
Defined.

(* ------------------------------------------------------------------ *)
(** ** The expected annual impact of one exposure *)

Lemma exposures_eai_other (e : Exposures) (h : Hazard) (f : ImpactFunc)
    (i : nat) (l : list nat) :
  ~ In i l ->
  forall st st',
    for_each (add_exposure e h f) l st = Ok st' ->
    nth i (eai_exp st') 0 = nth i (eai_exp st) 0.
Proof.
  induction l as [|k l IH]; intros Hnotin st st' H; simpl in H.
  - injection H as <-. reflexivity.
  - destruct (bind_Ok H) as (s1 & Hs1 & Hrest). clear H.
    rewrite (IH (fun Hi => Hnotin (or_intror Hi)) _ _ Hrest).
    apply (add_exposure_eai_other _ _ _ _ _ _ _ Hs1).
    intros ->. apply Hnotin. left. reflexivity.
Qed.

Lemma add_exposure_eai_self (e : Exposures) (h : Hazard) (f : ImpactFunc)
    (s : Impact) (i : nat) (s' : Impact) (r : list nat * list Q) :
  add_exposure e h f s i = Ok s' ->
  _one_exposure i e h f = Ok r ->
  nth i (eai_exp s') 0 == nth i (eai_exp s) 0 + annual_impact h r.
Proof.
  intros H Hone.
  destruct (add_exposure_inv _ _ _ _ _ _ H)
    as (er & imp & v & Hone' & _ & Heai & _).
  assert (r = (er, imp)) by congruence. subst r.
  destruct (iadd_item_Ok _ _ _ _ Heai) as (_ & _ & Hnth).
  rewrite Hnth, Nat.eqb_refl. unfold annual_impact. simpl. reflexivity.
Qed.

Lemma exposures_eai_self (e : Exposures) (h : Hazard) (f : ImpactFunc)
    (i : nat) (r : list nat * list Q) (l : list nat) :
  NoDup l -> In i l -> _one_exposure i e h f = Ok r ->
  forall st st',
    for_each (add_exposure e h f) l st = Ok st' ->
    nth i (eai_exp st') 0 == nth i (eai_exp st) 0 + annual_impact h r.
Proof.
  intros Hnd Hin Hone. induction l as [|k l IH]; [destruct Hin|].
  intros st st' H. simpl in H.
  destruct (bind_Ok H) as (s1 & Hs1 & Hrest). clear H.
  inversion Hnd as [|? ? Hnotin Hnd']; subst.
  destruct (Nat.eq_dec k i) as [->|Hne].
  - rewrite (exposures_eai_other e h f i l Hnotin _ _ Hrest).
    apply (add_exposure_eai_self _ _ _ _ _ _ _ Hs1 Hone).
  - destruct Hin as [Heq|Hin]; [contradiction|].
    rewrite (IH Hnd' Hin _ _ Hrest).
    rewrite (add_exposure_eai_other e h f st k s1 i Hs1) by congruence.
    reflexivity.
Qed.

Lemma groups_eai_other (e : Exposures) (h : Hazard) (exp_idx : list nat)
    (i : nat) (haz_imp : list ImpactFunc) :
  (forall g, In g haz_imp -> nth_error (impact_id e) i <> Some (id g)) ->
  forall st st',
    for_each (add_group e h exp_idx) haz_imp st = Ok st' ->
    nth i (eai_exp st') 0 = nth i (eai_exp st) 0.
Proof.
  induction haz_imp as [|g rest IH]; intros Hne st st' H; simpl in H.
  - injection H as <-. reflexivity.
  - destruct (bind_Ok H) as (s1 & Hs1 & Hrest). clear H.
    rewrite (IH (fun g' Hg' => Hne g' (or_intror Hg')) _ _ Hrest).
    destruct (add_group_inv _ _ _ _ _ _ Hs1) as [Hlt Hinner].
    apply (exposures_eai_other e h g i (group_of e exp_idx g)); [|exact Hinner].
    intros Hi. apply (group_of_In _ _ _ _ Hlt) in Hi.
    apply (Hne g (or_introl eq_refl)), Hi.
Qed.

Lemma groups_eai_self (e : Exposures) (h : Hazard) (exp_idx : list nat)
    (i : nat) (f : ImpactFunc) (r : list nat * list Q)
    (haz_imp : list ImpactFunc) :
  NoDup (fun_ids haz_imp) -> NoDup exp_idx -> In i exp_idx ->
  In f haz_imp -> nth_error (impact_id e) i = Some (id f) ->
  _one_exposure i e h f = Ok r ->
  forall st st',
    for_each (add_group e h exp_idx) haz_imp st = Ok st' ->
    nth i (eai_exp st') 0 == nth i (eai_exp st) 0 + annual_impact h r.
Proof.
  intros Hnd Hnd' Hi Hf Hid Hone.
  induction haz_imp as [|g rest IH]; [destruct Hf|].
  intros st st' H. simpl in H.
  destruct (bind_Ok H) as (s1 & Hs1 & Hrest). clear H.
  inversion Hnd as [|? ? Hnotin Hndr]; subst.
  destruct (add_group_inv _ _ _ _ _ _ Hs1) as [Hlt Hinner].
  destruct Hf as [->|Hf].
  - assert (Hother : forall g', In g' rest ->
                                nth_error (impact_id e) i <> Some (id g')).
    { intros g' Hg' Heq. apply Hnotin.
      assert (id g' = id f) by congruence.
      unfold fun_ids. rewrite <- H. apply in_map, Hg'. }
    rewrite (groups_eai_other e h exp_idx i rest Hother _ _ Hrest).
    apply (exposures_eai_self e h f i r (group_of e exp_idx f));
      [apply NoDup_filter, Hnd' | | exact Hone | exact Hinner].
    apply filter_In. split; [exact Hi|].
    apply Z.eqb_eq. apply (nth_error_nth _ _ 0%Z) in Hid. exact Hid.
  - rewrite (IH Hndr Hf _ _ Hrest).
    assert (Hne : id g <> id f).
    { intros Heq. apply Hnotin. rewrite Heq. unfold fun_ids.
      apply in_map, Hf. }
    rewrite (exposures_eai_other e h g i (group_of e exp_idx g)
               ltac:(intros Hin; apply (group_of_In _ _ _ _ Hlt) in Hin;
                     destruct Hin as [_ Hin]; congruence) _ _ Hinner).
    reflexivity.
Qed.

(** X3. Expected annual impact: for impact functions with distinct ids
    and arrays with one centroid per exposure, the [eai_exp] entry of a
    selected exposure whose [impact_id] is the id of the impact function
    [f] is [sum(impact * frequency[event_row])] for the
    [(event_row, impact)] that [_one_exposure] returns for it: it is
    counted once. *)
Theorem calc_eai_exp_formula (assign : Exposures -> Hazard -> Exposures)
    (e : Exposures) (fs : ImpactFuncSet) (h : Hazard) (imp : Impact)
    (cens : list Z) (haz_imp : list ImpactFunc) (f : ImpactFunc) (i : nat)
    (r : list nat * list Q) :
  let e' := assign_if_needed assign e h in
  calc assign Impact_init e fs h = Ok imp ->
  dict_get (assigned e') (haz_type h) = Ok cens ->
  length cens = length (value e') ->
  get_func fs (haz_type h) = Ok haz_imp ->
  NoDup (fun_ids haz_imp) ->
  (i < length (value e'))%nat -> 0 < nth i (value e') 0 ->
  (0 <= nth i cens (-1))%Z ->
  In f haz_imp -> nth_error (impact_id e') i = Some (id f) ->
  _one_exposure i e' h f = Ok r ->
  nth i (eai_exp imp) 0 == annual_impact h r.
Proof.
  intros e' Hcalc Hcens Hlen Hget Hnd Hi Hv Hc Hf Hid Hone.
  destruct (select_exposures_Ok e' h cens Hcens Hlen)
    as (exp_idx & Hsel & Hnd' & Hin).
  assert (Hiexp : In i exp_idx) by (apply Hin; auto).
  destruct (calc_inv _ _ _ _ _ _ Hcalc) as (exp_idx' & Hsel' & Hcase).
  fold e' in Hsel', Hcase.
  assert (exp_idx' = exp_idx) by congruence. subst exp_idx'.
  destruct Hcase as [[-> _] | (_ & haz_imp' & st & prod & Hget' & Hloop & _ &
                               Heai & _)]; [destruct Hiexp|].
  assert (haz_imp' = haz_imp) by congruence. subst haz_imp'.
  rewrite Heai.
  rewrite (groups_eai_self e' h exp_idx i f r haz_imp Hnd Hnd' Hiexp Hf Hid
             Hone _ _ Hloop).
  simpl. rewrite nth_zeros. lra.
Qed.

Lemma calc_eai_exp_formula_witness :
  exists imp,
    calc no_assign Impact_init ins_exposures ex_impact_funcs ex_hazard = Ok imp /\
    nth 0 (eai_exp imp) 0 == (40 * (1 # 10) + 40 * (1 # 100)).
Proof.
  eexists. split; [vm_compute; reflexivity|].
  rewrite (calc_eai_exp_formula no_assign ins_exposures ex_impact_funcs
             ex_hazard _ [0%Z] [ex_imp_fun] ex_imp_fun 0
             ([0; 1]%nat, [40; 40])).
  - vm_compute. reflexivity.
  - vm_compute. reflexivity.
  - reflexivity.
  - reflexivity.
  - reflexivity.
  - repeat constructor; simpl; tauto.
  - simpl. lia.
  - reflexivity.
  - discriminate.
  - left. reflexivity.
  - reflexivity.
  - vm_compute. reflexivity.
Defined.

(* ------------------------------------------------------------------ *)
(** ** Events without intensity *)

Lemma put_other (k : nat) (idx : list nat) :
  ~ In k idx ->
  forall (a new a' : list Q),
    np.put a idx new = Ok a' -> nth k a' 0 = nth k a 0.
Proof.
  induction idx as [|i idx IH]; intros Hnotin a [|n new] a' H; simpl in H;
    try discriminate H.
  - injection H as <-. reflexivity.
  - destruct (bind_Ok H) as (a1 & Ha1 & Hrest). clear H.
    rewrite (IH (fun Hk => Hnotin (or_intror Hk)) _ _ _ Hrest).
    destruct (setitem_Ok _ _ _ _ Ha1) as (_ & _ & Hnth).
    rewrite Hnth. destruct (Nat.eqb_spec k i) as [->|_]; [|reflexivity].
    exfalso. apply Hnotin. left. reflexivity.
Qed.

Lemma iadd_at_other (a : list Q) (idx : list nat) (v a' : list Q) (k : nat) :
  np.iadd_at a idx v = Ok a' -> ~ In k idx -> nth k a' 0 = nth k a 0.
Proof.
  unfold np.iadd_at. intros H Hnotin.
  destruct (bind_Ok H) as (old & _ & H1). clear H.
  destruct (bind_Ok H1) as (new & _ & Hput). clear H1.
  apply (put_other k idx Hnotin _ _ _ Hput).
Qed.

Lemma one_exposure_events (iexp : nat) (e : Exposures) (h : Hazard)
    (f : ImpactFunc) (er : list nat) (imp : list Q) :
  _one_exposure iexp e h f = Ok (er, imp) ->
  exists j, er = relevant_events h j.
Proof.
  intros Hone.
  destruct (one_exposure_inv _ _ _ _ Hone) as (iv & raw & Hraw & _).
  destruct (raw_impact_inv _ _ _ _ Hraw)
    as (cens & icen & j & j' & v & _ & _ & _ & _ & _ & Her & _).
  exists j. exact Her.
Qed.

(** X4. An event whose intensity is zero at every centroid has an
    [at_event] of exactly 0 in every result of [calc]. *)
Theorem calc_at_event_no_intensity (assign : Exposures -> Hazard -> Exposures)
    (self : Impact) (e : Exposures) (fs : ImpactFuncSet) (h : Hazard)
    (imp : Impact) (ev : nat) :
  calc assign self e fs h = Ok imp ->
  (forall j, cell (intensity h) ev j == 0) ->
  nth ev (at_event imp) 0 = 0.
Proof.
  intros Hcalc Hzero.
  destruct (calc_inv _ _ _ _ _ _ Hcalc) as (exp_idx & _ & Hcase).
  destruct Hcase as [[_ ->] | (_ & haz_imp & st & prod & _ & Hloop & _ &
                               _ & Hat & _)].
  - simpl. apply nth_zeros.
  - rewrite Hat.
    apply (calc_loop_ind (fun s => nth ev (at_event s) 0 = 0)
             _ _ _ _ _ _ Hloop).
    + simpl. apply nth_zeros.
    + intros f iexp s s' _ _ _ Hs Hadd.
      destruct (add_exposure_inv _ _ _ _ _ _ Hadd)
        as (er & im & v & Hone & Hiadd & _).
      destruct (one_exposure_events _ _ _ _ _ _ Hone) as [j Her].
      rewrite (iadd_at_other _ _ _ _ ev Hiadd); [exact Hs|].
      rewrite Her. intros Hin. apply relevant_events_In in Hin.
      apply (proj2 Hin), Hzero.
Qed.

Lemma calc_at_event_no_intensity_witness :
  exists imp,
    calc no_assign Impact_init ex_exposures ex_impact_funcs calm_event_hazard
      = Ok imp /\
    nth 2 (at_event imp) 0 = 0.
Proof.
  eexists. split; [vm_compute; reflexivity|].
  apply (calc_at_event_no_intensity no_assign Impact_init ex_exposures
           ex_impact_funcs calm_event_hazard _ 2).
  - vm_compute. reflexivity.
  - intros [|j]; [reflexivity | destruct j; reflexivity].
Defined.

(* ------------------------------------------------------------------ *)
(** ** [calc] on a used [Impact] *)

Lemma for_each_sim [A S : Type] (body : S -> A -> result S) (g : S -> S)
    (l : list A) :
  (forall s x, body (g s) x = bind (body s x) (fun s' => Ok (g s'))) ->
  forall st,
    for_each body l (g st) = bind (for_each body l st) (fun s' => Ok (g s')).
Proof.
  intros Hsim. induction l as [|x l IH]; intros st; simpl; [reflexivity|].
  rewrite Hsim. destruct (body st x) as [s1|ex]; simpl; [apply IH | reflexivity].
Qed.

Lemma add_exposure_set_aai (e : Exposures) (h : Hazard) (f : ImpactFunc)
    (a : Q) (s : Impact) (iexp : nat) :
  add_exposure e h f (set_aai s a) iexp =
  bind (add_exposure e h f s iexp) (fun s' => Ok (set_aai s' a)).
Proof.
  unfold add_exposure.
  destruct (_one_exposure iexp e h f) as [[er im]|ex]; [|reflexivity].
  cbn [bind set_aai at_event eai_exp tot_value].
  destruct (np.iadd_at (at_event s) er im) as [at'|ex]; [|reflexivity].
  cbn [bind].
  destruct (np.take (frequency h) er) as [fr|ex]; [|reflexivity].
  cbn [bind].
  destruct (np.broadcast2 Qmult im fr) as [prod|ex]; [|reflexivity].
  cbn [bind].
  destruct (np.iadd_item (eai_exp s) iexp (np.sum prod)) as [eai'|ex];
    [|reflexivity].
  cbn [bind].
  destruct (np.getitem (value e) iexp) as [v|ex]; reflexivity.
Qed.

Lemma add_group_set_aai (e : Exposures) (h : Hazard) (exp_idx : list nat)
    (a : Q) (s : Impact) (f : ImpactFunc) :
  add_group e h exp_idx (set_aai s a) f =
  bind (add_group e h exp_idx s f) (fun s' => Ok (set_aai s' a)).
Proof.
  unfold add_group.
  destruct (np.take (impact_id e) exp_idx) as [ids|ex]; [|reflexivity].
  cbn [bind].
  destruct (np.take exp_idx _) as [sel|ex]; [|reflexivity].
  cbn [bind].
  apply (for_each_sim (add_exposure e h f) (fun s0 => set_aai s0 a)).
  intros s0 x. apply add_exposure_set_aai.
Qed.

(** X5. A used [Impact] is reset, but for one field on one path: when
    some exposure is selected the result of [calc] does not depend on the
    object it is called on; when none is selected, [calc] returns the
    zero result with the [aai_agg] the object had before
    (line 163 returns before line 190 assigns it). *)
Theorem calc_on_used_impact (assign : Exposures -> Hazard -> Exposures)
    (self : Impact) (e : Exposures) (fs : ImpactFuncSet) (h : Hazard)
    (exp_idx : list nat) :
  let e' := assign_if_needed assign e h in
  select_exposures e' h = Ok exp_idx ->
  (exp_idx <> [] ->
   calc assign self e fs h = calc assign Impact_init e fs h) /\
  (exp_idx = [] ->
   calc assign self e fs h =
     Ok (set_aai (calc_init Impact_init e' h) (aai_agg self))).
Proof.
  intros e' Hsel. split.
  - intros Hne. unfold calc. fold e'. rewrite Hsel. cbn [bind].
    destruct exp_idx as [|i0 l]; [contradiction|].
    destruct (get_func fs (haz_type h)) as [haz_imp|ex]; [|reflexivity].
    cbn [bind].
    change (calc_init self e' h)
      with (set_aai (calc_init Impact_init e' h) (aai_agg self)).
    rewrite (for_each_sim (add_group e' h (i0 :: l))
               (fun s0 => set_aai s0 (aai_agg self)))
      by (intros s0 f; apply add_group_set_aai).
    destruct (for_each (add_group e' h (i0 :: l)) haz_imp
                (calc_init Impact_init e' h)) as [st|ex]; [|reflexivity].
    cbn [bind set_aai at_event].
    destruct (np.broadcast2 Qmult (at_event st) (frequency h)); reflexivity.
  - intros ->. unfold calc. fold e'. rewrite Hsel. reflexivity.
Qed.

Lemma calc_on_used_impact_witness :
  calc no_assign zero_freq_impact ex_exposures ex_impact_funcs ex_hazard =
  calc no_assign Impact_init ex_exposures ex_impact_funcs ex_hazard /\
  exists imp,
    calc no_assign zero_freq_impact zero_exposures ex_impact_funcs ex_hazard
      = Ok imp /\
    aai_agg imp = 5.
Proof.
  split.
  - apply (proj1 (calc_on_used_impact no_assign zero_freq_impact ex_exposures
                    ex_impact_funcs ex_hazard [0%nat] eq_refl)).
    discriminate.
  - eexists. split.
    + apply (proj2 (calc_on_used_impact no_assign zero_freq_impact
                      zero_exposures ex_impact_funcs ex_hazard [] eq_refl)).
      reflexivity.
    + reflexivity.
Defined.

(* ------------------------------------------------------------------ *)
(** ** The assignment of centroids *)

Lemma dict_get_not_mem [V : Type] (d : list (string * V)) (key : string) :
  dict_mem d key = false -> dict_get d key = Raise KeyError.
Proof.
  unfold dict_mem. induction d as [|[k v] d IH]; simpl; intros H.
  - reflexivity.
  - apply orb_false_iff in H. destruct H as [Hk Hd].
    rewrite Hk. apply IH, Hd.
Qed.

Lemma assign_if_needed_mem (assign : Exposures -> Hazard -> Exposures)
    (e : Exposures) (h : Hazard) :
  assign_if_needed assign e h =
  if dict_mem (assigned e) (haz_type h) then e else assign e h.
Proof.
  unfold assign_if_needed. destruct (assigned e) as [|kv d]; [reflexivity|].
  destruct (dict_mem (kv :: d) (haz_type h)); reflexivity.
Qed.

(** X6. The assignment is called only when needed: for exposures that
    have centroids for the hazard's type, [calc] leaves them as they are
    and its result does not depend on the collaborator; otherwise [calc]
    is [calc] on the exposures that the collaborator returns, taken as
    they are. *)
Theorem calc_assign_when_needed (assign : Exposures -> Hazard -> Exposures)
    (self : Impact) (e : Exposures) (fs : ImpactFuncSet) (h : Hazard) :
  (dict_mem (assigned e) (haz_type h) = true ->
   calc assign self e fs h = calc no_assign self e fs h) /\
  (dict_mem (assigned e) (haz_type h) = false ->
   calc assign self e fs h = calc no_assign self (assign e h) fs h).
Proof.
  assert (Hno : forall x, assign_if_needed no_assign x h = x).
  { intros x. rewrite assign_if_needed_mem.
    destruct (dict_mem (assigned x) (haz_type h)); reflexivity. }
  split; intros Hmem; unfold calc; rewrite Hno, assign_if_needed_mem, Hmem;
    reflexivity.
Qed.

Lemma calc_assign_when_needed_witness :
  calc assign_centroid_0 Impact_init ex_exposures ex_impact_funcs ex_hazard =
  calc no_assign Impact_init ex_exposures ex_impact_funcs ex_hazard /\
  calc assign_centroid_0 Impact_init flood_exposures ex_impact_funcs ex_hazard =
  calc no_assign Impact_init (assign_centroid_0 flood_exposures ex_hazard)
       ex_impact_funcs ex_hazard.
Proof.
  split.
  - apply (proj1 (calc_assign_when_needed assign_centroid_0 Impact_init
                    ex_exposures ex_impact_funcs ex_hazard)).
    reflexivity.
  - apply (proj2 (calc_assign_when_needed assign_centroid_0 Impact_init
                    flood_exposures ex_impact_funcs ex_hazard)).
    reflexivity.
Defined.

(** X7. When the exposures have no centroids for the hazard's type after
    the assignment step, [calc] raises [KeyError] (line 159), whatever
    the rest of the input. *)
Theorem calc_without_assignment (assign : Exposures -> Hazard -> Exposures)
    (self : Impact) (e : Exposures) (fs : ImpactFuncSet) (h : Hazard) :
  dict_mem (assigned (assign_if_needed assign e h)) (haz_type h) = false ->
  calc assign self e fs h = Raise KeyError.
Proof.
  intros Hmem. unfold calc, select_exposures.
  rewrite (dict_get_not_mem _ _ Hmem). reflexivity.
Qed.

Lemma calc_without_assignment_witness :
  calc no_assign Impact_init flood_exposures ex_impact_funcs ex_hazard =
  Raise KeyError.
Proof.
  apply (calc_without_assignment no_assign Impact_init flood_exposures
           ex_impact_funcs ex_hazard).
  reflexivity.
Defined.

(* ------------------------------------------------------------------ *)
(** ** Indices out of range in [_one_exposure] *)

(** X8. [_one_exposure] raises [IndexError] for an exposure index beyond
    the assigned centroids, and for an assigned centroid outside
    [-ncols, ncols) of the intensity matrix. *)
Theorem one_exposure_index_error (iexp : nat) (e : Exposures) (h : Hazard)
    (f : ImpactFunc) (cens : list Z) :
  dict_get (assigned e) (haz_type h) = Ok cens ->
  (nth_error cens iexp = None ->
   _one_exposure iexp e h f = Raise IndexError) /\
  (forall icen,
      nth_error cens iexp = Some icen ->
      (Z.of_nat (ncols (intensity h)) <= icen \/
       icen < - Z.of_nat (ncols (intensity h)))%Z ->
      _one_exposure iexp e h f = Raise IndexError).
Proof.
  intros Hcens. split.
  - intros Hnone. unfold _one_exposure, raw_impact. rewrite Hcens. cbn [bind].
    unfold np.getitem. rewrite Hnone. reflexivity.
  - intros icen Hsome Hout. unfold _one_exposure, raw_impact.
    rewrite Hcens. cbn [bind].
    rewrite (proj2 (getitem_nth_error cens iexp icen) Hsome). cbn [bind].
    unfold column, col_index.
    assert (E1 : ((0 <=? icen) && (icen <? Z.of_nat (ncols (intensity h))))%Z
                 = false).
    { apply andb_false_iff. destruct Hout as [Hout|Hout].
      - right. apply Z.ltb_ge. exact Hout.
      - left. apply Z.leb_gt. lia. }
    assert (E2 : ((- Z.of_nat (ncols (intensity h)) <=? icen) && (icen <? 0))%Z
                 = false).
    { apply andb_false_iff. destruct Hout as [Hout|Hout].
      - right. apply Z.ltb_ge. lia.
      - left. apply Z.leb_gt. exact Hout. }
    rewrite E1, E2. reflexivity.
Qed.

Lemma one_exposure_index_error_witness :
  _one_exposure 3 ex_exposures ex_hazard ex_imp_fun = Raise IndexError /\
  _one_exposure 0 far_exposures ex_hazard ex_imp_fun = Raise IndexError.
Proof.
  split.
  - apply (proj1 (one_exposure_index_error 3 ex_exposures ex_hazard ex_imp_fun
                    [0%Z] eq_refl)).
    reflexivity.
  - apply (proj2 (one_exposure_index_error 0 far_exposures ex_hazard
                    ex_imp_fun [5%Z] eq_refl) 5%Z).
    + reflexivity.
    + left. simpl. lia.
Defined.

(* ------------------------------------------------------------------ *)
(** ** Deductible and cover *)

Lemma raw_impact_nonneg (iexp : nat) (e : Exposures) (h : Hazard)
    (f : ImpactFunc) (er : list nat) (iv raw : list Q) :
  raw_impact iexp e h f = Ok (er, iv, raw) ->
  Forall (fun v => 0 <= v) (value e) ->
  Forall (fun m => 0 <= m) (mdr f) ->
  all_cells (fun x => 0 <= x) (fraction h) ->
  Forall (fun x => 0 <= x) raw.
Proof.
  intros Hraw Hval Hmdr Hfrac.
  destruct (raw_impact_inv _ _ _ _ Hraw)
    as (cens & icen & j & j' & v & _ & _ & _ & _ & Hv & _ & _ & ->).
  apply Forall_map, Forall_forall. intros i _.
  assert (Hv0 : 0 <= v).
  { rewrite Forall_forall in Hval. apply Hval, (nth_error_In _ _ Hv). }
  pose proof (mdr_at_nonneg f (cell (intensity h) i j) Hmdr) as Hm.
  pose proof (cell_all (fun x => 0 <= x) (fraction h) i j'
                (Qle_refl 0) Hfrac) as Hf. simpl in Hf.
  apply Qmult_le_0_compat; [apply Qmult_le_0_compat|]; assumption.
Qed.

Lemma raw_impact_le_value (iexp : nat) (e : Exposures) (h : Hazard)
    (f : ImpactFunc) (er : list nat) (iv raw : list Q) (v : Q) :
  raw_impact iexp e h f = Ok (er, iv, raw) ->
  nth_error (value e) iexp = Some v -> 0 <= v ->
  Forall (fun m => 0 <= m <= 1) (mdr f) ->
  all_cells (fun x => 0 <= x <= 1) (fraction h) ->
  Forall (fun x => 0 <= x <= v) raw.
Proof.
  intros Hraw Hv Hv0 Hmdr Hfrac.
  destruct (raw_impact_inv _ _ _ _ Hraw)
    as (cens & icen & j & j' & v' & _ & _ & _ & _ & Hv' & _ & _ & ->).
  assert (v' = v) by congruence. subst v'.
  apply Forall_map, Forall_forall. intros i _.
  assert (H01 : 0 <= 0 <= 1) by (split; discriminate).
  pose proof (mdr_at_bounds 0 1 f (cell (intensity h) i j) H01 Hmdr) as Hm.
  pose proof (cell_all (fun x => 0 <= x <= 1) (fraction h) i j' H01 Hfrac)
    as Hf. simpl in Hf.
  set (m := mdr_at f (cell (intensity h) i j)) in *.
  set (fr := cell (fraction h) i j') in *.
  assert (Hvm : 0 <= v * m <= v) by (split; nra).
  split; nra.
Qed.

Lemma Forall2_zip_with_l (P : Q -> Q -> Prop) (g : Q -> Q -> Q) (a b : list Q) :
  length b = length a ->
  (forall x y, In x a -> In y b -> P (g x y) x) ->
  Forall2 P (np.zip_with g a b) a.
Proof.
  revert b. induction a as [|x a IH]; intros [|y b] Hlen Hg; simpl in *;
    try discriminate; constructor.
  - apply Hg; left; reflexivity.
  - apply IH; [lia|]. intros x' y' Hx' Hy'. apply Hg; right; assumption.
Qed.

Lemma Forall2_refl_in (P : Q -> Q -> Prop) (a : list Q) :
  (forall x, In x a -> P x x) -> Forall2 P a a.
Proof.
  induction a as [|x a IH]; intros H; constructor.
  - apply H. left. reflexivity.
  - apply IH. intros y Hy. apply H. right. exact Hy.
Qed.

Lemma paa_at_nonneg (f : ImpactFunc) (x : Q) :
  Forall (fun p => 0 <= p) (paa f) -> 0 <= paa_at f x.
Proof.
  intros Hall. destruct (Forall_upper_bound (paa f)) as (hi & Hhi & Hup).
  apply (interp1_bounds 0 hi x).
  - split; [lra | exact Hhi].
  - apply (Forall_snd_combine (fun m => 0 <= m <= hi)).
    rewrite Forall_forall in *. intros m Hm. split; auto.
Qed.

(** X9. Insurance only reduces: with value, mdr and fraction >= 0, a
    deductible >= 0 and paa >= 0, every impact that [_one_exposure]
    returns is at most the impact before clipping (lines 238-246). *)
Theorem one_exposure_at_most_raw (iexp : nat) (e : Exposures) (h : Hazard)
    (f : ImpactFunc) (er : list nat) (imp iv raw : list Q) (ded : Q) :
  _one_exposure iexp e h f = Ok (er, imp) ->
  raw_impact iexp e h f = Ok (er, iv, raw) ->
  nth_error (deductible e) iexp = Some ded -> 0 <= ded ->
  Forall (fun v => 0 <= v) (value e) ->
  Forall (fun m => 0 <= m) (mdr f) ->
  Forall (fun p => 0 <= p) (paa f) ->
  all_cells (fun x => 0 <= x) (fraction h) ->
  Forall2 Qle imp raw.
Proof.
  intros Hone Hraw Hded Hded0 Hval Hmdr Hpaa Hfrac.
  pose proof (raw_impact_nonneg _ _ _ _ _ _ _ Hraw Hval Hmdr Hfrac) as Hraw0.
  destruct (one_exposure_inv _ _ _ _ Hone) as (iv' & raw' & Hraw' & Hcase).
  assert (iv' = iv) by congruence. assert (raw' = raw) by congruence.
  subst iv' raw'.
  destruct Hcase as [[_ ->] | [(d & cov & v & _ & _ & _ & _ & _ & ->) |
                               (d & cov & Hd & _ & ->)]].
  - apply Forall2_refl_in. intros; apply Qle_refl.
  - apply Forall2_refl_in. intros; apply Qle_refl.
  - assert (d = ded) by congruence. subst d.
    apply (Forall2_zip_with_l Qle).
    + destruct (raw_impact_inv _ _ _ _ Hraw)
        as (cens & icen & j & j' & v & _ & _ & _ & _ & _ & _ & Hiv & Hr).
      rewrite Hr, Hiv, !length_map. reflexivity.
    + intros x p Hx Hp. unfold clip_at.
      rewrite Forall_forall in Hraw0. specialize (Hraw0 x Hx).
      apply in_map_iff in Hp. destruct Hp as (y & <- & _).
      pose proof (paa_at_nonneg f y Hpaa) as Hp0.
      apply Qle_trans with (Qmax (x - ded * paa_at f y) 0); [apply Q.le_min_l|].
      apply Q.max_lub; [|exact Hraw0].
      assert (0 <= ded * paa_at f y) by (apply Qmult_le_0_compat; assumption).
      lra.
Qed.

Lemma one_exposure_at_most_raw_witness :
  exists er imp iv raw,
    _one_exposure 0 ins_exposures ex_hazard ex_imp_fun = Ok (er, imp) /\
    raw_impact 0 ins_exposures ex_hazard ex_imp_fun = Ok (er, iv, raw) /\
    Forall2 Qle imp raw.
Proof.
  eexists. eexists. eexists. eexists.
  split; [vm_compute; reflexivity|].
  split; [vm_compute; reflexivity|].
  eapply (one_exposure_at_most_raw 0 ins_exposures ex_hazard ex_imp_fun
            [0; 1]%nat _ _ _ 10).
  - vm_compute. reflexivity.
  - vm_compute. reflexivity.
  - reflexivity.
  - discriminate.
  - repeat constructor; discriminate.
  - repeat constructor; discriminate.
  - repeat constructor; discriminate.
  - repeat constructor; discriminate.
Defined.

(** X10. Skipping the clipping is sound without insurance: for an
    exposure with deductible 0 and cover >= value >= 0, with mdr and
    fraction in [0,1], [_one_exposure] returns the impact before clipping,
    and the clipping formula of lines 244-246 would give the same
    numbers. *)
Theorem one_exposure_no_insurance (iexp : nat) (e : Exposures) (h : Hazard)
    (f : ImpactFunc) (er : list nat) (imp iv raw : list Q) (ded cov v : Q) :
  _one_exposure iexp e h f = Ok (er, imp) ->
  raw_impact iexp e h f = Ok (er, iv, raw) ->
  nth_error (deductible e) iexp = Some ded -> ded == 0 ->
  nth_error (cover e) iexp = Some cov ->
  nth_error (value e) iexp = Some v -> 0 <= v -> v <= cov ->
  Forall (fun m => 0 <= m <= 1) (mdr f) ->
  all_cells (fun x => 0 <= x <= 1) (fraction h) ->
  imp = raw /\
  Qlist_eq (np.zip_with (clip_at ded cov) raw (map (paa_at f) iv)) raw.
Proof.
  intros Hone Hraw Hded Hded0 Hcov Hv Hv0 Hle Hmdr Hfrac.
  pose proof (raw_impact_le_value _ _ _ _ _ _ _ _ Hraw Hv Hv0 Hmdr Hfrac)
    as Hbound.
  assert (Hnoop : Qlist_eq (np.zip_with (clip_at ded cov) raw
                              (map (paa_at f) iv)) raw).
  { apply (Forall2_zip_with_l Qeq).
    - destruct (raw_impact_inv _ _ _ _ Hraw)
        as (cens & icen & j & j' & v' & _ & _ & _ & _ & _ & _ & Hiv & Hr).
      rewrite Hr, Hiv, !length_map. reflexivity.
    - intros x p Hx _. rewrite Forall_forall in Hbound.
      specialize (Hbound x Hx). unfold clip_at.
      assert (E : x - ded * p == x) by (rewrite Hded0; ring).
      rewrite E. rewrite Q.max_l by apply Hbound.
      apply Q.min_l. lra. }
  split; [|exact Hnoop].
  unfold _one_exposure in Hone. rewrite Hraw in Hone. cbn [bind] in Hone.
  destruct (0 <? np.count_nonzero raw)%nat.
  - destruct (bind_Ok Hone) as (pa & _ & H1). clear Hone.
    rewrite (proj2 (getitem_nth_error _ _ _) Hded) in H1. cbn [bind] in H1.
    assert (Hg1 : Qlt_bool 0 ded = false) by (apply Qlt_bool_false; lra).
    rewrite Hg1 in H1.
    rewrite (proj2 (getitem_nth_error _ _ _) Hcov) in H1. cbn [bind] in H1.
    rewrite (proj2 (getitem_nth_error _ _ _) Hv) in H1. cbn [bind] in H1.
    assert (Hg2 : Qlt_bool cov v = false) by (apply Qlt_bool_false; lra).
    rewrite Hg2 in H1. congruence.
  - congruence.
Qed.

Lemma one_exposure_no_insurance_witness :
  exists er imp iv raw,
    _one_exposure 0 ex_exposures ex_hazard ex_imp_fun = Ok (er, imp) /\
    raw_impact 0 ex_exposures ex_hazard ex_imp_fun = Ok (er, iv, raw) /\
    imp = raw.
Proof.
  exists [0; 1]%nat, [50.0; 100], [5; 10], [50.0; 100].
  split; [vm_compute; reflexivity|].
  split; [vm_compute; reflexivity|].
  apply (proj1 (one_exposure_no_insurance 0 ex_exposures ex_hazard ex_imp_fun
                  [0; 1]%nat [50.0; 100] [5; 10] [50.0; 100] 0 100 100
                  ltac:(vm_compute; reflexivity) ltac:(vm_compute; reflexivity)
                  eq_refl ltac:(reflexivity) eq_refl eq_refl
                  ltac:(discriminate) ltac:(discriminate)
                  ltac:(repeat constructor; discriminate)
                  ltac:(repeat constructor; discriminate))).
Defined.

(* ------------------------------------------------------------------ *)
(** ** The two arrays of [_one_exposure] *)

Lemma seq_increasing (a n : nat) : StronglySorted lt (seq a n).
Proof.
  revert a. induction n as [|n IH]; intros a; simpl; constructor.
  - apply IH.
  - apply Forall_forall. intros k Hk. apply in_seq in Hk. lia.
Qed.

Lemma filter_StronglySorted [A : Type] (R : A -> A -> Prop) (p : A -> bool)
    (l : list A) :
  StronglySorted R l -> StronglySorted R (filter p l).
Proof.
  induction 1 as [|x l Hl IH Hx]; simpl; [constructor|].
  destruct (p x); [|exact IH].
  constructor; [exact IH|].
  rewrite Forall_forall in *. intros y Hy. apply filter_In in Hy.
  apply Hx, Hy.
Qed.

(** X11. The two arrays that [_one_exposure] returns go together: the
    event indices are strictly increasing (so distinct) and below the
    hazard's event count, and there is one impact per event index. *)
Theorem one_exposure_coindexed (iexp : nat) (e : Exposures) (h : Hazard)
    (f : ImpactFunc) (er : list nat) (imp : list Q) :
  _one_exposure iexp e h f = Ok (er, imp) ->
  increasing er /\
  Forall (fun i => (i < nrows (intensity h))%nat) er /\
  length imp = length er.
Proof.
  intros Hone.
  destruct (one_exposure_shape _ _ _ _ Hone) as (_ & Hlt & Hlen).
  destruct (one_exposure_events _ _ _ _ _ _ Hone) as [j Her].
  split; [|split; assumption].
  rewrite Her. unfold increasing, relevant_events.
  apply filter_StronglySorted, seq_increasing.
Qed.

Lemma one_exposure_coindexed_witness :
  exists er imp,
    _one_exposure 0 ins_exposures ex_hazard ex_imp_fun = Ok (er, imp) /\
    increasing er /\ length imp = length er.
Proof.
  eexists. eexists. split; [vm_compute; reflexivity|].
  destruct (one_exposure_coindexed 0 ins_exposures ex_hazard ex_imp_fun
              [0; 1]%nat [40; 40] ltac:(vm_compute; reflexivity))
    as (Hinc & _ & Hlen).
  split; [exact Hinc | exact Hlen].
Defined.

(* ------------------------------------------------------------------ *)
(** ** More on the frequency curve *)

Lemma take_out_of_range [A : Type] (a : list A) (idx : list nat) :
  Exists (fun i => (length a <= i)%nat) idx ->
  np.take a idx = Raise IndexError.
Proof.
  unfold np.take. induction idx as [|i idx IH]; intros H.
  - inversion H.
  - simpl. unfold np.getitem at 1.
    destruct (nth_error a i) as [x|] eqn:E; [|reflexivity].
    simpl. inversion H as [? ? Hi | ? ? Hrest]; subst.
    + apply nth_error_None in Hi. congruence.
    + rewrite (IH Hrest). reflexivity.
Qed.

(** X12. [calc_freq_curve] returns a curve exactly when there is a
    frequency for every event; with fewer frequencies than events it
    raises [IndexError] (line 104). *)
Theorem freq_curve_returns_iff (self : Impact) :
  ((length (at_event self) <= length (imp_frequency self))%nat <->
   exists ifc, calc_freq_curve self = Ok ifc) /\
  ((length (imp_frequency self) < length (at_event self))%nat ->
   calc_freq_curve self = Raise IndexError).
Proof.
  assert (Hraise : (length (imp_frequency self) < length (at_event self))%nat ->
                   calc_freq_curve self = Raise IndexError).
  { intros Hlt. unfold calc_freq_curve, freq_curve_of.
    rewrite take_out_of_range; [reflexivity|].
    apply Exists_exists. exists (length (imp_frequency self)).
    split; [|lia].
    apply (Permutation_in _ (Permutation_sym (argsort_perm (at_event self)))).
    apply in_seq. lia. }
  split; [|exact Hraise].
  split.
  - intros Hlen. apply freq_curve_of_total; [apply argsort_lt | exact Hlen].
  - intros [ifc Hifc].
    destruct (Nat.le_gt_cases (length (at_event self))
                (length (imp_frequency self))) as [Hle|Hgt]; [exact Hle|].
    rewrite (Hraise Hgt) in Hifc. discriminate Hifc.
Qed.

Lemma freq_curve_returns_iff_witness :
  calc_freq_curve short_freq_impact = Raise IndexError /\
  exists ifc, calc_freq_curve zero_freq_impact = Ok ifc.
Proof.
  split.
  - apply (proj2 (freq_curve_returns_iff short_freq_impact)). simpl. lia.
  - apply (proj1 (proj1 (freq_curve_returns_iff zero_freq_impact))).
    simpl. lia.
Defined.

Lemma cumsum_from_last (acc : Q) (l : list Q) :
  l <> [] ->
  nth (length l - 1) (np.cumsum_from acc l) 0 == acc + np.sum l.
Proof.
  revert acc. induction l as [|x l IH]; intros acc Hne; [congruence|].
  destruct l as [|y l].
  - simpl. rewrite sum_cons, sum_nil. lra.
  - change (np.cumsum_from acc (x :: y :: l))
      with ((acc + x) :: np.cumsum_from (acc + x) (y :: l)).
    replace (length (x :: y :: l) - 1)%nat with (S (length (y :: l) - 1))
      by (simpl; lia).
    cbn [nth]. rewrite IH by discriminate. rewrite (sum_cons x). lra.
Qed.

Lemma cumsum_last (l : list Q) :
  l <> [] -> nth (length l - 1) (np.cumsum l) 0 == np.sum l.
Proof.
  intros Hne. destruct l as [|x l]; [congruence|].
  destruct l as [|y l].
  - simpl. rewrite sum_cons, sum_nil. lra.
  - change (np.cumsum (x :: y :: l)) with (x :: np.cumsum_from x (y :: l)).
    replace (length (x :: y :: l) - 1)%nat with (S (length (y :: l) - 1))
      by (simpl; lia).
    cbn [nth]. rewrite cumsum_from_last by discriminate.
    rewrite (sum_cons x). reflexivity.
Qed.

Lemma sum_perm (a b : list Q) : Permutation a b -> np.sum a == np.sum b.
Proof.
  induction 1 as [| x a b _ IH | x y a | a b c _ IH1 _ IH2].
  - reflexivity.
  - rewrite !sum_cons, IH. reflexivity.
  - rewrite !sum_cons. lra.
  - rewrite IH1. exact IH2.
Qed.

Lemma reciprocal_Qeq (x y : Q) :
  x == y -> npfloat_eq (np.reciprocal x) (np.reciprocal y).
Proof.
  intros Hxy. unfold np.reciprocal.
  destruct (Qeq_bool x 0) eqn:Ex; destruct (Qeq_bool y 0) eqn:Ey; simpl.
  - exact I.
  - apply Qeq_bool_iff in Ex.
    assert (Hy : y == 0) by (rewrite <- Hxy; exact Ex).
    apply Qeq_bool_iff in Hy. congruence.
  - apply Qeq_bool_iff in Ey.
    assert (Hx : x == 0) by (rewrite Hxy; exact Ey).
    apply Qeq_bool_iff in Hx. congruence.
  - rewrite Hxy. reflexivity.
Qed.

(** X13. The last rank of the curve: when there is one frequency per
    event, and at least one event, the return period at the last rank is
    the reciprocal of the total frequency of all events. *)
Theorem freq_curve_last_return_period (self : Impact) (ifc : ImpactFreqCurve) :
  length (at_event self) = length (imp_frequency self) ->
  at_event self <> [] ->
  calc_freq_curve self = Ok ifc ->
  npfloat_eq (nth (length (at_event self) - 1) (return_per ifc) (np.finite 0))
             (np.reciprocal (np.sum (imp_frequency self))).
Proof.
  intros Hlen Hne Hcurve. unfold calc_freq_curve in Hcurve.
  destruct (freq_curve_of_inv _ _ _ Hcurve) as (freq & Htake & Hret & _).
  pose proof (argsort_perm (at_event self)) as Hperm.
  destruct (take_Ok _ 0 _ Htake) as [Hfreq _].
  assert (Hflen : length freq = length (at_event self)).
  { rewrite Hfreq, length_map, (Permutation_length Hperm). apply length_seq. }
  assert (Hfne : freq <> []).
  { intros ->. destruct (at_event self); [congruence | discriminate Hflen]. }
  assert (Hsum : np.sum freq == np.sum (imp_frequency self)).
  { rewrite Hfreq. rewrite Hlen in Hperm.
    rewrite (sum_perm _ _ (Permutation_map (fun i => nth i (imp_frequency self) 0)
                             Hperm)).
    rewrite map_nth_seq. reflexivity. }
  rewrite Hret, <- Hflen.
  rewrite (nth_indep _ (np.finite 0) (np.reciprocal 0)).
  - rewrite (map_nth np.reciprocal (np.cumsum freq) 0).
    apply reciprocal_Qeq. rewrite (cumsum_last freq Hfne). exact Hsum.
  - rewrite length_map, cumsum_length.
    destruct freq; [congruence | simpl; lia].
Qed.

Lemma freq_curve_last_return_period_witness :
  exists ifc,
    calc_freq_curve zero_freq_impact = Ok ifc /\
    npfloat_eq (nth 1 (return_per ifc) (np.finite 0)) (np.finite 10).
Proof.
  eexists. split; [vm_compute; reflexivity|].
  apply (freq_curve_last_return_period zero_freq_impact).
  - reflexivity.
  - discriminate.
  - vm_compute. reflexivity.
Defined.

(** X14. The first rank of the curve is the largest impact: every entry
    of [at_event] is at most the first impact of the curve, which is one
    of them. *)
Theorem freq_curve_first_is_max (self : Impact) (ifc : ImpactFreqCurve) :
  calc_freq_curve self = Ok ifc ->
  at_event self <> [] ->
  In (nth 0 (impact ifc) 0) (at_event self) /\
  Forall (fun x => x <= nth 0 (impact ifc) 0) (at_event self).
Proof.
  intros Hcurve Hne. unfold calc_freq_curve in Hcurve.
  destruct (freq_curve_of_inv _ _ _ Hcurve) as (freq & _ & _ & Himp & _).
  pose proof (argsort_descending (at_event self)) as Hsorted.
  assert (Hperm : Permutation (impact ifc) (at_event self)).
  { rewrite Himp.
    apply perm_trans
      with (map (fun i => nth i (at_event self) 0)
                (seq 0 (length (at_event self)))).
    - apply Permutation_map, argsort_perm.
    - rewrite map_nth_seq. apply Permutation_refl. }
  rewrite <- Himp in Hsorted.
  destruct (impact ifc) as [|y rest].
  - apply Permutation_nil in Hperm. congruence.
  - simpl. split.
    + apply (Permutation_in _ Hperm). left. reflexivity.
    + apply (Permutation_Forall Hperm).
      inversion Hsorted as [|? ? _ Hall]; subst.
      constructor; [apply Qle_refl | exact Hall].
Qed.

Lemma freq_curve_first_is_max_witness :
  exists ifc,
    calc_freq_curve zero_freq_impact = Ok ifc /\
    Forall (fun x => x <= nth 0 (impact ifc) 0) (at_event zero_freq_impact).
Proof.
  eexists. split; [vm_compute; reflexivity|].
  apply (freq_curve_first_is_max zero_freq_impact).
  - vm_compute. reflexivity.
  - discriminate.
Defined.

(** X15. [calc] then [calc_freq_curve]: on every result of [calc] for a
    hazard with one frequency per event, [calc_freq_curve] returns a
    curve, with one rank per event and the exposures' value unit. *)
Theorem calc_then_freq_curve (assign : Exposures -> Hazard -> Exposures)
    (self : Impact) (e : Exposures) (fs : ImpactFuncSet) (h : Hazard)
    (imp : Impact) :
  length (frequency h) = nrows (intensity h) ->
  calc assign self e fs h = Ok imp ->
  exists ifc,
    calc_freq_curve imp = Ok ifc /\
    length (impact ifc) = nrows (intensity h) /\
    length (return_per ifc) = nrows (intensity h) /\
    ifc_unit ifc = value_unit (assign_if_needed assign e h).
Proof.
  intros Hfreq Hcalc.
  destruct (calc_result_fields assign self e fs h imp Hcalc)
    as (Hat & _ & Hf & _ & Hu).
  destruct (freq_curve_of_total imp (rev (np.argsort (at_event imp))))
    as [ifc Hifc].
  - apply argsort_lt.
  - rewrite Hf, Hat, Hfreq. apply Nat.le_refl.
  - exists ifc. split; [exact Hifc|].
    destruct (freq_curve_of_inv _ _ _ Hifc) as (freq & Htake & Hret & Himp & Hunit).
    pose proof (Permutation_length (argsort_perm (at_event imp))) as Hn.
    rewrite length_seq in Hn.
    split; [rewrite Himp, length_map; congruence|].
    split; [|congruence].
    rewrite Hret, length_map, cumsum_length, (take_length _ _ _ Htake).
    congruence.
Qed.

Lemma calc_then_freq_curve_witness :
  exists imp ifc,
    calc no_assign Impact_init two_exposures ex_impact_funcs two_centroid_hazard
      = Ok imp /\
    calc_freq_curve imp = Ok ifc /\ length (impact ifc) = 2%nat.
Proof.
  destruct (calc_then_freq_curve no_assign Impact_init two_exposures
              ex_impact_funcs two_centroid_hazard _ eq_refl
              ltac:(vm_compute; reflexivity))
    as (ifc & Hifc & Hlen & _).
  eexists. exists ifc. split; [vm_compute; reflexivity|].
  split; [exact Hifc | exact Hlen].
Defined.

(* ------------------------------------------------------------------ *)
(** ** [plot_eai_exposure]: what is handed to the plot *)

Lemma compress_combine [A B : Type] (mask : list bool) (a : list A) (b : list B) :
  length a = length b ->
  combine (compress mask a) (compress mask b) = compress mask (combine a b).
Proof.
  revert a b. induction mask as [|m mask IH]; intros [|x a] [|y b] Hlen;
    simpl in *; try reflexivity; try discriminate.
  destruct m; simpl; [f_equal|]; apply IH; lia.
Qed.

Lemma compress_map_filter [A : Type] (p : A -> bool) (a : list A) :
  compress (map p a) a = filter p a.
Proof.
  induction a as [|x a IH]; simpl; [reflexivity|].
  destruct (p x); [f_equal|]; exact IH.
Qed.

Lemma compress_all [A : Type] (a : list A) :
  compress (repeat true (length a)) a = a.
Proof.
  induction a as [|x a IH]; simpl; [reflexivity | f_equal; exact IH].
Qed.

Lemma compress_length [A B : Type] (mask : list bool) (a : list A) (b : list B) :
  length a = length b ->
  length (compress mask a) = length (compress mask b).
Proof.
  revert a b. induction mask as [|m mask IH]; intros [|x a] [|y b] Hlen;
    simpl in *; try reflexivity; try discriminate.
  destruct m; simpl; [f_equal|]; apply IH; lia.
Qed.

Lemma sum_filter_positive (a : list Q) :
  Forall (fun x => 0 <= x) a ->
  np.sum (filter (Qlt_bool 0) a) == np.sum a.
Proof.
  induction 1 as [|x a Hx _ IH]; simpl; [reflexivity|].
  destruct (Qlt_bool 0 x) eqn:E.
  - rewrite !sum_cons, IH. reflexivity.
  - apply Qlt_bool_false in E. rewrite sum_cons, IH. lra.
Qed.

Lemma mask_index_same [A : Type] (a : list A) (mask : list bool) :
  length mask = length a -> mask_index a mask = Ok (compress mask a).
Proof.
  intros H. unfold mask_index. rewrite H, Nat.eqb_refl. reflexivity.
Qed.

Lemma filter_fst_combine (a : list Q) (b : list (Q * Q)) :
  map (fun p : Q * (Q * Q) => Qlt_bool 0 (fst p)) (combine a b) =
  firstn (length b) (map (Qlt_bool 0) a).
Proof.
  revert b. induction a as [|x a IH]; intros [|y b]; simpl; try reflexivity.
  f_equal. apply IH.
Qed.

(** X16. What [plot_eai_exposure] plots: with as many coordinates as
    exposures it makes its call; with [ignore_null] the values handed
    over are exactly the positive entries of [eai_exp], each with the
    coordinate of its exposure, and when no entry is negative their sum
    is the sum of [eai_exp]; without [ignore_null] all values and
    coordinates are handed over unchanged. *)
Theorem plot_eai_exposure_selection (kwarg : Type) (np_sum : kwarg)
    (self : Impact) (coord_exp : list (Q * Q)) (kwargs : list (string * kwarg)) :
  length coord_exp = length (eai_exp self) ->
  (exists call,
      plot_eai_exposure kwarg np_sum self coord_exp true kwargs = Ok call /\
      array_sub kwarg call = filter (Qlt_bool 0) (eai_exp self) /\
      combine (array_sub kwarg call) (geo_coord kwarg call) =
        filter (fun p => Qlt_bool 0 (fst p)) (combine (eai_exp self) coord_exp) /\
      length (geo_coord kwarg call) = length (array_sub kwarg call) /\
      Forall (fun x => 0 < x) (array_sub kwarg call) /\
      (Forall (fun x => 0 <= x) (eai_exp self) ->
       np.sum (array_sub kwarg call) == np.sum (eai_exp self))) /\
  (exists call,
      plot_eai_exposure kwarg np_sum self coord_exp false kwargs = Ok call /\
      array_sub kwarg call = eai_exp self /\
      geo_coord kwarg call = coord_exp).
Proof.
  intros Hlen. split.
  - unfold plot_eai_exposure.
    rewrite (mask_index_same (eai_exp self)) by apply length_map.
    cbn [bind].
    rewrite (mask_index_same coord_exp) by (rewrite length_map; congruence).
    cbn [bind].
    eexists. split; [reflexivity|].
    cbn [array_sub geo_coord].
    rewrite compress_map_filter.
    split; [reflexivity|]. split; [|split; [|split]].
    + rewrite <- compress_map_filter.
      rewrite compress_combine by congruence.
      rewrite <- (compress_map_filter (fun p => Qlt_bool 0 (fst p))).
      f_equal. rewrite filter_fst_combine, Hlen, <- (length_map (Qlt_bool 0)).
      symmetry. apply firstn_all.
    + rewrite <- compress_map_filter. apply compress_length. exact Hlen.
    + apply Forall_forall. intros x Hx. apply filter_In in Hx.
      apply Qlt_bool_iff, Hx.
    + apply sum_filter_positive.
  - unfold plot_eai_exposure.
    rewrite (mask_index_same (eai_exp self)) by apply repeat_length.
    cbn [bind].
    rewrite (mask_index_same coord_exp) by (rewrite repeat_length; congruence).
    cbn [bind].
    eexists. split; [reflexivity|].
    cbn [array_sub geo_coord].
    split; [apply compress_all|]. rewrite <- Hlen. apply compress_all.
Qed.

Lemma plot_eai_exposure_selection_witness :
  exists call,
    plot_eai_exposure string "np.sum"%string three_exp_impact three_coords true []
      = Ok call /\
    array_sub string call = [6; 3] /\
    geo_coord string call = [(1, 2); (5, 6)] /\
    np.sum (array_sub string call) == np.sum (eai_exp three_exp_impact).
Proof.
  destruct (proj1 (plot_eai_exposure_selection string "np.sum"%string
                     three_exp_impact three_coords [] eq_refl))
    as (call & Hcall & Hvals & Hpairs & _ & _ & Hsum).
  exists call. split; [exact Hcall|].
  split; [rewrite Hvals; reflexivity|].
  split.
  - vm_compute in Hcall. injection Hcall as <-. reflexivity.
  - apply Hsum. repeat constructor; discriminate.
Defined.

Lemma dict_get_app_new [V : Type] (d : list (string * V)) (key k : string) (v : V) :
  dict_get (d ++ [(key, v)]) k =
  match dict_get d k with
  | Ok x => Ok x
  | Raise _ => if String.eqb key k then Ok v else Raise KeyError
  end.
Proof.
  induction d as [|[k0 v0] d IH]; simpl.
  - reflexivity.
  - destruct (String.eqb k0 k); [reflexivity | exact IH].
Qed.

Lemma dict_get_mem [V : Type] (d : list (string * V)) (key : string) :
  dict_mem d key = true -> exists v, dict_get d key = Ok v.
Proof.
  unfold dict_mem. induction d as [|[k v] d IH]; simpl; intros H.
  - discriminate H.
  - destruct (String.eqb k key); [exists v; reflexivity | apply IH, H].
Qed.

(** X17. The keyword arguments of [plot_eai_exposure]: a
    [reduce_C_function] given by the caller is passed on as it is;
    otherwise [np.sum] is passed under that key; every other keyword
    argument is passed on unchanged. *)
Theorem plot_eai_exposure_kwargs (kwarg : Type) (np_sum : kwarg)
    (self : Impact) (coord_exp : list (Q * Q)) (ignore_null : bool)
    (kwargs : list (string * kwarg)) (call : geo_bin_call kwarg) :
  plot_eai_exposure kwarg np_sum self coord_exp ignore_null kwargs = Ok call ->
  (forall v, dict_get kwargs "reduce_C_function" = Ok v ->
             call_kwargs kwarg call = kwargs) /\
  (dict_mem kwargs "reduce_C_function" = false ->
   dict_get (call_kwargs kwarg call) "reduce_C_function" = Ok np_sum) /\
  (forall k, k <> "reduce_C_function"%string ->
             dict_get (call_kwargs kwarg call) k = dict_get kwargs k).
Proof.
  intros Hcall. unfold plot_eai_exposure in Hcall.
  destruct (bind_Ok Hcall) as (vals & _ & H1). clear Hcall.
  destruct (bind_Ok H1) as (coords & _ & H2). clear H1.
  injection H2 as <-. cbn [call_kwargs]. unfold dict_setdefault.
  split; [|split].
  - intros v Hv.
    destruct (dict_mem kwargs "reduce_C_function") eqn:E; [reflexivity|].
    rewrite (dict_get_not_mem _ _ E) in Hv. discriminate Hv.
  - intros E. rewrite E, dict_get_app_new, (dict_get_not_mem _ _ E).
    reflexivity.
  - intros k Hk.
    destruct (dict_mem kwargs "reduce_C_function"); [reflexivity|].
    rewrite dict_get_app_new.
    destruct (dict_get kwargs k) as [x|ex] eqn:E; [reflexivity|].
    destruct (String.eqb_spec "reduce_C_function" k) as [Heq|_];
      [congruence|].
    destruct (dict_mem kwargs k) eqn:Em.
    + destruct (dict_get_mem _ _ Em) as [x Hx]. congruence.
    + rewrite (dict_get_not_mem _ _ Em) in E. congruence.
Qed.

Lemma plot_eai_exposure_kwargs_witness :
  exists call,
    plot_eai_exposure string "np.sum"%string three_exp_impact three_coords true
      [("gridsize"%string, "50"%string)] = Ok call /\
    dict_get (call_kwargs string call) "reduce_C_function" = Ok "np.sum"%string /\
    dict_get (call_kwargs string call) "gridsize" = Ok "50"%string.
Proof.
  eexists. split; [vm_compute; reflexivity|].
  destruct (plot_eai_exposure_kwargs string "np.sum"%string three_exp_impact
              three_coords true [("gridsize"%string, "50"%string)] _
              ltac:(vm_compute; reflexivity)) as (_ & Hdefault & Hother).
  split.
  - apply Hdefault. reflexivity.
  - rewrite Hother by discriminate. reflexivity.
Defined.



(* ------------------------------------------------------------------ *)
(** ** [calc] and the fraction at cells without intensity *)

Lemma for_each_ext [A S : Type] (body body' : S -> A -> result S) (l : list A) :
  (forall s x, In x l -> body s x = body' s x) ->
  forall st, for_each body l st = for_each body' l st.
Proof.
  induction l as [|x l IH]; intros Hext st; simpl; [reflexivity|].
  rewrite (Hext st x (or_introl eq_refl)).
  destruct (body' st x) as [s1|ex]; simpl; [|reflexivity].
  apply IH. intros s y Hy. apply Hext. right. exact Hy.
Qed.

Lemma add_exposure_fraction (e : Exposures) (h : Hazard) (F' : matrix)
    (f : ImpactFunc) (s : Impact) (iexp : nat) (cens : list Z) (icen : Z) :
  dict_get (assigned e) (haz_type h) = Ok cens ->
  nth_error cens iexp = Some icen -> (0 <= icen)%Z ->
  nrows F' = nrows (fraction h) -> ncols F' = ncols (fraction h) ->
  (forall i j, ~ cell (intensity h) i j == 0 ->
               cell F' i j = cell (fraction h) i j) ->
  add_exposure e (with_fraction h F') f s iexp = add_exposure e h f s iexp.
Proof.
  intros Hcens Hicen Hpos Hrows Hcols Hagree.
  unfold add_exposure, _one_exposure.
  rewrite (raw_impact_fraction iexp e h f F' cens icen Hcens Hicen Hpos
             Hrows Hcols (fun i => Hagree i (Z.to_nat icen))).
  reflexivity.
Qed.

(** X19. The fraction matrix matters only where there is intensity: for
    exposures that are assigned, with one centroid per exposure, [calc]
    gives the same result (or the same error) for two fraction matrices
    of one shape that agree at every cell whose intensity is not zero. *)
Theorem calc_fraction_irrelevant (assign : Exposures -> Hazard -> Exposures)
    (self : Impact) (e : Exposures) (fs : ImpactFuncSet) (h : Hazard)
    (F' : matrix) (cens : list Z) :
  dict_get (assigned e) (haz_type h) = Ok cens ->
  length cens = length (value e) ->
  nrows F' = nrows (fraction h) -> ncols F' = ncols (fraction h) ->
  (forall i j, ~ cell (intensity h) i j == 0 ->
               cell F' i j = cell (fraction h) i j) ->
  calc assign self e fs (with_fraction h F') = calc assign self e fs h.
Proof.
  intros Hcens Hlen Hrows Hcols Hagree.
  assert (Hmem : dict_mem (assigned e) (haz_type h) = true).
  { destruct (dict_mem (assigned e) (haz_type h)) eqn:E; [reflexivity|].
    rewrite (dict_get_not_mem _ _ E) in Hcens. discriminate Hcens. }
  assert (He : forall hz, haz_type hz = haz_type h ->
                          assign_if_needed assign e hz = e).
  { intros hz Hhz. rewrite assign_if_needed_mem, Hhz, Hmem. reflexivity. }
  unfold calc. rewrite (He h eq_refl), (He (with_fraction h F') eq_refl).
  change (select_exposures e (with_fraction h F')) with (select_exposures e h).
  change (calc_init self e (with_fraction h F')) with (calc_init self e h).
  destruct (select_exposures_Ok e h cens Hcens Hlen)
    as (exp_idx & Hsel & _ & Hin).
  rewrite Hsel. cbn [bind]. destruct exp_idx as [|i0 l] eqn:Eidx; [reflexivity|].
  rewrite <- Eidx in *.
  change (haz_type (with_fraction h F')) with (haz_type h).
  change (frequency (with_fraction h F')) with (frequency h).
  destruct (get_func fs (haz_type h)) as [haz_imp|ex]; [|reflexivity].
  cbn [bind].
  rewrite (for_each_ext (add_group e (with_fraction h F') exp_idx)
             (add_group e h exp_idx)); [reflexivity|].
  intros s f _. unfold add_group.
  destruct (np.take (impact_id e) exp_idx) as [ids|ex]; [|reflexivity].
  cbn [bind].
  destruct (np.take exp_idx _) as [sel|ex] eqn:Esel; [|reflexivity].
  cbn [bind]. apply for_each_ext. intros s0 iexp Hiexp.
  assert (Hsub : In iexp exp_idx).
  { destruct (take_Ok exp_idx O _ Esel) as [-> Hidx].
    apply in_map_iff in Hiexp. destruct Hiexp as (k & <- & Hk).
    apply nth_In. rewrite Forall_forall in Hidx. apply Hidx, Hk. }
  apply Hin in Hsub. destruct Hsub as (Hlt & _ & Hpos).
  apply (add_exposure_fraction e h F' f s0 iexp cens (nth iexp cens (-1)%Z));
    try assumption.
  apply nth_error_nth'. lia.
Qed.

Lemma calc_fraction_irrelevant_witness :
  calc no_assign Impact_init ex_exposures ex_impact_funcs
       (with_fraction calm_event_hazard other_fraction) =
  calc no_assign Impact_init ex_exposures ex_impact_funcs calm_event_hazard.
Proof.
  apply (calc_fraction_irrelevant no_assign Impact_init ex_exposures
           ex_impact_funcs calm_event_hazard other_fraction [0%Z]).
  - reflexivity.
  - reflexivity.
  - reflexivity.
  - reflexivity.
  - intros i j Hnz.
    destruct i as [|[|[|i]]]; destruct j as [|[|j]]; try reflexivity;
      exfalso; apply Hnz; reflexivity.
Defined.

(* ------------------------------------------------------------------ *)
(** ** A hazard without events *)

Lemma broadcast2_nil_l [B C : Type] (g : Q -> B -> C) (b : list B) (c : list C) :
  np.broadcast2 g [] b = Ok c -> c = [].
Proof.
  unfold np.broadcast2. destruct b as [|y [|y' b]]; simpl; intros H;
    try discriminate H; injection H as <-; reflexivity.
Qed.

(** X20. For a hazard without events, every result of [calc] on a fresh
    [Impact] has an empty [at_event], an [eai_exp] of zeros and
    [aai_agg = 0] (the selected exposures with an impact function still
    count in [tot_value]). *)
Theorem calc_no_events (assign : Exposures -> Hazard -> Exposures)
    (e : Exposures) (fs : ImpactFuncSet) (h : Hazard) (imp : Impact) :
  nrows (intensity h) = O ->
  calc assign Impact_init e fs h = Ok imp ->
  at_event imp = [] /\
  Forall (fun x => x == 0) (eai_exp imp) /\
  aai_agg imp == 0.
Proof.
  intros Hrows Hcalc.
  assert (Hzeros : forall n, Forall (fun x => x == 0) (np.zeros n)).
  { intros n. apply Forall_forall. intros x Hx.
    apply repeat_spec in Hx. subst x. reflexivity. }
  destruct (calc_inv _ _ _ _ _ _ Hcalc) as (exp_idx & _ & Hcase).
  destruct Hcase as [[_ ->] | (_ & haz_imp & st & prod & _ & Hloop & Hprod &
                               Heai & Hat & _ & Haai)].
  - simpl. rewrite Hrows.
    split; [reflexivity|]. split; [apply Hzeros | reflexivity].
  - assert (Hinv : at_event st = [] /\ Forall (fun x => x == 0) (eai_exp st)).
    { apply (calc_loop_ind
               (fun s => at_event s = [] /\ Forall (fun x => x == 0) (eai_exp s))
               _ _ _ _ _ _ Hloop).
      - simpl. rewrite Hrows. split; [reflexivity | apply Hzeros].
      - intros f iexp s s' _ _ _ [Hs1 Hs2] Hadd.
        destruct (add_exposure_inv _ _ _ _ _ _ Hadd)
          as (er & im & v & Hone & Hiadd & Hitem & _).
        destruct (one_exposure_shape _ _ _ _ Hone) as (_ & Hlt & Hlen).
        assert (er = []).
        { destruct er as [|k er]; [reflexivity|].
          inversion Hlt; subst. lia. }
        subst er. destruct im; [|discriminate Hlen].
        split.
        + rewrite Hs1 in Hiadd. unfold np.iadd_at in Hiadd. simpl in Hiadd.
          injection Hiadd as <-. reflexivity.
        + unfold np.iadd_item in Hitem.
          destruct (bind_Ok Hitem) as (old & Hold & Hset).
          apply (setitem_Forall _ _ _ _ _ Hset Hs2).
          destruct (getitem_Ok _ _ 0 Hold) as [Hi <-].
          rewrite Forall_forall in Hs2.
          rewrite (Hs2 _ (nth_In (eai_exp s) 0 Hi)). simpl.
          rewrite sum_nil. lra. }
    destruct Hinv as [H1 H2].
    rewrite Hat, Heai, Haai. split; [exact H1|]. split; [exact H2|].
    rewrite H1 in Hprod. apply broadcast2_nil_l in Hprod. subst prod.
    reflexivity.
Qed.

Lemma calc_no_events_witness :
  exists imp,
    calc no_assign Impact_init ex_exposures ex_impact_funcs no_event_hazard
      = Ok imp /\
    at_event imp = [] /\ aai_agg imp == 0 /\ tot_value imp == 100.
Proof.
  eexists. split; [vm_compute; reflexivity|].
  destruct (calc_no_events no_assign ex_exposures ex_impact_funcs
              no_event_hazard _ eq_refl ltac:(vm_compute; reflexivity))
    as (Hat & _ & Haai).
  split; [exact Hat|]. split; [exact Haai | reflexivity].
Defined.

(* ------------------------------------------------------------------ *)
(** ** When [_one_exposure] reads [paa] and the insurance terms *)

Lemma count_nonzero_all_zero (a : list Q) :
  Forall (fun x => x == 0) a -> np.count_nonzero a = O.
Proof.
  unfold np.count_nonzero. induction 1 as [|x a Hx _ IH]; simpl; [reflexivity|].
  rewrite (proj2 (Qnonzero_false x) Hx). exact IH.
Qed.

(** X21. [paa] and the insurance terms are read exactly when some impact
    is not zero (line 239): if every impact before clipping is zero,
    [_one_exposure] returns it untouched, whatever [paa], [deductible]
    and [cover] hold; if some impact is not zero and [paa] has another
    length than the intensity breakpoints, [_one_exposure] raises
    [ValueError], also for an exposure without deductible and cover
    limit. *)
Theorem one_exposure_reads_paa (iexp : nat) (e : Exposures) (h : Hazard)
    (f : ImpactFunc) (er : list nat) (iv raw : list Q) :
  raw_impact iexp e h f = Ok (er, iv, raw) ->
  (Forall (fun x => x == 0) raw ->
   _one_exposure iexp e h f = Ok (er, raw)) /\
  (Exists (fun x => ~ x == 0) raw ->
   length (paa f) <> length (fun_intensity f) ->
   _one_exposure iexp e h f = Raise ValueError).
Proof.
  intros Hraw. unfold _one_exposure. rewrite Hraw. cbn [bind]. split.
  - intros Hzero. rewrite (count_nonzero_all_zero raw Hzero). reflexivity.
  - intros Hnz Hlen.
    assert (Hcount : (0 <? np.count_nonzero raw)%nat = true).
    { apply Nat.ltb_lt. destruct (np.count_nonzero raw) eqn:E; [|lia].
      apply count_nonzero_0 in E. apply Exists_exists in Hnz.
      destruct Hnz as (x & Hx & Hxnz). rewrite Forall_forall in E.
      exfalso. apply Hxnz, E, Hx. }
    rewrite Hcount. unfold np.interp.
    destruct (fun_intensity f) as [|x0 xp]; [reflexivity|].
    destruct (Nat.eqb_spec (length (paa f)) (length (x0 :: xp))) as [Heq|_];
      [contradiction | reflexivity].
Qed.

Lemma one_exposure_reads_paa_witness :
  _one_exposure 0 ex_exposures ex_hazard short_paa_imp_fun = Raise ValueError /\
  _one_exposure 0 ex_exposures no_event_hazard short_paa_imp_fun = Ok ([], []).
Proof.
  split.
  - apply (proj2 (one_exposure_reads_paa 0 ex_exposures ex_hazard
                    short_paa_imp_fun [0; 1]%nat [5; 10] [50.0; 100]
                    ltac:(vm_compute; reflexivity))).
    + apply Exists_cons_hd. discriminate.
    + discriminate.
  - apply (proj1 (one_exposure_reads_paa 0 ex_exposures no_event_hazard
                    short_paa_imp_fun [] [] [] ltac:(vm_compute; reflexivity))).
    constructor.
Defined.

(* ------------------------------------------------------------------ *)
(** ** [tot_value] and the selected exposures *)

Lemma sum_filter_le [A : Type] (g : A -> Q) (p : A -> bool) (l : list A) :
  (forall x, In x l -> 0 <= g x) ->
  np.sum (map g (filter p l)) <= np.sum (map g l).
Proof.
  induction l as [|x l IH]; intros Hpos; simpl.
  - apply Qle_refl.
  - assert (IH' := IH (fun y Hy => Hpos y (or_intror Hy))).
    assert (Hx := Hpos x (or_introl eq_refl)).
    destruct (p x); simpl; rewrite ?sum_cons; lra.
Qed.

Lemma filter_all [A : Type] (p : A -> bool) (l : list A) :
  Forall (fun x => p x = true) l -> filter p l = l.
Proof.
  induction 1 as [|x l Hx _ IH]; simpl; [reflexivity|].
  rewrite Hx, IH. reflexivity.
Qed.

(** X22. For impact functions with distinct ids and values >= 0,
    [tot_value] is at most the total value of the selected exposures,
    and it is that total when every selected exposure has an impact
    function. *)
Theorem calc_tot_value_bound (assign : Exposures -> Hazard -> Exposures)
    (e : Exposures) (fs : ImpactFuncSet) (h : Hazard) (imp : Impact)
    (exp_idx : list nat) (haz_imp : list ImpactFunc) :
  let e' := assign_if_needed assign e h in
  calc assign Impact_init e fs h = Ok imp ->
  select_exposures e' h = Ok exp_idx ->
  get_func fs (haz_type h) = Ok haz_imp ->
  NoDup (fun_ids haz_imp) ->
  Forall (fun v => 0 <= v) (value e') ->
  tot_value imp <= np.sum (map (fun i => nth i (value e') 0) exp_idx) /\
  (Forall (fun i => matched e' haz_imp i = true) exp_idx ->
   tot_value imp == np.sum (map (fun i => nth i (value e') 0) exp_idx)).
Proof.
  intros e' Hcalc Hsel Hget Hnd Hval.
  assert (Htot : tot_value imp ==
                 np.sum (map (fun i => nth i (value e') 0)
                             (filter (matched e' haz_imp) exp_idx))).
  { destruct (calc_inv _ _ _ _ _ _ Hcalc) as (exp_idx' & Hsel' & Hcase).
    fold e' in Hsel', Hcase.
    assert (exp_idx' = exp_idx) by congruence. subst exp_idx'.
    destruct Hcase as [[-> ->] | (_ & haz_imp' & st & prod & Hget' & Hloop & _ &
                                 _ & _ & Htot & _)].
    - simpl. rewrite sum_nil. lra.
    - assert (haz_imp' = haz_imp) by congruence. subst haz_imp'.
      rewrite Htot, (groups_tot_value _ _ _ _ Hnd _ _ Hloop). simpl. lra. }
  split.
  - rewrite Htot. apply sum_filter_le. intros i _.
    destruct (nth_in_or_default i (value e') 0) as [Hin | ->]; [|lra].
    rewrite Forall_forall in Hval. apply Hval, Hin.
  - intros Hall. rewrite Htot, (filter_all _ _ Hall). reflexivity.
Qed.

Lemma calc_tot_value_bound_witness :
  exists imp,
    calc no_assign Impact_init two_exposures ex_impact_funcs two_centroid_hazard
      = Ok imp /\
    tot_value imp <= 170.
Proof.
  eexists. split; [vm_compute; reflexivity|].
  apply (Qle_trans _
           (np.sum (map (fun i => nth i (value two_exposures) 0) [0; 1]%nat)));
    [|vm_compute; discriminate].
  apply (proj1 (calc_tot_value_bound no_assign two_exposures ex_impact_funcs
                  two_centroid_hazard _ [0; 1]%nat [ex_imp_fun]
                  ltac:(vm_compute; reflexivity) eq_refl eq_refl
                  ltac:(repeat constructor; simpl; tauto)
                  ltac:(repeat constructor; discriminate))).
Defined.
